(** * spid: the sentinel package, embedded in Rocq

    The Go package [sentinel] scans a set of watched files and directories,
    compares SHA-256 digests against the digests remembered from earlier
    scans, records the resulting events, and persists its whole state in a
    file sealed with scrypt and NaCl secretbox.

    The embedding follows the source file of the package: the types of its
    [type ( ... )] block, then [New], [checksumFile], [process], [Scan],
    [Save] and [Open], and [scanCmd] of the command.

    - A method on [*Sentinel] is a function from the sentinel to the
      sentinel it leaves behind and a result: a value, an error, or a panic.
      What a method wrote before it returned an error stays written.
    - The file system is a finite map from the watched paths to trees of
      regular files and directories, which does not change during a scan.
    - crypto/sha256, scrypt and secretbox are interfaces, with the contract
      of secretbox that [Save] and [Open] rely on; the order in which Go
      ranges over a map is any order.
    - encoding/gob is modelled by its rules for encoding values.
    - [time.Now()] and [rand.Reader] are inputs.

    The second half proves the properties of the package; its last section
    runs them on sample data. *)

From Stdlib Require Import ZArith NArith Lia.
From Stdlib Require Import Strings.Ascii Strings.Byte.
From stdpp Require Import base option list gmap strings fin_maps sorting.

Open Scope Z_scope.

#[global] Instance byte_eq_dec : EqDecision byte := Byte.byte_eq_dec.

(** ** Types of the package *)

(** [type checksum string] *)
Abbreviation checksum := string (only parsing).

(** [Event] defines a file integrity event. *)
Record Event := mkEvent {
  Evtype : string;
  OrigChecksum : checksum;
  NewChecksum : checksum;
  File : string
}.

(** [Scan] stores the information from a single scan.  [time.Time] is the
    instant in nanoseconds, a signed 64-bit quantity. *)
Record Scan := mkScan {
  Timestamp : Z;
  Events : list Event
}.

(** [Sentinel].  A Go map is a reference that may be nil: [None] is the nil
    map, [Some m] a map made with [make] (possibly empty).  Slices are lists;
    a nil slice and an empty one behave alike for [range], [append] and
    [len], the only operations the package applies to them. *)
Record Sentinel := mkSentinel {
  WatchFiles : list string;
  KnownObjects : option (gmap string string);
  PriorScans : list Scan
}.

(** [Config] defines the configuration for a sentinel. *)
Record Config := mkConfig {
  cfgWatchFiles : list string
}.

(** [SentinelFile] stores the data used to encode a sentinel.  The two
    [[24]byte] arrays are byte lists; gob decoding only yields length 24. *)
Record SentinelFile := mkSentinelFile {
  Data : list byte;
  Nonce : list byte;
  Salt : list byte
}.

Definition evCreate : string := "EV_CREATE".
Definition evModify : string := "EV_MODIFY".

Definition scryptN : Z := 16384.
Definition scryptP : Z := 1.
Definition scryptR : Z := 8.
Definition keyLen : Z := 32.

#[global] Instance Event_eq_dec : EqDecision Event.
Proof. solve_decision. Defined.

#[global] Instance Scan_eq_dec : EqDecision Scan.
Proof. solve_decision. Defined.

(** ** Errors and results *)

Inductive error :=
| ErrStat (path : string)      (* os.Stat: no such file or directory *)
| ErrOpen (path : string)      (* os.Open failed *)
| ErrRead (path : string)      (* io.Copy failed while reading *)
| ErrCreate (path : string)    (* os.Create failed *)
| ErrWrite (path : string)     (* a write to a created file failed *)
| ErrRand                      (* io.ReadFull(rand.Reader, ...) came up short *)
| ErrScrypt                    (* scrypt.Key rejected its parameters *)
| ErrGob                       (* gob could not decode its input *)
| ErrDecrypt.                  (* errors.New("could not decrypt sentinel") *)

(** What a call can end in: a value, a returned error, or a run-time panic
    (assignment to an entry of a nil map, slice bounds out of range). *)
Inductive result (A : Type) :=
| Ok (a : A)
| Err (e : error)
| Panic.
Arguments Ok {A} a.
Arguments Err {A} e.
Arguments Panic {A}.

(** Methods on [*Sentinel] read and write the receiver in place: what they
    wrote stays written when they return an error. *)
Definition M (A : Type) : Type := Sentinel -> Sentinel * result A.

Definition ret {A} (a : A) : M A := fun s => (s, Ok a).

Definition bind {A B} (c : M A) (k : A -> M B) : M B :=
  fun s => match c s with
           | (s', Ok a) => k a s'
           | (s', Err e) => (s', Err e)
           | (s', Panic) => (s', Panic)
           end.

Definition lift {A} (r : result A) : M A := fun s => (s, r).

Declare Scope sentinel_scope.
Delimit Scope sentinel_scope with sen.
Notation "'do' x <- c ; k" := (bind c (fun x => k))
  (at level 10, x name, c at level 100, k at level 200) : sentinel_scope.
Open Scope sentinel_scope.

(** [v, seen := s.KnownObjects[key]]; reading a nil map finds nothing. *)
Definition map_get (key : string) : M (checksum * bool) :=
  fun s => match KnownObjects s with
           | None => (s, Ok (""%string, false))
           | Some m => match m !! key with
                       | None => (s, Ok (""%string, false))
                       | Some v => (s, Ok (v, true))
                       end
           end.

(** [s.KnownObjects[key] = v]; writing a nil map panics. *)
Definition map_set (key : string) (v : checksum) : M unit :=
  fun s => match KnownObjects s with
           | None => (s, Panic)
           | Some m => (mkSentinel (WatchFiles s) (Some (<[key := v]> m)) (PriorScans s), Ok tt)
           end.

(** ** The file system seen by a scan *)

(** What a path resolves to: a regular file with its bytes, a regular file
    that cannot be opened, or a directory with its entries in the order
    [filepath.Walk] visits them (it sorts the names).  The file system is
    not modified while a scan runs. *)
#[warnings="-register-all"]
Inductive node :=
| RegFile (content : list byte)
| Unreadable
| Dir (entries : list (string * node)).

#[global] Instance node_eq_dec : EqDecision node.
Proof.
  refine (fix go (n1 n2 : node) {struct n1} : Decision (n1 = n2) :=
            match n1, n2 with
            | RegFile c1, RegFile c2 => cast_if (decide (c1 = c2))
            | Unreadable, Unreadable => left _
            | Dir e1, Dir e2 =>
                cast_if (@decide (e1 = e2)
                           (@list_eq_dec _ (@prod_eq_dec _ _ _ go) e1 e2))
            | _, _ => right _
            end); abstract congruence.
Defined.

(** What [os.Stat] answers for the paths handed to the package. *)
Abbreviation FS := (gmap string node) (only parsing).

(** [filepath.Join(dir, name)] for a clean [dir] and an entry name, where
    it is the two joined by a separator.  Watched directories are taken as
    [filepath.Clean] leaves them: on a directory written with a trailing
    separator, or on the root, Go's [Join] cleans the result and this one
    does not. *)
Definition Join (dir name : string) : string := dir +:+ "/" +:+ name.

(** The external functions of the digest engine. *)
Class Hasher := {
  (** [hex.EncodeToString(h.Sum(nil))] after streaming the bytes into
      [sha256.New()] *)
  sha256_hex : list byte -> string
}.

Section scanning.
Context `{Hasher}.

(** [New] creates a new sentinel using the options specified in config. *)
Definition New (config : Config) : Sentinel :=
  mkSentinel (cfgWatchFiles config) (Some ∅) [].

(** [checksumFile] returns the sha256 checksum of the file at the provided
    path; [n] is what lies at [path]. *)
Definition checksumFile (path : string) (n : node) : result checksum :=
  match n with
  | RegFile content => Ok (sha256_hex content)
  | Unreadable => Err (ErrOpen path)
  | Dir _ => Err (ErrRead path)
  end.

(** The part of [process] after the directory test: digest the file,
    compare with the known digest, remember the new one. *)
Definition process_file (filename : string) (n : node) : M (list Event) :=
  do checksum <- lift (checksumFile filename n) ;
  do known <- map_get filename ;
  let evs :=
    if negb (snd known) then [mkEvent evCreate "" checksum filename]
    else if bool_decide (fst known ≠ checksum)
         then [mkEvent evModify (fst known) checksum filename]
         else [] in
  do _ <- map_set filename checksum ;
  ret evs.

(** What [filepath.Walk] does with the entries of a directory, the closure
    passed by [process] calling [proc] (that is [s.process]) on every path:
    on each entry first the closure runs, then Walk descends into the entry
    when it is a directory, and the closure runs on every path below it,
    which is what [proc] on that directory does itself; then Walk goes on
    with the next entry.  The first error stops the walk, and the events
    gathered so far are dropped. *)
Definition walk_entries (proc : string -> node -> M (list Event)) (dir : string)
  : list (string * node) -> M (list Event) :=
  fix go entries :=
    match entries with
    | [] => ret []
    | (name, child) :: rest =>
        do subevs <- proc (Join dir name) child ;
        do below <- match child with
                    | Dir _ => proc (Join dir name) child
                    | _ => ret []
                    end ;
        do more <- go rest ;
        ret (subevs ++ below ++ more)
    end.

(** [process] on the node [n] that [os.Stat(filename)] reported: a
    directory is walked, anything else is digested. *)
Fixpoint process_node (filename : string) (n : node) {struct n} : M (list Event) :=
  match n with
  | Dir entries => walk_entries process_node filename entries
  | _ => process_file filename n
  end.

(** [process] returns the events produced by scanning the supplied filename. *)
Definition process (fs : FS) (filename : string) : M (list Event) :=
  match fs !! filename with
  | None => lift (Err (ErrStat filename))
  | Some n => process_node filename n
  end.

(** The loop of [Scan] over [s.WatchFiles], [evs] being the events so far. *)
Fixpoint scan_loop (fs : FS) (wfs : list string) (evs : list Event) : M (list Event) :=
  match wfs with
  | [] => ret evs
  | wf :: rest =>
      do ev <- process fs wf ;
      scan_loop fs rest (evs ++ ev)
  end.

(** [s.PriorScans = append(s.PriorScans, sc)] *)
Definition append_scan (sc : Scan) : M unit :=
  fun s => (mkSentinel (WatchFiles s) (KnownObjects s) (PriorScans s ++ [sc]), Ok tt).

(** [Scan] checks the files watched by the sentinel and returns relevant
    integrity events; [now] is what [time.Now()] returns. *)
Definition Sentinel_Scan (fs : FS) (now : Z) : M (list Event) :=
  fun s =>
    (do evs <- scan_loop fs (WatchFiles s) [] ;
     do _ <- append_scan (mkScan now evs) ;
     ret evs) s.

End scanning.

(** ** The visits of a scan

    A scan comes down to a sequence of visits: regular files that get
    digested, in the order the walk reaches them, and watched paths that
    [os.Stat] does not find.  A file below a nested directory is reached
    more than once, since [process] walks a directory that Walk then
    descends into again. *)

Section visits.
Context `{Hasher}.

(** The files [process] digests on the node at [path], in order. *)
Fixpoint visits (path : string) (n : node) {struct n} : list (string * node) :=
  match n with
  | Dir entries =>
      (fix go entries :=
         match entries with
         | [] => []
         | (name, child) :: rest =>
             visits (Join path name) child
             ++ match child with
                | Dir _ => visits (Join path name) child
                | _ => []
                end
             ++ go rest
         end) entries
  | _ => [(path, n)]
  end.

(** The regular files below the node at [path], each once, in walk order. *)
Fixpoint files (path : string) (n : node) {struct n} : list (string * node) :=
  match n with
  | Dir entries =>
      (fix go entries :=
         match entries with
         | [] => []
         | (name, child) :: rest => files (Join path name) child ++ go rest
         end) entries
  | _ => [(path, n)]
  end.

(** Every path [filepath.Walk] reports for the node at [path], in order. *)
Fixpoint walk_list (path : string) (n : node) {struct n} : list (string * node) :=
  (path, n) ::
  match n with
  | Dir entries =>
      (fix go entries :=
         match entries with
         | [] => []
         | (name, child) :: rest => walk_list (Join path name) child ++ go rest
         end) entries
  | _ => []
  end.

(** One visit: [None] is a watched path that [os.Stat] does not find. *)
Definition visit (v : string * option node) : M (list Event) :=
  match v.2 with
  | None => lift (Err (ErrStat v.1))
  | Some n => process_file v.1 n
  end.

(** Calls made one after the other on the elements of a list, the events
    appended as in [evs = append(evs, subevs...)], the first failure ending
    the run. *)
Fixpoint run_all {A} (f : A -> M (list Event)) (l : list A) (evs : list Event)
  : M (list Event) :=
  match l with
  | [] => ret evs
  | a :: rest =>
      do ev <- f a ;
      run_all f rest (evs ++ ev)
  end.

(** The closure [process] hands to [filepath.Walk], on a path that Walk
    reports, and its calls on a list of such paths. *)
Definition closure (v : string * node) : M (list Event) := process_node v.1 v.2.

Definition found (l : list (string * node)) : list (string * option node) :=
  map (fun v => (v.1, Some v.2)) l.

(** The visits of one watched path, and of the whole watch set. *)
Definition watch_visits (fs : FS) (wf : string) : list (string * option node) :=
  match fs !! wf with
  | None => [(wf, None)]
  | Some n => found (visits wf n)
  end.

Definition scan_visits (fs : FS) (wfs : list string) : list (string * option node) :=
  flat_map (watch_visits fs) wfs.

(** A path names one file: visits of the same path find the same node. *)
Definition consistent (l : list (string * option node)) : Prop :=
  forall p n1 n2, (p, n1) ∈ l -> (p, n2) ∈ l -> n1 = n2.

Definition agree (l : list (string * option node)) : Prop :=
  Forall (fun x => Forall (fun y => x.1 = y.1 -> x.2 = y.2) l) l.

Lemma consistent_agree l : consistent l <-> agree l.
Proof.
  unfold consistent, agree. split.
  - intros Hc. apply Forall_forall. intros [p n1] H1.
    apply Forall_forall. intros [q n2] H2. simpl. intros ->. by apply (Hc q).
  - intros Ha p n1 n2 H1 H2. rewrite Forall_forall in Ha.
    specialize (Ha _ H1). rewrite Forall_forall in Ha. by apply (Ha _ H2).
Qed.

#[global] Instance consistent_dec l : Decision (consistent l).
Proof.
  refine (cast_if (decide (agree l))); by rewrite consistent_agree.
Defined.

(** The event, if any, that a file with digest [sum] at [path] gives on the
    known objects [m]. *)
Definition classify (m : gmap string string) (path : string) (sum : string) : list Event :=
  match m !! path with
  | None => [mkEvent evCreate "" sum path]
  | Some known =>
      if decide (known = sum) then [] else [mkEvent evModify known sum path]
  end.

(** The visit of a regular file that can be read. *)
Definition is_file (v : string * option node) : bool :=
  match v.2 with
  | Some (RegFile _) => true
  | _ => false
  end.

(** The error a visit ends in, if any. *)
Definition visit_error (v : string * option node) : option error :=
  match v.2 with
  | None => Some (ErrStat v.1)
  | Some Unreadable => Some (ErrOpen v.1)
  | Some (Dir _) => Some (ErrRead v.1)
  | Some (RegFile _) => None
  end.

(** The known objects after the digests of the visited files are stored,
    one after the other. *)
Definition store_visits (l : list (string * option node)) (m : gmap string string)
  : gmap string string :=
  foldl (fun acc v => match v.2 with
                      | Some (RegFile content) => <[v.1 := sha256_hex content]> acc
                      | _ => acc
                      end) m l.

End visits.

(** The visits one after the other, and the calls of the closure. *)
Abbreviation run_visits := (run_all visit).
Abbreviation run_closure := (run_all closure).

(** ** encoding/gob: the value encoding

    [Save] and [Open] hand the state to [gob.NewEncoder(..).Encode] and
    [gob.NewDecoder(..).Decode].  The model keeps gob's rules for values: an
    unsigned integer below 128 is one byte, a larger one is the negated byte
    count followed by the big-endian bytes; a signed integer is folded into
    an unsigned one with the sign in bit 0; strings and byte slices are a
    length and the bytes; slices, arrays and maps are a count and the
    elements; a struct is a sequence of (field-number delta, value) closed by
    a zero delta, in which a field holding the zero value of its type is left
    out, except that arrays are always sent and that a map is left out only
    when it is nil.  The type descriptors and the message framing that gob
    sends around a value carry nothing of the state and are left out; a
    [time.Time] travels as the signed integer of its instant. *)

Definition parser (A : Type) : Type := list byte -> option (A * list byte).

Definition byte_of_N (n : N) : byte :=
  match Byte.of_N (n mod 256)%N with
  | Some b => b
  | None => Byte.x00
  end.

(** The [k] low bytes of [n], most significant first. *)
Fixpoint be_bytes (k : nat) (n : N) : list byte :=
  match k with
  | O => []
  | S k' => be_bytes k' (n / 256)%N ++ [byte_of_N n]
  end.

Definition from_be (bs : list byte) : N :=
  foldl (fun acc b => (acc * 256 + Byte.to_N b)%N) 0%N bs.

(** How many bytes a 64-bit value needs. *)
Fixpoint byte_count (fuel : nat) (n : N) : nat :=
  match fuel with
  | O => O
  | S fuel' => if (n =? 0)%N then O else S (byte_count fuel' (n / 256)%N)
  end.

(** [encodeUint] of [uint64(n)]. *)
Definition enc_uint (n : N) : list byte :=
  if (n <? 128)%N then [byte_of_N n]
  else let k := byte_count 8 n in
       byte_of_N (256 - N.of_nat k) :: be_bytes k n.

Definition take_bytes (k : nat) : parser (list byte) :=
  fun input => if decide (k ≤ length input)%nat
               then Some (take k input, drop k input) else None.

(** [decodeUint]: a count byte announcing more than 8 bytes is an error. *)
Definition dec_uint : parser N :=
  fun input =>
    match input with
    | [] => None
    | b :: rest =>
        if (Byte.to_N b <? 128)%N then Some (Byte.to_N b, rest)
        else let k := (256 - Byte.to_N b)%N in
             if (8 <? k)%N then None
             else match take_bytes (N.to_nat k) rest with
                  | Some (bs, rest') => Some (from_be bs, rest')
                  | None => None
                  end
    end.

(** [encodeInt]: the sign goes to bit 0, the magnitude is shifted up. *)
Definition enc_int (i : Z) : list byte :=
  enc_uint (if i <? 0 then Z.to_N (2 * (- i - 1) + 1) else Z.to_N (2 * i)).

Definition dec_int : parser Z :=
  fun input =>
    match dec_uint input with
    | Some (u, rest) =>
        Some (if N.odd u then - Z.of_N (u / 2) - 1 else Z.of_N (u / 2), rest)
    | None => None
    end.

Definition enc_bytes (bs : list byte) : list byte :=
  enc_uint (N.of_nat (length bs)) ++ bs.

Definition dec_bytes : parser (list byte) :=
  fun input =>
    match dec_uint input with
    | Some (n, rest) => take_bytes (N.to_nat n) rest
    | None => None
    end.

Definition enc_string (s : string) : list byte :=
  enc_bytes (String.list_byte_of_string s).

Definition dec_string : parser string :=
  fun input =>
    match dec_bytes input with
    | Some (bs, rest) => Some (String.string_of_list_byte bs, rest)
    | None => None
    end.

(** [k] elements one after the other. *)
Fixpoint dec_elems {A} (d : parser A) (k : nat) : parser (list A) :=
  fun input =>
    match k with
    | O => Some ([], input)
    | S k' =>
        match d input with
        | Some (a, rest) =>
            match dec_elems d k' rest with
            | Some (l, rest') => Some (a :: l, rest')
            | None => None
            end
        | None => None
        end
    end.

(** Slices: the count, then the elements. *)
Definition enc_slice {A} (e : A -> list byte) (l : list A) : list byte :=
  enc_uint (N.of_nat (length l)) ++ concat (map e l).

Definition dec_slice {A} (d : parser A) : parser (list A) :=
  fun input =>
    match dec_uint input with
    | Some (n, rest) => dec_elems d (N.to_nat n) rest
    | None => None
    end.

(** A [[24]byte] array: the count, then every byte as an unsigned integer.
    The decoder insists on the count of the array type and on bytes. *)
Definition enc_array (bs : list byte) : list byte :=
  enc_slice (fun b => enc_uint (Byte.to_N b)) bs.

Definition dec_uint8 : parser byte :=
  fun input =>
    match dec_uint input with
    | Some (n, rest) => if (n <? 256)%N then Some (byte_of_N n, rest) else None
    | None => None
    end.

Definition dec_array (len : nat) : parser (list byte) :=
  fun input =>
    match dec_uint input with
    | Some (n, rest) =>
        if decide (N.to_nat n = len) then dec_elems dec_uint8 len rest else None
    | None => None
    end.

(** A map entry: key, then value. *)
Definition enc_entry (kv : string * string) : list byte :=
  enc_string kv.1 ++ enc_string kv.2.

Definition dec_entry : parser (string * string) :=
  fun input =>
    match dec_string input with
    | Some (k, rest) =>
        match dec_string rest with
        | Some (v, rest') => Some ((k, v), rest')
        | None => None
        end
    | None => None
    end.

(** The decoder stores the entries in the order they arrive. *)
Definition map_of_entries (l : list (string * string)) : gmap string string :=
  foldl (fun acc kv => <[kv.1 := kv.2]> acc) ∅ l.

(** A field of a struct being encoded: nothing when it is left out, else the
    delta from the last field sent, and the value.  The second component is
    the number of the last field sent. *)
Definition enc_field (fieldnum : Z) (i : Z) (omit : bool) (payload : list byte)
  : list byte * Z :=
  if omit then ([], fieldnum)
  else (enc_uint (Z.to_N (i - fieldnum)) ++ payload, i).

(** [decodeStruct]: read a delta; zero ends the struct; otherwise decode the
    field it leads to into the value built so far.  Deltas are positive, so
    the field number grows and [fuel] above the number of fields is never
    used up. *)
Fixpoint dec_struct {A} (nfields : Z) (field : Z -> A -> parser A)
    (fuel : nat) (fieldnum : Z) (acc : A) : parser A :=
  fun input =>
    match fuel with
    | O => None
    | S fuel' =>
        match dec_uint input with
        | None => None
        | Some (delta, rest) =>
            if (delta =? 0)%N then Some (acc, rest)
            else let i := fieldnum + Z.of_N delta in
                 if nfields <=? i then None
                 else match field i acc rest with
                      | Some (acc', rest') => dec_struct nfields field fuel' i acc' rest'
                      | None => None
                      end
        end
    end.

(** Whether a length fits the 64 bits of its count. *)
Definition fits (n : nat) : bool := (N.of_nat n <? 2 ^ 64)%N.

Definition is_empty_string (s : string) : bool :=
  match s with EmptyString => true | _ => false end.

Definition is_nil {A} (l : list A) : bool :=
  match l with [] => true | _ => false end.

(** *** Event *)

Definition enc_Event (e : Event) : list byte :=
  let f0 := enc_field (-1) 0 (is_empty_string (Evtype e)) (enc_string (Evtype e)) in
  let f1 := enc_field f0.2 1 (is_empty_string (OrigChecksum e)) (enc_string (OrigChecksum e)) in
  let f2 := enc_field f1.2 2 (is_empty_string (NewChecksum e)) (enc_string (NewChecksum e)) in
  let f3 := enc_field f2.2 3 (is_empty_string (File e)) (enc_string (File e)) in
  f0.1 ++ f1.1 ++ f2.1 ++ f3.1 ++ enc_uint 0.

Definition Event_field (i : Z) (e : Event) : parser Event :=
  fun input =>
    match dec_string input with
    | None => None
    | Some (v, rest) =>
        Some (if i =? 0 then mkEvent v (OrigChecksum e) (NewChecksum e) (File e)
              else if i =? 1 then mkEvent (Evtype e) v (NewChecksum e) (File e)
              else if i =? 2 then mkEvent (Evtype e) (OrigChecksum e) v (File e)
              else mkEvent (Evtype e) (OrigChecksum e) (NewChecksum e) v, rest)
    end.

Definition dec_Event : parser Event :=
  dec_struct 4 Event_field 5 (-1) (mkEvent "" "" "" "").

(** *** Scan *)

Definition enc_Scan (sc : Scan) : list byte :=
  let f0 := enc_field (-1) 0 (Timestamp sc =? 0) (enc_int (Timestamp sc)) in
  let f1 := enc_field f0.2 1 (is_nil (Events sc)) (enc_slice enc_Event (Events sc)) in
  f0.1 ++ f1.1 ++ enc_uint 0.

Definition Scan_field (i : Z) (sc : Scan) : parser Scan :=
  fun input =>
    if i =? 0 then
      match dec_int input with
      | Some (t, rest) => Some (mkScan t (Events sc), rest)
      | None => None
      end
    else
      match dec_slice dec_Event input with
      | Some (evs, rest) => Some (mkScan (Timestamp sc) evs, rest)
      | None => None
      end.

Definition dec_Scan : parser Scan :=
  dec_struct 2 Scan_field 3 (-1) (mkScan 0 []).

(** *** Sentinel *)

(** The order in which Go ranges over a map is left to the runtime. *)
Class MapOrder := {
  mapiter : gmap string string -> list (string * string);
  mapiter_perm : forall m, mapiter m ≡ₚ map_to_list m
}.

Definition enc_map `{MapOrder} (m : gmap string string) : list byte :=
  enc_slice enc_entry (mapiter m).

Definition dec_map : parser (gmap string string) :=
  fun input =>
    match dec_slice dec_entry input with
    | Some (l, rest) => Some (map_of_entries l, rest)
    | None => None
    end.

Definition enc_Sentinel `{MapOrder} (s : Sentinel) : list byte :=
  let f0 := enc_field (-1) 0 (is_nil (WatchFiles s)) (enc_slice enc_string (WatchFiles s)) in
  let f1 := match KnownObjects s with
            | None => enc_field f0.2 1 true []
            | Some m => enc_field f0.2 1 false (enc_map m)
            end in
  let f2 := enc_field f1.2 2 (is_nil (PriorScans s)) (enc_slice enc_Scan (PriorScans s)) in
  f0.1 ++ f1.1 ++ f2.1 ++ enc_uint 0.

Definition Sentinel_field (i : Z) (s : Sentinel) : parser Sentinel :=
  fun input =>
    if i =? 0 then
      match dec_slice dec_string input with
      | Some (wfs, rest) => Some (mkSentinel wfs (KnownObjects s) (PriorScans s), rest)
      | None => None
      end
    else if i =? 1 then
      match dec_map input with
      | Some (m, rest) => Some (mkSentinel (WatchFiles s) (Some m) (PriorScans s), rest)
      | None => None
      end
    else
      match dec_slice dec_Scan input with
      | Some (scs, rest) => Some (mkSentinel (WatchFiles s) (KnownObjects s) scs, rest)
      | None => None
      end.

(** [var s Sentinel] *)
Definition zero_Sentinel : Sentinel := mkSentinel [] None [].

(** [Decode(&s)] on a fresh [s]: one value is read, and what follows it in
    the input is not looked at. *)
Definition gob_decode_Sentinel (input : list byte) : result Sentinel :=
  match dec_struct 3 Sentinel_field 4 (-1) zero_Sentinel input with
  | Some (s, _) => Ok s
  | None => Err ErrGob
  end.

(** *** SentinelFile *)

Definition enc_SentinelFile (sf : SentinelFile) : list byte :=
  let f0 := enc_field (-1) 0 (is_nil (Data sf)) (enc_bytes (Data sf)) in
  let f1 := enc_field f0.2 1 false (enc_array (Nonce sf)) in
  let f2 := enc_field f1.2 2 false (enc_array (Salt sf)) in
  f0.1 ++ f1.1 ++ f2.1 ++ enc_uint 0.

Definition SentinelFile_field (i : Z) (sf : SentinelFile) : parser SentinelFile :=
  fun input =>
    if i =? 0 then
      match dec_bytes input with
      | Some (d, rest) => Some (mkSentinelFile d (Nonce sf) (Salt sf), rest)
      | None => None
      end
    else if i =? 1 then
      match dec_array 24 input with
      | Some (n, rest) => Some (mkSentinelFile (Data sf) n (Salt sf), rest)
      | None => None
      end
    else
      match dec_array 24 input with
      | Some (n, rest) => Some (mkSentinelFile (Data sf) (Nonce sf) n, rest)
      | None => None
      end.

(** [var in SentinelFile]: the arrays of a zero value hold 24 zero bytes. *)
Definition zero_SentinelFile : SentinelFile :=
  mkSentinelFile [] (replicate 24 Byte.x00) (replicate 24 Byte.x00).

Definition gob_decode_SentinelFile (input : list byte) : result SentinelFile :=
  match dec_struct 3 SentinelFile_field 4 (-1) zero_SentinelFile input with
  | Some (sf, _) => Ok sf
  | None => Err ErrGob
  end.

(** *** What the encoding can carry

    Counts and lengths travel as 64-bit integers, the size of a Go [int];
    the values below are those whose lengths and timestamps have that
    size, which all values of a running Go program have. *)

Definition string_fits (s : string) : bool := fits (String.length s).

Definition int64 (i : Z) : bool := (- 2 ^ 63 <=? i) && (i <? 2 ^ 63).

Definition Event_fits (e : Event) : bool :=
  string_fits (Evtype e) && string_fits (OrigChecksum e)
  && string_fits (NewChecksum e) && string_fits (File e).

Definition Scan_fits (sc : Scan) : bool :=
  int64 (Timestamp sc) && fits (length (Events sc)) && forallb Event_fits (Events sc).

Definition map_fits (m : gmap string string) : bool :=
  fits (size m)
  && bool_decide (map_Forall (fun k v => string_fits k = true /\ string_fits v = true) m).

Definition Sentinel_fits (s : Sentinel) : bool :=
  fits (length (WatchFiles s)) && forallb string_fits (WatchFiles s)
  && match KnownObjects s with
     | None => true
     | Some m => map_fits m
     end
  && fits (length (PriorScans s)) && forallb Scan_fits (PriorScans s).

(** ** Sealing the state: [Save] and [Open] *)

(** scrypt and NaCl secretbox, with what the package relies on: opening a
    box with the 24-byte nonce and the 32-byte key it was sealed with gives
    the message back, and a box is [secretbox.Overhead], 16 bytes, longer
    than its message.  [secretbox_seal] is the box alone (authenticator and
    ciphertext); the [out] prefix of the Go functions is added in
    [secretbox_Seal] and [secretbox_Open]. *)
Class Crypto := {
  (** [scrypt.Key(password, salt, N, r, p, keyLen)] *)
  scrypt_Key : list byte -> list byte -> Z -> Z -> Z -> Z -> result (list byte);
  secretbox_seal : list byte -> list byte -> list byte -> list byte;
  secretbox_open : list byte -> list byte -> list byte -> option (list byte);
  secretbox_open_seal : forall message nonce key,
    length nonce = 24%nat -> length key = 32%nat ->
    secretbox_open (secretbox_seal message nonce key) nonce key = Some message;
  secretbox_seal_length : forall message nonce key,
    length nonce = 24%nat -> length key = 32%nat ->
    length (secretbox_seal message nonce key) = (length message + 16)%nat
}.

(** What [Save] and [Open] touch outside the sentinel: the files of the
    disk, the paths [os.Create] refuses, the bytes [rand.Reader] will
    deliver, and the paths on which a write stops with an error after so
    many bytes. *)
Record World := mkWorld {
  disk : gmap string (list byte);
  refused : gset string;
  entropy : list byte;
  short_write : gmap string nat
}.

Section persistence.
Context `{MapOrder} `{Crypto}.

(** [secretbox.Seal(out, message, nonce, key)] appends the box to [out]. *)
Definition secretbox_Seal (out message nonce key : list byte) : list byte :=
  out ++ secretbox_seal message nonce key.

(** [secretbox.Open(out, box, nonce, key)] appends the message to [out]. *)
Definition secretbox_Open (out box nonce key : list byte) : option (list byte) :=
  match secretbox_open box nonce key with
  | Some message => Some (out ++ message)
  | None => None
  end.

(** [var secret [32]byte; copy(secret[:], key)] *)
Definition copy_secret (key : list byte) : list byte :=
  take 32 key ++ replicate (32 - length key) Byte.x00.

(** [io.ReadFull(rand.Reader, buf[:])] for a 24-byte [buf]. *)
Definition read_random (w : World) : World * result (list byte) :=
  if decide (24 ≤ length (entropy w))%nat
  then (mkWorld (disk w) (refused w) (drop 24 (entropy w)) (short_write w),
        Ok (take 24 (entropy w)))
  else (mkWorld (disk w) (refused w) [] (short_write w), Err ErrRand).

(** The middle of [Save]: derive the key from the password and the salt,
    encode the sentinel, seal it, and build the container.  The box is
    appended to a copy of the nonce, so [Data] starts with the nonce. *)
Definition seal_container (s : Sentinel) (password : string) (nonce salt : list byte)
  : result SentinelFile :=
  match scrypt_Key (String.list_byte_of_string password) salt
          scryptN scryptR scryptP keyLen with
  | Ok key =>
      let secret := copy_secret key in
      let encoded := enc_Sentinel s in
      let data := secretbox_Seal nonce encoded nonce secret in
      Ok (mkSentinelFile data nonce salt)
  | Err e => Err e
  | Panic => Panic
  end.

(** [Save] writes the sentinel to [path], encrypting it using [password].
    [os.Create] empties the file; the encoder then writes the container,
    and when that write fails the file keeps the bytes written so far and
    the error is returned. *)
Definition Save (s : Sentinel) (path password : string) (w : World) : World * result unit :=
  match read_random w with
  | (w1, Ok nonce) =>
      match read_random w1 with
      | (w2, Ok salt) =>
          match seal_container s password nonce salt with
          | Ok out =>
              if decide (path ∈ refused w2) then (w2, Err (ErrCreate path))
              else
                match short_write w2 !! path with
                | Some written =>
                    (mkWorld (<[path := take written (enc_SentinelFile out)]> (disk w2))
                             (refused w2) (entropy w2) (short_write w2),
                     Err (ErrWrite path))
                | None =>
                    (mkWorld (<[path := enc_SentinelFile out]> (disk w2))
                             (refused w2) (entropy w2) (short_write w2), Ok tt)
                end
          | Err e => (w2, Err e)
          | Panic => (w2, Panic)
          end
      | (w2, Err e) => (w2, Err e)
      | (w2, Panic) => (w2, Panic)
      end
  | (w1, Err e) => (w1, Err e)
  | (w1, Panic) => (w1, Panic)
  end.

(** The end of [Open], once the container has been decoded from the file:
    derive the key from the password and the stored salt, open the box that
    follows the first [len(in.Nonce)] bytes of [Data], decode the sentinel.
    The slice expression [in.Data[len(in.Nonce):]] panics on a [Data]
    shorter than the nonce. *)
Definition open_container (sf : SentinelFile) (password : string) : result Sentinel :=
  match scrypt_Key (String.list_byte_of_string password) (Salt sf)
          scryptN scryptR scryptP keyLen with
  | Ok key =>
      let secret := copy_secret key in
      if decide (length (Nonce sf) ≤ length (Data sf))%nat then
        match secretbox_Open [] (drop (length (Nonce sf)) (Data sf))
                (Nonce sf) secret with
        | Some decryptedData => gob_decode_Sentinel decryptedData
        | None => Err ErrDecrypt
        end
      else Panic
  | Err e => Err e
  | Panic => Panic
  end.

(** [Open] loads a sentinel from disk using [path] and [password]. *)
Definition Open (path password : string) (w : World) : result Sentinel :=
  match disk w !! path with
  | None => Err (ErrOpen path)
  | Some content =>
      match gob_decode_SentinelFile content with
      | Ok sf => open_container sf password
      | Err e => Err e
      | Panic => Panic
      end
  end.

(** The container with one byte of [Data] replaced. *)
Definition with_Data_byte (i : nat) (b : byte) (sf : SentinelFile) : SentinelFile :=
  mkSentinelFile (<[i := b]> (Data sf)) (Nonce sf) (Salt sf).

(** The size of [Data]: the encoded sentinel, and 24 bytes of nonce and 16
    of authenticator. *)
Definition sealed_size (s : Sentinel) : nat := (length (enc_Sentinel s) + 40)%nat.

End persistence.

(** What the authenticator of secretbox and the key derivation promise
    beyond the contract above.  The libraries give it up to a negligible
    chance; it is taken here as exact: a box in which one byte is changed
    does not open; a box does not open under a nonce in which one byte is
    changed; and a box sealed with a key that scrypt derived does not open
    with another key that scrypt derives. *)
Class Authentic `{Crypto} := {
  changed_box_rejected : forall message nonce key i b,
    length nonce = 24%nat -> length key = 32%nat ->
    (i < length (secretbox_seal message nonce key))%nat ->
    secretbox_seal message nonce key !! i ≠ Some b ->
    secretbox_open (<[i := b]> (secretbox_seal message nonce key)) nonce key = None;
  changed_nonce_rejected : forall message nonce key i b,
    length nonce = 24%nat -> length key = 32%nat ->
    (i < 24)%nat -> nonce !! i ≠ Some b ->
    secretbox_open (secretbox_seal message nonce key) (<[i := b]> nonce) key = None;
  other_key_rejected : forall message nonce password salt password' salt' key key',
    length nonce = 24%nat ->
    scrypt_Key password salt scryptN scryptR scryptP keyLen = Ok key ->
    scrypt_Key password' salt' scryptN scryptR scryptP keyLen = Ok key' ->
    copy_secret key' ≠ copy_secret key ->
    secretbox_open (secretbox_seal message nonce (copy_secret key)) nonce
                   (copy_secret key') = None
}.

(** The file at [path] holds the container [sf]. *)
Definition stored (w : World) (path : string) (sf : SentinelFile) : Prop :=
  exists content, disk w !! path = Some content /\
                  gob_decode_SentinelFile content = Ok sf.

(** The container with one byte of the nonce, or of the salt, replaced. *)
Definition with_Nonce_byte (i : nat) (b : byte) (sf : SentinelFile) : SentinelFile :=
  mkSentinelFile (Data sf) (<[i := b]> (Nonce sf)) (Salt sf).

Definition with_Salt_byte (i : nat) (b : byte) (sf : SentinelFile) : SentinelFile :=
  mkSentinelFile (Data sf) (Nonce sf) (<[i := b]> (Salt sf)).

(** ** The scan command of the program *)

Section command.
Context `{Hasher} `{MapOrder} `{Crypto}.

(** [scanCmd] of main.go, without its printing: open the database, scan,
    save the database again; any error is returned at once. *)
Definition scanCmd (dbPath pass : string) (fs : FS) (now : Z) (w : World)
  : World * result unit :=
  match Open dbPath pass w with
  | Ok s =>
      match Sentinel_Scan fs now s with
      | (s', Ok evs) => Save s' dbPath pass w
      | (s', Err e) => (w, Err e)
      | (s', Panic) => (w, Panic)
      end
  | Err e => (w, Err e)
  | Panic => (w, Panic)
  end.

End command.

(** ** Sequences of scans *)

Section history.
Context `{Hasher}.

(** A caller scanning again and again, on the file system and at the time
    of each scan; an error is returned and the caller goes on, a panic ends
    the program. *)
Fixpoint run_scans (l : list (gmap string node * Z)) (s : Sentinel)
  : Sentinel * list (result (list Event)) :=
  match l with
  | [] => (s, [])
  | (fs, now) :: rest =>
      match Sentinel_Scan fs now s with
      | (s1, Panic) => (s1, [Panic])
      | (s1, r) => let (s2, rs) := run_scans rest s1 in (s2, r :: rs)
      end
  end.

(** The records of the scans that succeeded. *)
Fixpoint records (l : list (gmap string node * Z)) (rs : list (result (list Event)))
  : list Scan :=
  match l, rs with
  | (_, now) :: l', Ok evs :: rs' => mkScan now evs :: records l' rs'
  | _ :: l', _ :: rs' => records l' rs'
  | _, _ => []
  end.

Definition succeeded {A} (r : result A) : bool :=
  match r with Ok _ => true | _ => false end.

(** The entry of the known objects at [path], if any. *)
Definition known_at (s : Sentinel) (path : string) : option string :=
  match KnownObjects s with
  | Some m => m !! path
  | None => None
  end.

(** The paths of the regular files that a scan of [wfs] on [fs] opens. *)
Definition scanned_paths (fs : gmap string node) (wfs : list string) : list string :=
  omap (fun v => match v.2 with
                 | Some (RegFile _) => Some v.1
                 | _ => None
                 end) (scan_visits fs wfs).

(** [path] is a regular file that a scan of [wfs] on [fs] opens. *)
Definition scanned (fs : gmap string node) (wfs : list string) (path : string) : Prop :=
  path ∈ scanned_paths fs wfs.

#[global] Instance scanned_dec fs wfs path : Decision (scanned fs wfs path).
Proof. unfold scanned. apply _. Defined.

End history.

(** ** Directory trees *)

Section trees.
Context `{Hasher}.

(** Every regular file below the node can be opened and read. *)
Fixpoint all_readable (n : node) : bool :=
  match n with
  | RegFile _ => true
  | Unreadable => false
  | Dir entries =>
      (fix go entries :=
         match entries with
         | [] => true
         | (_, child) :: rest => all_readable child && go rest
         end) entries
  end.

(** An entry name holds no path separator. *)
Fixpoint slash_free (name : string) : bool :=
  match name with
  | EmptyString => true
  | String a rest => negb (Ascii.eqb a "/"%char) && slash_free rest
  end.

(** The names of a directory are entry names and differ from each other,
    at every level. *)
Fixpoint well_named (n : node) : bool :=
  match n with
  | Dir entries =>
      bool_decide (NoDup entries.*1)
      && (fix go entries :=
            match entries with
            | [] => true
            | (name, child) :: rest => slash_free name && well_named child && go rest
            end) entries
  | _ => true
  end.

Definition node_digest (n : node) : string :=
  match n with
  | RegFile content => sha256_hex content
  | _ => ""
  end.

(** The creation event of a file found at a path. *)
Definition created (v : string * node) : Event :=
  mkEvent evCreate "" (node_digest v.2) v.1.

(** The known objects once the digests of [l] are stored. *)
Definition store (l : list (string * node)) (m : gmap string string) : gmap string string :=
  foldl (fun acc v => <[v.1 := node_digest v.2]> acc) m l.

End trees.

(** ** The earlier [Scan] and the init command *)

(** How a command ends: it returns, or it ends the process with
    [os.Exit(code)]. *)
Inductive ending (A : Type) :=
| Returned (a : A)
| Exited (code : Z).
Arguments Returned {A} a.
Arguments Exited {A} code.

Section more_code.
Context `{Hasher} `{MapOrder} `{Crypto}.

(** The body of the loop of the earlier [Scan], which calls [checksumFile]
    on the watched path itself: [os.Open] fails on a path that is not
    there, and reading a directory fails. *)
Definition scan_file_v1 (fs : FS) (wf : string) : M (list Event) :=
  match fs !! wf with
  | None => lift (Err (ErrOpen wf))
  | Some n => process_file wf n
  end.

Fixpoint scan_loop_v1 (fs : FS) (wfs : list string) (evs : list Event) : M (list Event) :=
  match wfs with
  | [] => ret evs
  | wf :: rest =>
      do ev <- scan_file_v1 fs wf ;
      scan_loop_v1 fs rest (evs ++ ev)
  end.

(** [Scan] as it was before directories were walked (the second listing of
    the source file). *)
Definition Sentinel_Scan_v1 (fs : FS) (now : Z) : M (list Event) :=
  fun s =>
    (do evs <- scan_loop_v1 fs (WatchFiles s) [] ;
     do _ <- append_scan (mkScan now evs) ;
     ret evs) s.

(** [os.Open(wf)] succeeds on files and directories that are there. *)
Definition can_open (fs : FS) (wf : string) : bool :=
  match fs !! wf with
  | Some (RegFile _) | Some (Dir _) => true
  | _ => false
  end.

(** [initCmd] of the command, without its printing.  [config] is what
    opening and decoding the configuration file gives, [pass] and [pass2]
    what the two calls of [gopass.GetPasswd] give.  When the two passwords
    differ the function returns [err], which is nil at that point. *)
Definition initCmd (config : result Config) (fs : FS) (pass pass2 : result string)
    (dbPath : string) (w : World) : World * ending (result unit) :=
  match config with
  | Ok config =>
      if forallb (can_open fs) (cfgWatchFiles config) then
        let s := New config in
        match pass with
        | Ok pass =>
            match pass2 with
            | Ok pass2 =>
                if bool_decide (pass ≠ pass2) then (w, Returned (Ok tt))
                else let (w', r) := Save s dbPath pass w in (w', Returned r)
            | Err e => (w, Returned (Err e))
            | Panic => (w, Returned Panic)
            end
        | Err e => (w, Returned (Err e))
        | Panic => (w, Returned Panic)
        end
      else (w, Exited (-1))
  | Err e => (w, Returned (Err e))
  | Panic => (w, Returned Panic)
  end.

End more_code.

(** ** Measures of a scan *)

Section measures.
Context `{Hasher}.

(** The digest of the file a visit opens. *)
Definition visit_digest (v : string * option node) : string :=
  match v.2 with
  | Some (RegFile content) => sha256_hex content
  | _ => ""
  end.

(** The visits without the later visits of a path already visited. *)
Fixpoint firsts (l : list (string * option node)) : list (string * option node) :=
  match l with
  | [] => []
  | v :: rest => v :: filter (fun u => u.1 ≠ v.1) (firsts rest)
  end.

(** The events of the visits [l] on the known objects [m]: every path is
    classified once, at its first visit, against [m]. *)
Definition scan_events (m : gmap string string) (l : list (string * option node))
  : list Event :=
  flat_map (fun v => classify m v.1 (visit_digest v)) (firsts l).

(** Every watched path is a regular file that can be read. *)
Definition plain_files (fs : FS) (wfs : list string) : bool :=
  forallb (fun wf => match fs !! wf with
                     | Some (RegFile _) => true
                     | _ => false
                     end) wfs.

(** Every watched path is there and is not a directory. *)
Definition no_directory (fs : FS) (wfs : list string) : bool :=
  forallb (fun wf => match fs !! wf with
                     | Some (RegFile _) | Some Unreadable => true
                     | _ => false
                     end) wfs.

(** The digest of the regular file at a watched path. *)
Definition file_digest (fs : FS) (wf : string) : string :=
  match fs !! wf with
  | Some (RegFile content) => sha256_hex content
  | _ => ""
  end.

(** How deep each file of a tree lies: 0 for the node itself, 1 for the
    entries of a directory, and so on. *)
Fixpoint file_depths (n : node) : list nat :=
  match n with
  | Dir entries =>
      (fix go entries :=
         match entries with
         | [] => []
         | (_, child) :: rest => map S (file_depths child) ++ go rest
         end) entries
  | _ => [0%nat]
  end.

(** How often a file at depth [d] below a watched path is digested, and
    how many digests the scan of a tree takes. *)
Definition digests_at (d : nat) : nat := (2 ^ pred d)%nat.

Definition digest_count (n : node) : nat :=
  sum_list (map digests_at (file_depths n)).

(** The creation event of the regular file at a watched path. *)
Definition created_at (fs : FS) (wf : string) : Event :=
  mkEvent evCreate "" (file_digest fs wf) wf.

(** A visit once the file at [path] holds [content]. *)
Definition revisit (path : string) (content : list byte) (v : string * option node)
  : string * option node :=
  if decide (v.1 = path) then (path, Some (RegFile content)) else v.

(** The files of a tree, each with its depth below the node at [path]. *)
Fixpoint files_depths (path : string) (n : node) {struct n}
  : list ((string * node) * nat) :=
  match n with
  | Dir entries =>
      (fix go entries :=
         match entries with
         | [] => []
         | (name, child) :: rest =>
             map (fun vd => (vd.1, S vd.2)) (files_depths (Join path name) child)
             ++ go rest
         end) entries
  | _ => [((path, n), 0%nat)]
  end.

(** Every file as often as a file of its depth is digested. *)
Definition repeated (l : list ((string * node) * nat)) : list (string * node) :=
  flat_map (fun vd => replicate (digests_at vd.2) vd.1) l.

(** How often the scan of the node at [path] digests the file [v]. *)
Definition digests_of (v : string * node) (path : string) (n : node) : nat :=
  length (filter (fun u => u = v) (visits path n)).

(** The tree once [target] is removed from its directory, [path] being
    the path of the node. *)
Fixpoint prune (target path : string) (n : node) {struct n} : node :=
  match n with
  | Dir entries =>
      Dir ((fix go entries :=
              match entries with
              | [] => []
              | (name, child) :: rest =>
                  if decide (Join path name = target) then go rest
                  else (name, prune target (Join path name) child) :: go rest
              end) entries)
  | _ => n
  end.

End measures.

(** ** Sample implementations of the interfaces

    They let the model run on examples: a digest that spells out the bytes,
    the order of [map_to_list] for ranging over a map, and a box that
    carries key and nonce in front of the message. *)

#[local] Instance sample_hasher : Hasher :=
  {| sha256_hex := String.string_of_list_byte |}.

#[local] Instance sample_order : MapOrder :=
  {| mapiter := map_to_list; mapiter_perm := fun m => reflexivity (map_to_list m) |}.

Definition sample_tag (nonce key : list byte) : list byte :=
  take 16 (zip_with (fun k n => byte_of_N (N.lxor (Byte.to_N k) (Byte.to_N n))) key nonce).

Definition sample_seal (message nonce key : list byte) : list byte :=
  sample_tag nonce key ++ message.

Definition sample_open (box nonce key : list byte) : option (list byte) :=
  if decide (take 16 box = sample_tag nonce key) then Some (drop 16 box) else None.

Definition sample_scrypt (password salt : list byte) (N r p keyLen : Z)
  : result (list byte) :=
  Ok (take (Z.to_nat keyLen) (password ++ salt)).

Lemma sample_tag_length nonce key :
  length nonce = 24%nat -> length key = 32%nat -> length (sample_tag nonce key) = 16%nat.
Proof.
  intros Hn Hk. unfold sample_tag. rewrite length_take, length_zip_with. lia.
Qed.

Lemma sample_open_seal message nonce key :
  length nonce = 24%nat -> length key = 32%nat ->
  sample_open (sample_seal message nonce key) nonce key = Some message.
Proof.
  intros Hn Hk. unfold sample_open, sample_seal.
  pose proof (sample_tag_length nonce key Hn Hk) as Hlen.
  rewrite take_app_length', drop_app_length' by done.
  by rewrite decide_True.
Qed.

Lemma sample_seal_length message nonce key :
  length nonce = 24%nat -> length key = 32%nat ->
  length (sample_seal message nonce key) = (length message + 16)%nat.
Proof.
  intros Hn Hk. unfold sample_seal. rewrite length_app, sample_tag_length by done. lia.
Qed.

#[local] Instance sample_crypto : Crypto :=
  {| scrypt_Key := sample_scrypt;
     secretbox_seal := sample_seal;
     secretbox_open := sample_open;
     secretbox_open_seal := sample_open_seal;
     secretbox_seal_length := sample_seal_length |}.

(** A second implementation, whose authenticator is a checksum of the
    message, the nonce and the key, and whose derived keys repeat one byte:
    it meets the contract and what [Authentic] asks. *)
Definition byte_sum (l : list byte) : N :=
  foldr (fun b acc => (Byte.to_N b + acc)%N) 0%N l.

Definition checked_tag (message nonce key : list byte) : list byte :=
  replicate 16 (byte_of_N (byte_sum message + byte_sum nonce
                           + Byte.to_N (hd Byte.x00 key))).

Definition checked_seal (message nonce key : list byte) : list byte :=
  checked_tag message nonce key ++ message.

Definition checked_open (box nonce key : list byte) : option (list byte) :=
  if decide (take 16 box = checked_tag (drop 16 box) nonce key)
  then Some (drop 16 box) else None.

Definition checked_scrypt (password salt : list byte) (N r p keyLen : Z)
  : result (list byte) :=
  Ok (replicate (Z.to_nat keyLen) (byte_of_N (byte_sum password + byte_sum salt))).

Lemma checked_open_seal message nonce key :
  length nonce = 24%nat -> length key = 32%nat ->
  checked_open (checked_seal message nonce key) nonce key = Some message.
Proof.
  intros _ _. unfold checked_open, checked_seal.
  rewrite take_app_length', drop_app_length' by done.
  by rewrite decide_True.
Qed.

Lemma checked_seal_length message nonce key :
  length nonce = 24%nat -> length key = 32%nat ->
  length (checked_seal message nonce key) = (length message + 16)%nat.
Proof.
  intros _ _. unfold checked_seal, checked_tag.
  rewrite length_app, length_replicate. lia.
Qed.

Definition checked_crypto : Crypto :=
  {| scrypt_Key := checked_scrypt;
     secretbox_seal := checked_seal;
     secretbox_open := checked_open;
     secretbox_open_seal := checked_open_seal;
     secretbox_seal_length := checked_seal_length |}.

Lemma byte_of_N_mod x y : byte_of_N x = byte_of_N y -> (x mod 256 = y mod 256)%N.
Proof.
  intros Heq. apply (f_equal Byte.to_N) in Heq.
  unfold byte_of_N in Heq.
  destruct (Byte.of_N (x mod 256)) as [bx|] eqn:Hx;
    destruct (Byte.of_N (y mod 256)) as [by_|] eqn:Hy.
  - apply Byte.to_of_N in Hx, Hy. congruence.
  - pose proof (N.mod_lt y 256 ltac:(discriminate)) as Hlt.
    pose proof (Byte.to_of_N_option_map (y mod 256)) as Hmap.
    rewrite Hy in Hmap. simpl in Hmap.
    destruct (N.leb_spec (y mod 256) 255); [discriminate | lia].
  - pose proof (N.mod_lt x 256 ltac:(discriminate)) as Hlt.
    pose proof (Byte.to_of_N_option_map (x mod 256)) as Hmap.
    rewrite Hx in Hmap. simpl in Hmap.
    destruct (N.leb_spec (x mod 256) 255); [discriminate | lia].
  - pose proof (N.mod_lt x 256 ltac:(discriminate)) as Hlt.
    pose proof (Byte.to_of_N_option_map (x mod 256)) as Hmap.
    rewrite Hx in Hmap. simpl in Hmap.
    destruct (N.leb_spec (x mod 256) 255); [discriminate | lia].
Qed.

Lemma mod_256_cancel (a b c : N) :
  (a < 256 -> b < 256 -> (c + a) mod 256 = (c + b) mod 256 -> a = b)%N.
Proof.
  intros Ha Hb Heq.
  pose proof (N.div_mod (c + a) 256 ltac:(discriminate)) as H1.
  pose proof (N.div_mod (c + b) 256 ltac:(discriminate)) as H2.
  pose proof (N.mod_lt (c + a) 256 ltac:(discriminate)) as H3.
  rewrite Heq in H1. lia.
Qed.

Lemma byte_lt_256 (b : byte) : (Byte.to_N b < 256)%N.
Proof. pose proof (Byte.to_N_bounded b). lia. Qed.

Lemma byte_to_N_inj (a b : byte) : Byte.to_N a = Byte.to_N b -> a = b.
Proof.
  intros Heq. apply (f_equal Byte.of_N) in Heq.
  rewrite !Byte.of_to_N in Heq. congruence.
Qed.

Lemma byte_sum_insert l : forall i b old,
  l !! i = Some old ->
  (byte_sum (<[i := b]> l) + Byte.to_N old = byte_sum l + Byte.to_N b)%N.
Proof.
  induction l as [|x rest IH]; intros i b old Hi; [done|].
  destruct i as [|i]; simpl in *.
  - injection Hi as ->. lia.
  - specialize (IH i b old Hi). lia.
Qed.

(** Changing one byte changes the checksum. *)
Lemma checksum_changes l i b c :
  (i < length l)%nat -> l !! i ≠ Some b ->
  byte_of_N (byte_sum (<[i := b]> l) + c) ≠ byte_of_N (byte_sum l + c).
Proof.
  intros Hi Hne Heq. apply byte_of_N_mod in Heq.
  destruct (lookup_lt_is_Some_2 l i Hi) as [old Hold].
  pose proof (byte_sum_insert l i b old Hold) as Hsum.
  apply Hne. rewrite Hold. f_equal. apply byte_to_N_inj.
  apply (mod_256_cancel _ _ (byte_sum (<[i := b]> l) + c));
    [apply byte_lt_256 | apply byte_lt_256 |].
  replace (byte_sum (<[i := b]> l) + c + Byte.to_N old)%N
    with (byte_sum l + c + Byte.to_N b)%N by lia.
  rewrite <- (N.Div0.add_mod_idemp_l (byte_sum l + c)), <- Heq.
  by rewrite N.Div0.add_mod_idemp_l.
Qed.

Lemma replicate_16_inj (a b : byte) : replicate 16 a = replicate 16 b -> a = b.
Proof. simpl. by intros [= ->]. Qed.

Lemma checked_changed_box message nonce key i b :
  length nonce = 24%nat -> length key = 32%nat ->
  (i < length (checked_seal message nonce key))%nat ->
  checked_seal message nonce key !! i ≠ Some b ->
  checked_open (<[i := b]> (checked_seal message nonce key)) nonce key = None.
Proof.
  intros _ _ Hi Hne. unfold checked_open, checked_seal in *.
  assert (length (checked_tag message nonce key) = 16%nat) as Htag
    by apply length_replicate.
  rewrite length_app, Htag in Hi.
  destruct (decide (i < 16)%nat) as [Hlt|Hge].
  - rewrite insert_app_l by lia.
    rewrite take_app_length', drop_app_length' by (rewrite length_insert; lia).
    rewrite decide_False; [done|]. intros Heq. apply Hne.
    rewrite lookup_app_l by lia. rewrite <- Heq.
    apply list_lookup_insert_eq. lia.
  - rewrite insert_app_r_alt by lia. rewrite Htag.
    rewrite take_app_length', drop_app_length' by done.
    rewrite decide_False; [done|]. intros Heq.
    rewrite lookup_app_r, Htag in Hne by lia.
    unfold checked_tag in Heq. apply replicate_16_inj in Heq.
    apply (checksum_changes message (i - 16) b
             (byte_sum nonce + Byte.to_N (hd Byte.x00 key))); [lia | done |].
    rewrite !N.add_assoc. by symmetry.
Qed.

Lemma checked_changed_nonce message nonce key i b :
  length nonce = 24%nat -> length key = 32%nat ->
  (i < 24)%nat -> nonce !! i ≠ Some b ->
  checked_open (checked_seal message nonce key) (<[i := b]> nonce) key = None.
Proof.
  intros Hn _ Hi Hne. unfold checked_open, checked_seal.
  rewrite take_app_length', drop_app_length' by done.
  rewrite decide_False; [done|]. intros Heq.
  unfold checked_tag in Heq. apply replicate_16_inj in Heq.
  apply (checksum_changes nonce i b
           (byte_sum message + Byte.to_N (hd Byte.x00 key))); [lia | done |].
  replace (byte_sum (<[i := b]> nonce) + (byte_sum message + Byte.to_N (hd Byte.x00 key)))%N
    with (byte_sum message + byte_sum (<[i := b]> nonce) + Byte.to_N (hd Byte.x00 key))%N
    by lia.
  replace (byte_sum nonce + (byte_sum message + Byte.to_N (hd Byte.x00 key)))%N
    with (byte_sum message + byte_sum nonce + Byte.to_N (hd Byte.x00 key))%N by lia.
  by symmetry.
Qed.

Lemma checked_other_key message nonce password salt password' salt' key key' :
  length nonce = 24%nat ->
  checked_scrypt password salt scryptN scryptR scryptP keyLen = Ok key ->
  checked_scrypt password' salt' scryptN scryptR scryptP keyLen = Ok key' ->
  copy_secret key' ≠ copy_secret key ->
  checked_open (checked_seal message nonce (copy_secret key)) nonce (copy_secret key')
  = None.
Proof.
  intros _ [= <-] [= <-] Hkeys. unfold checked_open, checked_seal.
  rewrite take_app_length', drop_app_length' by done.
  rewrite decide_False; [done|]. intros Heq. apply Hkeys.
  unfold checked_tag in Heq. apply replicate_16_inj in Heq.
  apply byte_of_N_mod in Heq. apply mod_256_cancel in Heq;
    [| apply byte_lt_256 | apply byte_lt_256].
  apply byte_to_N_inj in Heq. simpl in Heq. simpl. by rewrite Heq.
Qed.

Definition checked_authentic : @Authentic checked_crypto :=
  @Build_Authentic checked_crypto
    checked_changed_box checked_changed_nonce checked_other_key.

(** ** Sample data *)

Definition bytes_of (s : string) : list byte := String.list_byte_of_string s.

(** A directory with a file, and a subdirectory holding a file and a
    deeper directory with one more file. *)
Definition sample_tree : node :=
  Dir [("a.txt"%string, RegFile (bytes_of "alpha"));
       ("sub"%string,
        Dir [("b.txt"%string, RegFile (bytes_of "beta"));
             ("deep"%string, Dir [("c.txt"%string, RegFile (bytes_of "gamma"))])])].

Definition sample_fs : gmap string node :=
  {[ "/w/one"%string := RegFile (bytes_of "1"); "/w/dir"%string := sample_tree ]}.

(** The same, after c.txt was deleted and a.txt was rewritten. *)
Definition sample_fs_later : gmap string node :=
  {[ "/w/one"%string := RegFile (bytes_of "1");
     "/w/dir"%string :=
       Dir [("a.txt"%string, RegFile (bytes_of "ALPHA"));
            ("sub"%string,
             Dir [("b.txt"%string, RegFile (bytes_of "beta"));
                  ("deep"%string, Dir [])])] ]}.

Definition sample_state : Sentinel :=
  New (mkConfig ["/w/dir"%string; "/w/one"%string]).

Definition sample_scanned : Sentinel := (Sentinel_Scan sample_fs 5 sample_state).1.

(** Two watched files, the second of which is missing. *)
Definition missing_fs : gmap string node :=
  {[ "/w/a"%string := RegFile (bytes_of "one") ]}.

Definition missing_state : Sentinel :=
  New (mkConfig ["/w/a"%string; "/w/b"%string]).

Definition missing_after : Sentinel :=
  mkSentinel ["/w/a"%string; "/w/b"%string] (Some {[ "/w/a"%string := "one"%string ]}) [].

(** The scans of a day: the first one, one more on the same files, one
    after the changes. *)
Definition sample_scans : list (gmap string node * Z) :=
  [(sample_fs, 5); (sample_fs, 6); (sample_fs_later, 9)].

Definition sample_world : World :=
  mkWorld ∅ ∅ (replicate 24 Byte.x01 ++ replicate 24 Byte.x02) ∅.

Definition sample_saved : World :=
  (Save sample_scanned "spid.db" "pw" sample_world).1.

Definition sample_container : SentinelFile :=
  mkSentinelFile
    (secretbox_Seal (replicate 24 Byte.x01) (enc_Sentinel sample_scanned)
       (replicate 24 Byte.x01)
       (copy_secret (take 32 (bytes_of "pw" ++ replicate 24 Byte.x02))))
    (replicate 24 Byte.x01) (replicate 24 Byte.x02).

Definition missing_saved : World :=
  (Save missing_state "spid.db" "pw" sample_world).1.

Definition fresh_saved : World :=
  (Save sample_state "spid.db" "pw" sample_world).1.

(** The saved file with one byte changed from 1 to 255: byte 4 of the file,
    which is the first byte of [Data]. *)
Definition sample_tampered : World :=
  mkWorld ((fun content => <[4%nat := Byte.xff]> content) <$> disk sample_saved) ∅ [] ∅.

(** Two watched regular files, and the second one rewritten. *)
Definition plain_fs : gmap string node :=
  {[ "/w/a"%string := RegFile (bytes_of "one"); "/w/b"%string := RegFile (bytes_of "two") ]}.

Definition plain_config : Config := mkConfig ["/w/a"%string; "/w/b"%string].

Definition plain_scanned : Sentinel := (Sentinel_Scan plain_fs 5 (New plain_config)).1.

(** The entries of the sample directory. *)
Definition sample_entries : list (string * node) :=
  [("a.txt"%string, RegFile (bytes_of "alpha"));
   ("sub"%string,
    Dir [("b.txt"%string, RegFile (bytes_of "beta"));
         ("deep"%string, Dir [("c.txt"%string, RegFile (bytes_of "gamma"))])])].

(** A sentinel that [New] did not make: its map is nil. *)
Definition unmade_state : Sentinel := mkSentinel ["/w/one"%string] None [].

(** A world whose random source lasts for two saves, after the init
    command, and after the init and the scan command. *)
Definition long_world : World :=
  mkWorld ∅ ∅ (replicate 48 Byte.x01 ++ replicate 48 Byte.x02) ∅.

Definition init_world : World :=
  (initCmd (Ok plain_config) plain_fs (Ok "pw"%string) (Ok "pw"%string) "spid.db" long_world).1.

Definition scan_world : World := (scanCmd "spid.db" "pw" plain_fs 5 init_world).1.

(** The sample state saved under the second implementation: the key, the
    container, the world after the save, and a world whose database holds
    a given container. *)
Definition checked_key (password : string) (salt : list byte) : list byte :=
  replicate 32 (byte_of_N (byte_sum (bytes_of password) + byte_sum salt)).

Definition checked_container : SentinelFile :=
  mkSentinelFile
    (replicate 24 Byte.x01
     ++ checked_seal (enc_Sentinel sample_scanned) (replicate 24 Byte.x01)
          (checked_key "pw" (replicate 24 Byte.x02)))
    (replicate 24 Byte.x01) (replicate 24 Byte.x02).

Definition checked_saved : World :=
  (@Save sample_order checked_crypto sample_scanned "spid.db" "pw" sample_world).1.

Definition holding (sf : SentinelFile) : World :=
  mkWorld {[ "spid.db"%string := enc_SentinelFile sf ]} ∅ [] ∅.


(** A database file whose container holds no data. *)
Definition truncated_world : World :=
  mkWorld {[ "spid.db"%string :=
               enc_SentinelFile (mkSentinelFile [] (replicate 24 Byte.x01)
                                                (replicate 24 Byte.x02)) ]} ∅ [] ∅.

(** * Properties of a scan *)

Lemma node_nested_ind (P : node -> Prop) :
  (forall content, P (RegFile content)) ->
  P Unreadable ->
  (forall entries, Forall (fun e => P e.2) entries -> P (Dir entries)) ->
  forall n, P n.
Proof.
  intros Hfile Hunread Hdir.
  fix IH 1. intros [content| |entries].
  - apply Hfile.
  - apply Hunread.
  - apply Hdir. induction entries as [|[name child] rest IHrest].
    + constructor.
    + constructor; [apply IH | apply IHrest].
Qed.

Section monad_facts.

Lemma bind_ext {A B} (c : M A) (k1 k2 : A -> M B) s :
  (forall a s', k1 a s' = k2 a s') -> bind c k1 s = bind c k2 s.
Proof.
  intros Hk. unfold bind. destruct (c s) as [s' [a|e|]]; auto.
Qed.

Lemma bind_cong {A B} (c1 c2 : M A) (k1 k2 : A -> M B) s :
  c1 s = c2 s -> (forall a s', k1 a s' = k2 a s') -> bind c1 k1 s = bind c2 k2 s.
Proof.
  intros Hc Hk. unfold bind. rewrite Hc. destruct (c2 s) as [s' [a|e|]]; auto.
Qed.

Lemma bind_assoc {A B C} (c : M A) (k : A -> M B) (k' : B -> M C) s :
  bind (bind c k) k' s = bind c (fun a => bind (k a) k') s.
Proof.
  unfold bind. destruct (c s) as [s' [a|e|]]; auto.
Qed.

Lemma bind_ret_l {A B} (a : A) (k : A -> M B) s : bind (ret a) k s = k a s.
Proof. reflexivity. Qed.

Lemma bind_ret_r {A} (c : M A) s : bind c ret s = c s.
Proof. unfold bind, ret. destruct (c s) as [s' [a|e|]]; auto. Qed.

End monad_facts.

Section scan_facts.
Context `{Hasher}.

(** Unfolding of the three traversals on a directory. *)
Definition visits_entries (dir : string) (entries : list (string * node))
  : list (string * node) :=
  flat_map (fun e => visits (Join dir e.1) e.2
                     ++ match e.2 with
                        | Dir _ => visits (Join dir e.1) e.2
                        | _ => []
                        end) entries.

Definition files_entries (dir : string) (entries : list (string * node))
  : list (string * node) :=
  flat_map (fun e => files (Join dir e.1) e.2) entries.

Lemma visits_Dir dir entries : visits dir (Dir entries) = visits_entries dir entries.
Proof.
  unfold visits_entries. simpl.
  induction entries as [|[name child] rest IH]; simpl; [done|].
  rewrite IH. by rewrite <- !app_assoc.
Qed.

Lemma files_Dir dir entries : files dir (Dir entries) = files_entries dir entries.
Proof.
  unfold files_entries. simpl.
  induction entries as [|[name child] rest IH]; simpl; [done|].
  by rewrite IH.
Qed.

Lemma found_app l1 l2 : found (l1 ++ l2) = found l1 ++ found l2.
Proof. unfold found. apply map_app. Qed.

Lemma run_all_acc {A} (f : A -> M (list Event)) l : forall evs s,
  run_all f l evs s = bind (run_all f l []) (fun e => ret (evs ++ e)) s.
Proof.
  induction l as [|v rest IH]; intros evs s; simpl.
  - unfold bind, ret. simpl. by rewrite app_nil_r.
  - rewrite bind_assoc. apply bind_ext. intros ev s'.
    rewrite IH.
    transitivity (bind (bind (run_all f rest []) (fun e => ret (ev ++ e)))
                       (fun e => ret (evs ++ e)) s').
    + rewrite bind_assoc. apply bind_ext. intros e s''. rewrite bind_ret_l.
      unfold ret. by rewrite app_assoc.
    + apply bind_cong; [symmetry; apply IH | done].
Qed.

Lemma run_all_app {A} (f : A -> M (list Event)) l1 : forall l2 evs s,
  run_all f (l1 ++ l2) evs s = bind (run_all f l1 evs) (run_all f l2) s.
Proof.
  induction l1 as [|v rest IH]; intros l2 evs s; simpl.
  - reflexivity.
  - rewrite bind_assoc. apply bind_ext. intros ev s'. apply IH.
Qed.

Lemma run_all_app_nil {A} (f : A -> M (list Event)) l1 l2 s :
  run_all f (l1 ++ l2) [] s =
  bind (run_all f l1 []) (fun e1 => bind (run_all f l2 []) (fun e2 => ret (e1 ++ e2))) s.
Proof.
  rewrite run_all_app. apply bind_ext. intros e1 s'. apply run_all_acc.
Qed.

Lemma run_all_app3 {A} (f : A -> M (list Event)) l1 l2 l3 s :
  run_all f (l1 ++ l2 ++ l3) [] s =
  bind (run_all f l1 [])
    (fun e1 => bind (run_all f l2 [])
       (fun e2 => bind (run_all f l3 []) (fun e3 => ret (e1 ++ e2 ++ e3)))) s.
Proof.
  rewrite run_all_app_nil. apply bind_ext. intros e1 s1.
  transitivity (bind (bind (run_all f l2 [])
                        (fun e2 => bind (run_all f l3 []) (fun e3 => ret (e2 ++ e3))))
                     (fun e => ret (e1 ++ e)) s1).
  - apply bind_cong; [apply run_all_app_nil | done].
  - rewrite bind_assoc. apply bind_ext. intros e2 s2.
    rewrite bind_assoc. apply bind_ext. intros e3 s3.
    by rewrite bind_ret_l.
Qed.

Lemma run_all_one {A} (f : A -> M (list Event)) v s : run_all f [v] [] s = f v s.
Proof. simpl. apply bind_ret_r. Qed.

(** [process] on a node is the run of its visits. *)
Lemma process_node_visits n : forall path s,
  process_node path n s = run_visits (found (visits path n)) [] s.
Proof.
  induction n as [content| |entries IH] using node_nested_ind; intros path s.
  - symmetry. apply (run_all_one visit (path, Some (RegFile content))).
  - symmetry. apply (run_all_one visit (path, Some Unreadable)).
  - rewrite visits_Dir. simpl. revert s.
    induction IH as [|[name child] rest Hchild Hrest IHrest]; intros s.
    + reflexivity.
    + simpl in *. unfold visits_entries. simpl. fold (visits_entries path rest).
      rewrite !found_app, <- app_assoc. rewrite run_all_app3.
      apply bind_cong; [apply Hchild|]. intros subevs s1.
      apply bind_cong.
      { destruct child; try reflexivity. apply Hchild. }
      intros below s2.
      apply bind_cong; [apply IHrest|]. reflexivity.
Qed.

Lemma scan_loop_visits fs wfs : forall evs s,
  scan_loop fs wfs evs s = run_visits (scan_visits fs wfs) evs s.
Proof.
  induction wfs as [|wf rest IH]; intros evs s; simpl.
  - reflexivity.
  - unfold scan_visits. simpl. fold (scan_visits fs rest).
    rewrite run_all_app.
    transitivity (bind (bind (run_visits (watch_visits fs wf) [])
                          (fun e => ret (evs ++ e)))
                       (run_visits (scan_visits fs rest)) s).
    + rewrite bind_assoc. apply bind_cong.
      * unfold process, watch_visits. destruct (fs !! wf) as [n|].
        -- apply process_node_visits.
        -- reflexivity.
      * intros ev s'. rewrite bind_ret_l. apply IH.
    + apply bind_cong; [symmetry; apply run_all_acc | done].
Qed.

(** The paths Walk reports below a directory. *)
Definition walk_below (dir : string) (entries : list (string * node))
  : list (string * node) :=
  flat_map (fun e => walk_list (Join dir e.1) e.2) entries.

Lemma walk_list_Dir dir entries :
  walk_list dir (Dir entries) = (dir, Dir entries) :: walk_below dir entries.
Proof.
  unfold walk_below. simpl. f_equal.
  induction entries as [|[name child] rest IH]; simpl; [done | by rewrite IH].
Qed.

Lemma walk_list_head path n : walk_list path n = (path, n) :: tail (walk_list path n).
Proof. by destruct n. Qed.

(** [process] on a directory is the closure called on every path that
    [filepath.Walk] reports other than the directory itself, in the order
    of the walk. *)
Lemma process_node_walk n : forall path s,
  match n with
  | Dir _ => process_node path n s
  | _ => ret [] s
  end = run_closure (tail (walk_list path n)) [] s.
Proof.
  induction n as [content| |entries IH] using node_nested_ind; intros path s.
  - reflexivity.
  - reflexivity.
  - rewrite walk_list_Dir. cbn [tail process_node]. revert s.
    induction IH as [|[name child] rest Hchild Hrest IHrest]; intros s.
    + reflexivity.
    + unfold walk_below. cbn [flat_map walk_entries fst snd].
      fold (walk_below path rest). fold (walk_entries process_node path).
      rewrite walk_list_head.
      change (((Join path name, child) :: tail (walk_list (Join path name) child))
              ++ walk_below path rest)
        with ([(Join path name, child)] ++ tail (walk_list (Join path name) child)
              ++ walk_below path rest).
      rewrite run_all_app3.
      apply bind_cong; [symmetry; apply (run_all_one closure)|]. intros subevs s1.
      apply bind_cong.
      { simpl in Hchild. rewrite <- Hchild. by destruct child. }
      intros below s2.
      apply bind_cong; [apply IHrest|]. reflexivity.
Qed.

Lemma process_Dir_walk dir entries s :
  process_node dir (Dir entries) s = run_closure (walk_below dir entries) [] s.
Proof.
  rewrite (process_node_walk (Dir entries) dir s). by rewrite walk_list_Dir.
Qed.

End scan_facts.

(** ** What a run of visits does to the known objects *)

Section outcome.
Context `{Hasher}.

(** The run of visits as a function of the known objects alone. *)
Fixpoint outcome (l : list (string * option node)) (known : option (gmap string string))
    (evs : list Event) : option (gmap string string) * result (list Event) :=
  match l with
  | [] => (known, Ok evs)
  | (path, n) :: rest =>
      match n with
      | None => (known, Err (ErrStat path))
      | Some Unreadable => (known, Err (ErrOpen path))
      | Some (Dir _) => (known, Err (ErrRead path))
      | Some (RegFile content) =>
          match known with
          | None => (None, Panic)
          | Some m =>
              outcome rest (Some (<[path := sha256_hex content]> m))
                      (evs ++ classify m path (sha256_hex content))
          end
      end
  end.

Lemma process_file_spec path content wfs m ps :
  process_file path (RegFile content) (mkSentinel wfs (Some m) ps) =
  (mkSentinel wfs (Some (<[path := sha256_hex content]> m)) ps,
   Ok (classify m path (sha256_hex content))).
Proof.
  unfold process_file, bind, lift, map_get, map_set, ret, classify. simpl.
  destruct (m !! path) as [known|] eqn:Hm; simpl; [|done].
  destruct (decide (known = sha256_hex content)) as [->|Hne].
  - rewrite bool_decide_eq_false_2; [done | by intros ?].
  - rewrite bool_decide_eq_true_2; done.
Qed.

Lemma process_file_nil path content wfs ps :
  process_file path (RegFile content) (mkSentinel wfs None ps) =
  (mkSentinel wfs None ps, Panic).
Proof. reflexivity. Qed.

Lemma run_visits_outcome l : forall wfs known ps evs,
  run_visits l evs (mkSentinel wfs known ps) =
  (mkSentinel wfs (outcome l known evs).1 ps, (outcome l known evs).2).
Proof.
  induction l as [|[path [n|]] rest IH]; intros wfs known ps evs; simpl.
  - reflexivity.
  - destruct n as [content| |entries]; try reflexivity.
    destruct known as [m|].
    + unfold bind, visit. simpl. rewrite process_file_spec. apply IH.
    + reflexivity.
  - reflexivity.
Qed.

Lemma outcome_app l1 : forall l2 known evs,
  outcome (l1 ++ l2) known evs =
  match (outcome l1 known evs).2 with
  | Ok evs1 => outcome l2 (outcome l1 known evs).1 evs1
  | _ => outcome l1 known evs
  end.
Proof.
  induction l1 as [|[path [n|]] rest IH]; intros l2 known evs; simpl.
  - reflexivity.
  - destruct n as [content| |entries]; try reflexivity.
    destruct known as [m|]; [apply IH | reflexivity].
  - reflexivity.
Qed.

(** The known objects stay a map, and only visited paths are written. *)
Lemma outcome_frame l : forall m evs,
  exists m', (outcome l (Some m) evs).1 = Some m' /\
             forall q, q ∉ l.*1 -> m' !! q = m !! q.
Proof.
  induction l as [|[path [n|]] rest IH]; intros m evs; simpl.
  - eauto.
  - destruct n as [content| |entries]; eauto.
    destruct (IH (<[path := sha256_hex content]> m)
                 (evs ++ classify m path (sha256_hex content))) as (m' & Hm' & Hq).
    exists m'. split; [done|]. intros q Hq'.
    simpl in Hq'. apply not_elem_of_cons in Hq' as [Hne Hrest].
    rewrite Hq by done. apply lookup_insert_ne. intros Heq. by apply Hne.
  - eauto.
Qed.

(** Every entry is what it was, or the digest of a file just visited. *)
Lemma outcome_lookup l : forall m evs m',
  (outcome l (Some m) evs).1 = Some m' ->
  forall q, m' !! q = m !! q \/
            exists content, (q, Some (RegFile content)) ∈ l /\
                            m' !! q = Some (sha256_hex content).
Proof.
  induction l as [|[path [n|]] rest IH]; intros m evs m' Hout q; simpl in Hout.
  - left. congruence.
  - destruct n as [content| |entries]; simpl in Hout; try (left; congruence).
    destruct (IH _ _ _ Hout q) as [Heq|(c & Hin & Hc)].
    + destruct (decide (path = q)) as [->|Hne].
      * right. exists content. split; [set_solver|].
        by rewrite Heq, lookup_insert_eq.
      * left. by rewrite Heq, lookup_insert_ne.
    + right. exists c. split; [set_solver | done].
  - left. congruence.
Qed.

(** The events of a run are about visited paths. *)
Lemma classify_event m path sum e :
  e ∈ classify m path sum ->
  File e = path /\ NewChecksum e = sum /\
  ((Evtype e = evCreate /\ OrigChecksum e = ""%string /\ m !! path = None) \/
   (Evtype e = evModify /\ m !! path = Some (OrigChecksum e) /\ OrigChecksum e ≠ sum)).
Proof.
  unfold classify. destruct (m !! path) as [known|] eqn:Hm.
  - destruct (decide (known = sum)); [by intros ?%elem_of_nil|].
    intros ->%list_elem_of_singleton. simpl. naive_solver.
  - intros ->%list_elem_of_singleton. simpl. naive_solver.
Qed.

Lemma outcome_events l : forall known evs evs',
  (outcome l known evs).2 = Ok evs' ->
  exists new, evs' = evs ++ new /\
    forall e, e ∈ new ->
      exists content, (File e, Some (RegFile content)) ∈ l /\
                      NewChecksum e = sha256_hex content.
Proof.
  induction l as [|[path [n|]] rest IH]; intros known evs evs' Hout; simpl in Hout.
  - exists []. rewrite app_nil_r. split; [congruence|]. by intros e ?%elem_of_nil.
  - destruct n as [content| |entries]; try discriminate.
    destruct known as [m|]; [|discriminate].
    destruct (IH _ _ _ Hout) as (new & -> & Hnew).
    exists (classify m path (sha256_hex content) ++ new).
    split; [by rewrite app_assoc|].
    intros e [He|He]%elem_of_app.
    + apply classify_event in He as (-> & -> & _).
      exists content. split; [apply list_elem_of_here | done].
    + destruct (Hnew e He) as (c & Hin & Hc).
      exists c. split; [by apply list_elem_of_further | done].
  - discriminate.
Qed.

(** A run that succeeds visited readable files only. *)
Lemma outcome_ok_readable l : forall known evs evs',
  (outcome l known evs).2 = Ok evs' ->
  forall p n, (p, n) ∈ l -> exists content, n = Some (RegFile content).
Proof.
  induction l as [|[path [n|]] rest IH]; intros known evs evs' Hout p n' Hin;
    simpl in Hout.
  - set_solver.
  - destruct n as [content| |entries]; try discriminate.
    destruct known as [m|]; [|discriminate].
    apply elem_of_cons in Hin as [[= -> ->]|Hin]; [eauto|].
    eapply IH; eauto.
  - discriminate.
Qed.

(** After a run that succeeds, every visited path holds the digest of its
    file, when a path names one file. *)
Lemma outcome_ok_stored l : forall m evs evs' m',
  consistent l ->
  outcome l (Some m) evs = (Some m', Ok evs') ->
  forall p content, (p, Some (RegFile content)) ∈ l ->
                    m' !! p = Some (sha256_hex content).
Proof.
  induction l as [|[path [n|]] rest IH]; intros m evs evs' m' Hcons Hout p c Hin;
    simpl in Hout.
  - set_solver.
  - destruct n as [content| |entries]; try discriminate.
    assert (consistent rest) as Hcons'.
    { intros q n1 n2 H1 H2. apply (Hcons q); by apply list_elem_of_further. }
    apply elem_of_cons in Hin as [[= -> ->]|Hin].
    + destruct (outcome_lookup rest _ _ m' (f_equal fst Hout) path)
        as [Heq|(c' & Hin' & Hc')].
      * by rewrite Heq, lookup_insert_eq.
      * assert (Some (RegFile c') = Some (RegFile content)) as [= ->].
        { apply (Hcons path); set_solver. }
        done.
    + eapply IH; eauto.
  - discriminate.
Qed.

(** Files whose digests are all known as they are give no event, and the
    known objects stay as they are. *)
Lemma outcome_known l : forall m evs,
  (forall p n, (p, n) ∈ l ->
     exists content, n = Some (RegFile content) /\ m !! p = Some (sha256_hex content)) ->
  outcome l (Some m) evs = (Some m, Ok evs).
Proof.
  induction l as [|[path n] rest IH]; intros m evs Hknown; simpl.
  - reflexivity.
  - destruct (Hknown path n) as (content & -> & Hm); [set_solver|].
    unfold classify. rewrite Hm. rewrite decide_True by done.
    rewrite insert_id by done. rewrite app_nil_r.
    apply IH. intros p n Hin. apply Hknown. set_solver.
Qed.

(** A run that returns an error made the visits before the failing one,
    all of readable files, and stored their digests. *)
Lemma outcome_err l : forall known evs e,
  (outcome l known evs).2 = Err e ->
  exists visited failed rest,
    l = visited ++ failed :: rest /\
    Forall (fun v => is_file v = true) visited /\
    visit_error failed = Some e /\
    (outcome l known evs).1 = store_visits visited <$> known.
Proof.
  induction l as [|[path [n|]] rest IH]; intros known evs e Hout; simpl in Hout.
  - discriminate.
  - destruct n as [content| |entries].
    + destruct known as [m|]; [|discriminate].
      destruct (IH _ _ _ Hout) as (visited & failed & rest' & -> & Hfiles & Herr & Hknown).
      exists ((path, Some (RegFile content)) :: visited), failed, rest'.
      split; [done|]. split; [by constructor|]. split; [done|].
      simpl. by rewrite Hknown.
    + injection Hout as <-. exists [], (path, Some Unreadable), rest.
      repeat split; [constructor|]. simpl. by destruct known.
    + injection Hout as <-. exists [], (path, Some (Dir entries)), rest.
      repeat split; [constructor|]. simpl. by destruct known.
  - injection Hout as <-. exists [], (path, None), rest.
    repeat split; [constructor|]. simpl. by destruct known.
Qed.

End outcome.

(** ** [Scan] as a whole *)

Section scan_claims.
Context `{Hasher}.

(** [Scan] runs the visits of the watch set; it appends a record when they
    all succeed and leaves the history alone otherwise. *)
Lemma Scan_outcome fs now wfs known ps :
  Sentinel_Scan fs now (mkSentinel wfs known ps) =
  match (outcome (scan_visits fs wfs) known []).2 with
  | Ok evs =>
      (mkSentinel wfs (outcome (scan_visits fs wfs) known []).1
                  (ps ++ [mkScan now evs]), Ok evs)
  | r => (mkSentinel wfs (outcome (scan_visits fs wfs) known []).1 ps, r)
  end.
Proof.
  unfold Sentinel_Scan. simpl. unfold bind at 1.
  rewrite scan_loop_visits, run_visits_outcome.
  destruct (outcome (scan_visits fs wfs) known []) as [known' [evs|e|]]; reflexivity.
Qed.

Lemma Scan_WatchFiles fs now s :
  WatchFiles (Sentinel_Scan fs now s).1 = WatchFiles s.
Proof.
  destruct s as [wfs known ps]. rewrite Scan_outcome.
  destruct (outcome (scan_visits fs wfs) known []) as [known' [evs|e|]]; reflexivity.
Qed.

(** C6. Every file that a scan digests is classified against the known
    objects: a path not yet known gives one creation event with an empty
    original checksum and the digest of the content as new checksum; a path
    known with another digest gives one modification event carrying the
    known digest and the new one; a path known with the same digest gives no
    event; and in each case the digest is stored under the path. *)
Theorem C6_file_classified_and_stored wfs m ps path content :
  process_node path (RegFile content) (mkSentinel wfs (Some m) ps) =
  (mkSentinel wfs (Some (<[path := sha256_hex content]> m)) ps,
   Ok (match m !! path with
       | None => [mkEvent evCreate "" (sha256_hex content) path]
       | Some known =>
           if decide (known = sha256_hex content) then []
           else [mkEvent evModify known (sha256_hex content) path]
       end)).
Proof. simpl. apply process_file_spec. Qed.

Lemma run_scans_history l : forall s,
  PriorScans (run_scans l s).1 = PriorScans s ++ records l (run_scans l s).2.
Proof.
  induction l as [|[fs now] rest IH]; intros s; simpl.
  - by rewrite app_nil_r.
  - destruct s as [wfs known ps]. rewrite Scan_outcome.
    destruct (outcome (scan_visits fs wfs) known []) as [known' [evs|e|]]; simpl.
    + destruct (run_scans rest _) as [s2 rs] eqn:Hrest. simpl.
      pose proof (IH (mkSentinel wfs known' (ps ++ [mkScan now evs]))) as IH'.
      rewrite Hrest in IH'. simpl in IH'. by rewrite IH', <- app_assoc.
    + destruct (run_scans rest _) as [s2 rs] eqn:Hrest. simpl.
      pose proof (IH (mkSentinel wfs known' ps)) as IH'.
      by rewrite Hrest in IH'.
    + destruct rest as [|[fs' now'] rest']; simpl; by rewrite app_nil_r.
Qed.

Lemma run_scans_all_ok l : forall s,
  Forall (fun r => succeeded r = true) (run_scans l s).2 ->
  length (records l (run_scans l s).2) = length l /\
  map Timestamp (records l (run_scans l s).2) = l.*2.
Proof.
  induction l as [|[fs now] rest IH]; intros s Hok; simpl in *.
  - done.
  - destruct (Sentinel_Scan fs now s) as [s1 [evs|e|]]; simpl in *.
    + destruct (run_scans rest s1) as [s2 rs] eqn:Hrest. simpl in *.
      apply Forall_cons in Hok as [_ Hok].
      specialize (IH s1). rewrite Hrest in IH. destruct (IH Hok) as [Hlen Hts].
      simpl in *. by rewrite Hlen, Hts.
    + destruct (run_scans rest s1) as [s2 rs] eqn:Hrest. simpl in *.
      by apply Forall_cons in Hok as [? _].
    + by apply Forall_cons in Hok as [? _].
Qed.

End scan_claims.

Section scan_claims2.
Context `{Hasher}.

(** C8. The history only grows at its end: the scans made on a state leave
    its earlier records in place, and when all [k] of them succeed the
    history has gained exactly [k] records, in the order of the scans, each
    with the time and the events of its scan. *)
Theorem C8_history_accumulates (l : list (gmap string node * Z)) (s : Sentinel) :
  PriorScans s `prefix_of` PriorScans (run_scans l s).1 /\
  (Forall (fun r => succeeded r = true) (run_scans l s).2 ->
   exists recs,
     PriorScans (run_scans l s).1 = PriorScans s ++ recs /\
     length recs = length l /\
     map Timestamp recs = l.*2 /\
     map (fun sc => Ok (Events sc)) recs = (run_scans l s).2).
Proof.
  split.
  - rewrite run_scans_history. by apply prefix_app_r.
  - intros Hok. exists (records l (run_scans l s).2).
    split; [apply run_scans_history|].
    destruct (run_scans_all_ok l s Hok) as [Hlen Hts]. repeat split; [done..|].
    clear Hlen Hts. revert s Hok.
    induction l as [|[fs now] rest IH]; intros s Hok; simpl in *; [done|].
    destruct (Sentinel_Scan fs now s) as [s1 [evs|e|]]; simpl in *.
    + specialize (IH s1).
      destruct (run_scans rest s1) as [s2 rs]. simpl in *.
      apply Forall_cons in Hok as [_ Hok]. by rewrite (IH Hok).
    + destruct (run_scans rest s1) as [s2 rs]. simpl in *.
      by apply Forall_cons in Hok as [? _].
    + by apply Forall_cons in Hok as [? _].
Qed.

(** A path at which a scan finds no regular file to open gets no event,
    and its entry in the known objects stays what it was, whatever the
    scan returns. *)
Lemma unreached_path_untouched fs now s path :
  ~ scanned fs (WatchFiles s) path ->
  known_at (Sentinel_Scan fs now s).1 path = known_at s path /\
  forall evs e, (Sentinel_Scan fs now s).2 = Ok evs -> e ∈ evs -> File e ≠ path.
Proof.
  intros Hdel. destruct s as [wfs known ps]. simpl in Hdel.
  assert (forall c, (path, Some (RegFile c)) ∉ scan_visits fs wfs) as Hdel'.
  { intros c Hin. apply Hdel. unfold scanned, scanned_paths.
    apply list_elem_of_omap. by exists (path, Some (RegFile c)). }
  clear Hdel. rename Hdel' into Hdel.
  rewrite Scan_outcome. split.
  - assert (match (outcome (scan_visits fs wfs) known []).1 with
            | Some m => m !! path | None => None end
            = match known with Some m => m !! path | None => None end) as Hk.
    { destruct known as [m|].
      - destruct (outcome_frame (scan_visits fs wfs) m []) as (m' & Hm' & _).
        rewrite Hm'.
        destruct (outcome_lookup _ _ _ _ Hm' path) as [Heq|(c & Hin & _)]; [done|].
        by destruct (Hdel c).
      - clear Hdel. generalize (@nil Event).
        induction (scan_visits fs wfs) as [|[p [[c| |es]|]] rest IH]; intros evs;
          simpl; auto. }
    unfold known_at.
    destruct (outcome (scan_visits fs wfs) known []) as [known' [evs|e|]]; apply Hk.
  - intros evs e Hres Hin Hfile.
    destruct (outcome (scan_visits fs wfs) known []) as [known' [evs'|e'|]] eqn:Hout;
      simpl in Hres; try discriminate.
    injection Hres as ->.
    destruct (outcome_events (scan_visits fs wfs) known [] evs) as (new & Hnew & Hpaths).
    { by rewrite Hout. }
    simpl in Hnew. subst new.
    destruct (Hpaths e Hin) as (c & Hc & _).
    apply (Hdel c). by rewrite <- Hfile.
Qed.

(** C7. When a scan succeeds and the files are the same at the next scan,
    each path naming one file, the next scan succeeds with no event. *)
Theorem C7_second_scan_no_events fs now1 now2 s s1 evs1 :
  consistent (scan_visits fs (WatchFiles s)) ->
  Sentinel_Scan fs now1 s = (s1, Ok evs1) ->
  exists s2, Sentinel_Scan fs now2 s1 = (s2, Ok []).
Proof.
  intros Hcons Hscan. destruct s as [wfs known ps]. simpl in Hcons.
  rewrite Scan_outcome in Hscan.
  destruct (outcome (scan_visits fs wfs) known []) as [known' [evs|e|]] eqn:Hout;
    simpl in Hscan; try discriminate.
  injection Hscan as <- <-.
  rewrite Scan_outcome.
  assert (outcome (scan_visits fs wfs) known' [] = (known', Ok [])) as ->; [|eauto].
  destruct known as [m|].
  - destruct (outcome_frame (scan_visits fs wfs) m []) as (m' & Hm' & _).
    rewrite Hout in Hm'. simpl in Hm'. subst known'.
    apply outcome_known. intros p n Hin.
    destruct (outcome_ok_readable (scan_visits fs wfs) (Some m) [] evs) with p n
      as [c ->]; [by rewrite Hout | done |].
    exists c. split; [done|].
    eapply outcome_ok_stored; eauto.
  - destruct (scan_visits fs wfs) as [|[p [[c| |es]|]] rest]; simpl in Hout;
      try discriminate.
    by injection Hout as <- <-.
Qed.

End scan_claims2.

(** ** Paths below a directory *)

Section paths.

Lemma append_assoc (a b c : string) : (a +:+ b) +:+ c = a +:+ (b +:+ c).
Proof.
  induction a as [|x a IH]; [done|].
  change (String x ((a +:+ b) +:+ c) = String x (a +:+ (b +:+ c))). by f_equal.
Qed.

(** What follows a directory path in the path of something below it. *)
Definition tail_like (suffix : string) : Prop :=
  suffix = ""%string \/ exists t, suffix = String "/" t.

Lemma slash_free_cons a name :
  slash_free (String a name) = true -> a ≠ "/"%char /\ slash_free name = true.
Proof.
  simpl. intros [Ha Hn]%andb_prop. split; [|done].
  intros ->. by rewrite Ascii.eqb_refl in Ha.
Qed.

(** A path splits in one way only into a name and what follows it. *)
Lemma name_split n1 : forall n2 s1 s2,
  slash_free n1 = true -> slash_free n2 = true ->
  tail_like s1 -> tail_like s2 ->
  n1 +:+ s1 = n2 +:+ s2 -> n1 = n2 /\ s1 = s2.
Proof.
  induction n1 as [|a n1 IH]; intros [|b n2] s1 s2 H1 H2 T1 T2 Heq; simpl in Heq.
  - done.
  - apply slash_free_cons in H2 as [Hb _].
    destruct T1 as [->|[t ->]]; [done|]. by injection Heq as <- _.
  - apply slash_free_cons in H1 as [Ha _].
    destruct T2 as [->|[t ->]]; [done|]. by injection Heq as -> _.
  - injection Heq as -> Heq.
    apply slash_free_cons in H1 as [_ H1]. apply slash_free_cons in H2 as [_ H2].
    destruct (IH n2 s1 s2 H1 H2 T1 T2 Heq) as [-> ->]. done.
Qed.

Lemma Join_suffix dir name suffix :
  Join dir name +:+ suffix = dir +:+ String "/" (name +:+ suffix).
Proof. unfold Join. by rewrite !append_assoc. Qed.

End paths.

Section tree_facts.
Context `{Hasher}.

Lemma append_nil_r (a : string) : a +:+ "" = a.
Proof.
  induction a as [|x a IH]; [done|].
  change (String x (a +:+ "") = String x a). by f_equal.
Qed.

Lemma all_readable_Dir entries :
  all_readable (Dir entries) = true <->
  Forall (fun e => all_readable e.2 = true) entries.
Proof.
  simpl. induction entries as [|[name child] rest IH].
  - split; [constructor | done].
  - rewrite andb_true_iff, IH, Forall_cons. done.
Qed.

Lemma well_named_Dir entries :
  well_named (Dir entries) = true <->
  NoDup entries.*1 /\
  Forall (fun e => slash_free e.1 = true /\ well_named e.2 = true) entries.
Proof.
  simpl. rewrite andb_true_iff, bool_decide_eq_true.
  apply and_iff_compat_l.
  induction entries as [|[name child] rest IH].
  - split; [constructor | done].
  - rewrite !andb_true_iff, IH, Forall_cons. simpl. tauto.
Qed.

Lemma elem_of_flat_map {A B} (f : A -> list B) (l : list A) (y : B) :
  y ∈ flat_map f l <-> exists x, x ∈ l /\ y ∈ f x.
Proof.
  induction l as [|a l IH]; simpl.
  - split; [by intros ?%elem_of_nil | by intros (x & ?%elem_of_nil & _)].
  - rewrite elem_of_app, IH. split.
    + intros [Hy|(x & Hx & Hy)]; [exists a | exists x]; split; auto.
      * apply list_elem_of_here.
      * by apply list_elem_of_further.
    + intros (x & [->|Hx]%elem_of_cons & Hy); eauto.
Qed.

Lemma files_entries_elem dir entries q m :
  (q, m) ∈ files_entries dir entries <->
  exists name child, (name, child) ∈ entries /\ (q, m) ∈ files (Join dir name) child.
Proof.
  unfold files_entries. rewrite elem_of_flat_map. split.
  - intros ([name child] & Hin & He). eauto.
  - intros (name & child & Hin & He). exists (name, child). eauto.
Qed.

(** A file below a node has the path of the node, then nothing or a
    separator and more. *)
Lemma files_under n : forall path q m,
  (q, m) ∈ files path n -> exists suffix, q = path +:+ suffix /\ tail_like suffix.
Proof.
  induction n as [content| |entries IH] using node_nested_ind; intros path q m Hin.
  - apply list_elem_of_singleton in Hin as [= -> ->].
    exists ""%string. rewrite append_nil_r. split; [done | by left].
  - apply list_elem_of_singleton in Hin as [= -> ->].
    exists ""%string. rewrite append_nil_r. split; [done | by left].
  - rewrite files_Dir in Hin. apply files_entries_elem in Hin as (name & child & He & Hin).
    rewrite Forall_forall in IH. specialize (IH _ He). simpl in IH.
    destruct (IH _ _ _ Hin) as (suffix & -> & _).
    exists (String "/" (name +:+ suffix)). split; [apply Join_suffix|].
    right. eauto.
Qed.

Lemma files_not_Dir n : forall path q m,
  (q, m) ∈ files path n -> forall entries, m ≠ Dir entries.
Proof.
  induction n as [content| |entries IH] using node_nested_ind; intros path q m Hin.
  - by apply list_elem_of_singleton in Hin as [= -> ->].
  - by apply list_elem_of_singleton in Hin as [= -> ->].
  - rewrite files_Dir in Hin. apply files_entries_elem in Hin as (name & child & He & Hin).
    rewrite Forall_forall in IH. by apply (IH _ He _ _ _ Hin).
Qed.

Lemma files_readable n : forall path q m,
  all_readable n = true -> (q, m) ∈ files path n -> exists content, m = RegFile content.
Proof.
  induction n as [content| |entries IH] using node_nested_ind; intros path q m Hr Hin.
  - apply list_elem_of_singleton in Hin as [= -> ->]. eauto.
  - done.
  - rewrite files_Dir in Hin. apply files_entries_elem in Hin as (name & child & He & Hin).
    apply all_readable_Dir in Hr. rewrite Forall_forall in IH, Hr.
    by apply (IH _ He _ _ _ (Hr _ He) Hin).
Qed.

(** In a well-named tree no two files have the same path. *)
Lemma files_NoDup n : forall path,
  well_named n = true -> NoDup (files path n).*1.
Proof.
  induction n as [content| |entries IH] using node_nested_ind; intros path Hwn.
  - simpl. apply NoDup_singleton.
  - simpl. apply NoDup_singleton.
  - rewrite files_Dir. apply well_named_Dir in Hwn as [Hnd Hall].
    induction entries as [|[name child] rest IHrest]; [constructor|].
    apply Forall_cons in IH as [IHchild IH].
    apply Forall_cons in Hall as [[Hname Hchild] Hall].
    apply NoDup_cons in Hnd as [Hfresh Hnd]. simpl in *.
    unfold files_entries. simpl. fold (files_entries path rest).
    rewrite fmap_app. apply NoDup_app. split; [by apply IHchild|].
    split; [|by apply IHrest].
    intros q [[q1 m1] [-> Hin1]]%list_elem_of_fmap [[q2 m2] [Heq Hin2]]%list_elem_of_fmap.
    simpl in Heq.
    apply files_under in Hin1 as (s1 & -> & T1).
    apply files_entries_elem in Hin2 as (name' & child' & He' & Hin2).
    apply files_under in Hin2 as (s2 & -> & T2).
    rewrite !Join_suffix in Heq. apply (inj _) in Heq. injection Heq as Heq.
    rewrite Forall_forall in Hall. destruct (Hall _ He') as [Hname' _].
    simpl in Hname'.
    destruct (name_split _ _ _ _ Hname Hname' T1 T2 Heq) as [-> _].
    apply Hfresh. apply list_elem_of_fmap. by exists (name', child').
Qed.

(** The walk opens the files of the tree and nothing else. *)
Lemma visits_files n : forall path v, v ∈ visits path n <-> v ∈ files path n.
Proof.
  induction n as [content| |entries IH] using node_nested_ind; intros path v.
  - done.
  - done.
  - rewrite visits_Dir, files_Dir. unfold visits_entries, files_entries.
    rewrite !elem_of_flat_map. rewrite Forall_forall in IH.
    split; intros ([name child] & He & Hv); exists (name, child); (split; [done|]);
      simpl in *; specialize (IH _ He (Join path name) v); simpl in IH.
    + apply elem_of_app in Hv as [Hv|Hv]; [by apply IH|].
      destruct child; try by apply elem_of_nil in Hv. by apply IH.
    + apply elem_of_app. left. by apply IH.
Qed.

End tree_facts.

(** ** The first scan of a directory *)

Section first_scan.
Context `{Hasher}.

Lemma store_app l1 l2 m : store (l1 ++ l2) m = store l2 (store l1 m).
Proof. unfold store. apply foldl_app. Qed.

Lemma store_lookup_notin l : forall m q, q ∉ l.*1 -> store l m !! q = m !! q.
Proof.
  induction l as [|[p n] rest IH]; intros m q Hq; simpl; [done|].
  rewrite fmap_cons in Hq. apply not_elem_of_cons in Hq as [Hne Hq].
  change (store rest (<[p := node_digest n]> m) !! q = m !! q).
  rewrite IH by done. by apply lookup_insert_ne.
Qed.

Lemma store_lookup_in l : forall m q n,
  NoDup l.*1 -> (q, n) ∈ l -> store l m !! q = Some (node_digest n).
Proof.
  induction l as [|[p n'] rest IH]; intros m q n Hnd Hin.
  - by apply elem_of_nil in Hin.
  - rewrite fmap_cons in Hnd. apply NoDup_cons in Hnd as [Hfresh Hnd].
    change (store rest (<[p := node_digest n']> m) !! q = Some (node_digest n)).
    apply elem_of_cons in Hin as [[= -> ->]|Hin].
    + rewrite store_lookup_notin by done. apply lookup_insert_eq.
    + by apply IH.
Qed.

Lemma elem_of_found l q n :
  (q, n) ∈ found l <-> exists n', n = Some n' /\ (q, n') ∈ l.
Proof.
  unfold found. rewrite list_elem_of_In, in_map_iff. split.
  - intros ([q' n'] & [= <- <-] & Hin). exists n'. by rewrite list_elem_of_In.
  - intros (n' & -> & Hin). exists (q, n'). by rewrite <- list_elem_of_In.
Qed.

(** On known objects that hold none of its paths, a readable tree gives
    one creation event for each of its files, in walk order, and the
    digests are stored. *)
Lemma outcome_fresh_tree n : forall path m evs,
  all_readable n = true ->
  NoDup (files path n).*1 ->
  (forall q, q ∈ (files path n).*1 -> m !! q = None) ->
  outcome (found (visits path n)) (Some m) evs =
  (Some (store (files path n) m), Ok (evs ++ map created (files path n))).
Proof.
  induction n as [content| |entries IH] using node_nested_ind;
    intros path m evs Hr Hnd Hfresh.
  - simpl. unfold classify. rewrite Hfresh; [done|]. simpl. apply list_elem_of_here.
  - done.
  - rewrite visits_Dir. rewrite files_Dir in *.
    apply all_readable_Dir in Hr. revert m evs Hfresh.
    induction entries as [|[name child] rest IHrest]; intros m evs Hfresh.
    + simpl. by rewrite app_nil_r.
    + apply Forall_cons in IH as [IHchild IH].
      apply Forall_cons in Hr as [Hrchild Hr].
      unfold files_entries in Hnd, Hfresh |- *. simpl in Hnd, Hfresh |- *.
      fold (files_entries path rest) in Hnd, Hfresh |- *.
      unfold visits_entries. simpl. fold (visits_entries path rest).
      rewrite fmap_app in Hnd, Hfresh.
      apply NoDup_app in Hnd as (Hnd1 & Hdisj & Hnd2).
      simpl in IHchild.
      specialize (IHchild (Join path name) m evs Hrchild Hnd1).
      rewrite !found_app, <- app_assoc.
      rewrite outcome_app, IHchild; [|intros q Hq; apply Hfresh, elem_of_app; auto].
      simpl.
      rewrite outcome_app.
      set (F := files (Join path name) child) in *.
      assert (outcome (found match child with
                             | Dir _ => visits (Join path name) child
                             | _ => []
                             end) (Some (store F m)) (evs ++ map created F)
              = (Some (store F m), Ok (evs ++ map created F))) as ->.
      { destruct child as [c| |es]; try reflexivity.
        apply outcome_known. intros q n [n' [-> Hin]]%elem_of_found.
        apply visits_files in Hin. fold F in Hin.
        destruct (files_readable _ _ _ _ Hrchild Hin) as [c ->].
        exists c. split; [done|].
        by rewrite (store_lookup_in F m q (RegFile c)). }
      simpl.
      rewrite IHrest; try done.
      * by rewrite store_app, map_app, app_assoc.
      * intros q Hq. rewrite store_lookup_notin.
        -- apply Hfresh, elem_of_app. auto.
        -- intros Hq'. by apply (Hdisj q).
Qed.

Lemma created_files_events n path e :
  all_readable n = true ->
  e ∈ map created (files path n) ->
  Evtype e = evCreate /\ OrigChecksum e = ""%string /\
  exists content, (File e, RegFile content) ∈ files path n /\
                  NewChecksum e = sha256_hex content.
Proof.
  intros Hr Hin. apply list_elem_of_In, in_map_iff in Hin as ([q m] & <- & Hin).
  apply list_elem_of_In in Hin.
  destruct (files_readable _ _ _ _ Hr Hin) as [c ->].
  simpl. repeat split. by exists c.
Qed.

Lemma NoDup_fst_functional {A B} (l : list (A * B)) q a b :
  NoDup l.*1 -> (q, a) ∈ l -> (q, b) ∈ l -> a = b.
Proof.
  induction l as [|[p m] l IH]; intros Hnd Ha Hb.
  - by apply elem_of_nil in Ha.
  - simpl in Hnd. apply NoDup_cons in Hnd as [Hfresh Hnd].
    apply elem_of_cons in Ha as [Ha|Ha]; apply elem_of_cons in Hb as [Hb|Hb].
    + congruence.
    + injection Ha as -> ->. destruct Hfresh.
      apply list_elem_of_fmap. by exists (p, b).
    + injection Hb as -> ->. destruct Hfresh.
      apply list_elem_of_fmap. by exists (p, a).
    + by apply IH.
Qed.

(** The visits of a well-named tree are consistent: the hypothesis of the
    claim on repeated scans holds for one watched directory tree. *)
Lemma watched_tree_consistent path n :
  well_named n = true -> consistent (found (visits path n)).
Proof.
  intros Hwn q n1 n2 [a [-> Ha]]%elem_of_found [b [-> Hb]]%elem_of_found.
  apply visits_files in Ha, Hb. f_equal.
  apply (NoDup_fst_functional (files path n) q); [by apply files_NoDup | done..].
Qed.

(** C5. The first scan of a fresh state that watches one directory, the
    directory being a tree of readable regular files and directories with
    proper names, returns exactly one event for each of the [N] regular
    files of the tree, nested ones included: its creation event, with the
    digest of the file.  No event is about a directory. *)
Theorem C5_first_scan_of_directory fs now dir entries :
  fs !! dir = Some (Dir entries) ->
  well_named (Dir entries) = true ->
  all_readable (Dir entries) = true ->
  exists s' evs,
    Sentinel_Scan fs now (New (mkConfig [dir])) = (s', Ok evs) /\
    length evs = length (files dir (Dir entries)) /\
    evs = map created (files dir (Dir entries)) /\
    forall e, e ∈ evs ->
      Evtype e = evCreate /\ OrigChecksum e = ""%string /\
      exists content, (File e, RegFile content) ∈ files dir (Dir entries) /\
                      NewChecksum e = sha256_hex content.
Proof.
  intros Hfs Hwn Hr. unfold New. cbn [cfgWatchFiles]. rewrite Scan_outcome.
  assert (scan_visits fs [dir] = found (visits dir (Dir entries))) as ->.
  { unfold scan_visits, watch_visits. cbn [flat_map]. rewrite Hfs. apply app_nil_r. }
  rewrite outcome_fresh_tree; [|done|by apply files_NoDup|intros; apply lookup_empty].
  cbn [fst snd]. rewrite app_nil_l.
  eexists _, _. split; [reflexivity|].
  split; [apply List.length_map|]. split; [done|].
  intros e He. by apply created_files_events.
Qed.

End first_scan.

(** * The gob encoding decodes to what was encoded *)

Section wire_integers.
Local Open Scope N_scope.

Lemma to_N_byte_of_N n : Byte.to_N (byte_of_N n) = n mod 256.
Proof.
  unfold byte_of_N. destruct (Byte.of_N (n mod 256)) as [b|] eqn:Hb.
  - by apply Byte.to_of_N.
  - apply Byte.of_N_None_iff in Hb.
    pose proof (N.mod_upper_bound n 256). lia.
Qed.

Lemma byte_of_N_to_N b : byte_of_N (Byte.to_N b) = b.
Proof.
  unfold byte_of_N. pose proof (Byte.to_N_bounded b).
  rewrite N.mod_small by lia. by rewrite Byte.of_to_N.
Qed.

Lemma length_be_bytes k : forall n, length (be_bytes k n) = k.
Proof.
  induction k as [|k IH]; intros n; simpl; [done|].
  rewrite length_app, IH. simpl. lia.
Qed.

Lemma from_be_snoc bs b : from_be (bs ++ [b]) = from_be bs * 256 + Byte.to_N b.
Proof. unfold from_be. by rewrite foldl_app. Qed.

Lemma from_be_bytes k : forall n, from_be (be_bytes k n) = n mod 256 ^ N.of_nat k.
Proof.
  induction k as [|k IH]; intros n.
  - simpl. by rewrite N.mod_1_r.
  - cbn [be_bytes]. rewrite from_be_snoc, IH, to_N_byte_of_N.
    rewrite Nat2N.inj_succ, N.pow_succ_r'.
    rewrite (N.Div0.mod_mul_r n 256). lia.
Qed.

Lemma byte_count_le fuel : forall n, (byte_count fuel n <= fuel)%nat.
Proof.
  induction fuel as [|fuel IH]; intros n; simpl; [done|].
  destruct (n =? 0); [lia|]. specialize (IH (n / 256)). lia.
Qed.

Lemma byte_count_enough fuel : forall n,
  n < 256 ^ N.of_nat fuel -> n < 256 ^ N.of_nat (byte_count fuel n).
Proof.
  induction fuel as [|fuel IH]; intros n Hn.
  - done.
  - cbn [byte_count]. destruct (N.eqb_spec n 0) as [->|Hne]; [done|].
    rewrite Nat2N.inj_succ, N.pow_succ_r' in *.
    assert (n / 256 < 256 ^ N.of_nat fuel) as Hdiv.
    { apply N.Div0.div_lt_upper_bound. lia. }
    specialize (IH _ Hdiv).
    pose proof (N.div_mod n 256 ltac:(lia)) as Hdm.
    pose proof (N.mod_upper_bound n 256 ltac:(lia)). lia.
Qed.

Lemma take_bytes_app bs rest : take_bytes (length bs) (bs ++ rest) = Some (bs, rest).
Proof.
  unfold take_bytes. rewrite decide_True by (rewrite length_app; lia).
  by rewrite take_app_length, drop_app_length.
Qed.

(** An unsigned integer of 64 bits is read back as it was written. *)
Lemma dec_uint_enc n rest :
  n < 2 ^ 64 -> dec_uint (enc_uint n ++ rest) = Some (n, rest).
Proof.
  intros Hn. unfold enc_uint. destruct (N.ltb_spec n 128) as [Hsmall|Hbig].
  - simpl. rewrite to_N_byte_of_N, N.mod_small by lia.
    by rewrite (proj2 (N.ltb_lt _ _) Hsmall).
  - set (k := byte_count 8 n).
    assert (k <= 8)%nat as Hk8 by apply byte_count_le.
    assert (n < 256 ^ N.of_nat k) as Hk by (by apply byte_count_enough).
    assert (1 <= k)%nat as Hk1.
    { destruct k; [|lia]. simpl in Hk. lia. }
    cbn [app dec_uint]. rewrite to_N_byte_of_N.
    rewrite (N.mod_small (256 - N.of_nat k)) by lia.
    rewrite (proj2 (N.ltb_ge _ _)) by lia.
    replace (256 - (256 - N.of_nat k)) with (N.of_nat k) by lia.
    rewrite (proj2 (N.ltb_ge _ _)) by lia.
    rewrite Nat2N.id.
    rewrite <- (length_be_bytes k n) at 1. rewrite take_bytes_app.
    by rewrite from_be_bytes, N.mod_small.
Qed.

Lemma dec_uint8_enc b rest : dec_uint8 (enc_uint (Byte.to_N b) ++ rest) = Some (b, rest).
Proof.
  unfold dec_uint8. pose proof (Byte.to_N_bounded b).
  rewrite dec_uint_enc by lia.
  rewrite (proj2 (N.ltb_lt _ _)) by lia. by rewrite byte_of_N_to_N.
Qed.

End wire_integers.

Section wire_values.

(** A signed integer of 64 bits is read back as it was written. *)
Lemma dec_int_enc i rest :
  - 2 ^ 63 <= i < 2 ^ 63 -> dec_int (enc_int i ++ rest) = Some (i, rest).
Proof.
  intros Hi. unfold dec_int, enc_int.
  destruct (Z.ltb_spec i 0) as [Hneg|Hpos].
  - rewrite dec_uint_enc by lia.
    replace (Z.to_N (2 * (- i - 1) + 1)) with (2 * Z.to_N (- i - 1) + 1)%N by lia.
    rewrite N.add_comm, N.odd_add_mul_2. rewrite N.add_comm.
    change (N.odd 1) with true. cbv iota.
    replace ((2 * Z.to_N (- i - 1) + 1) / 2)%N with (Z.to_N (- i - 1)).
    + f_equal. f_equal. lia.
    + apply (N.div_unique _ 2 _ 1); lia.
  - rewrite dec_uint_enc by lia.
    replace (Z.to_N (2 * i)) with (2 * Z.to_N i)%N by lia.
    replace (N.odd (2 * Z.to_N i)) with false.
    + replace ((2 * Z.to_N i) / 2)%N with (Z.to_N i).
      * f_equal. f_equal. lia.
      * apply (N.div_unique _ 2 _ 0); lia.
    + symmetry. rewrite <- N.negb_even. by rewrite N.even_mul.
Qed.

Lemma fits_lt n : fits n = true -> (N.of_nat n < 2 ^ 64)%N.
Proof. unfold fits. by intros ?%N.ltb_lt. Qed.

Lemma dec_bytes_enc bs rest :
  fits (length bs) = true -> dec_bytes (enc_bytes bs ++ rest) = Some (bs, rest).
Proof.
  intros Hfit%fits_lt. unfold dec_bytes, enc_bytes.
  rewrite <- app_assoc, dec_uint_enc by done.
  rewrite Nat2N.id. apply take_bytes_app.
Qed.

Lemma length_list_byte_of_string s :
  length (String.list_byte_of_string s) = String.length s.
Proof.
  unfold String.list_byte_of_string. rewrite List.length_map.
  induction s as [|a s IH]; simpl; [done | by rewrite IH].
Qed.

Lemma dec_string_enc s rest :
  fits (String.length s) = true -> dec_string (enc_string s ++ rest) = Some (s, rest).
Proof.
  intros Hfit. unfold dec_string, enc_string.
  rewrite dec_bytes_enc by (by rewrite length_list_byte_of_string).
  by rewrite String.string_of_list_byte_of_string.
Qed.

Lemma dec_elems_enc {A} (e : A -> list byte) (d : parser A) (l : list A) : forall rest,
  Forall (fun a => forall rest, d (e a ++ rest) = Some (a, rest)) l ->
  dec_elems d (length l) (concat (map e l) ++ rest) = Some (l, rest).
Proof.
  induction l as [|a l IH]; intros rest Hall; simpl; [done|].
  apply Forall_cons in Hall as [Ha Hall].
  rewrite <- app_assoc, Ha, IH by done. done.
Qed.

Lemma dec_slice_enc {A} (e : A -> list byte) (d : parser A) (l : list A) rest :
  fits (length l) = true ->
  Forall (fun a => forall rest, d (e a ++ rest) = Some (a, rest)) l ->
  dec_slice d (enc_slice e l ++ rest) = Some (l, rest).
Proof.
  intros Hfit%fits_lt Hall. unfold dec_slice, enc_slice.
  rewrite <- app_assoc, dec_uint_enc by done.
  rewrite Nat2N.id. by apply dec_elems_enc.
Qed.

Lemma dec_array_enc bs rest :
  length bs = 24%nat -> dec_array 24 (enc_array bs ++ rest) = Some (bs, rest).
Proof.
  intros Hlen. unfold dec_array, enc_array, enc_slice.
  rewrite <- app_assoc, dec_uint_enc by (rewrite Hlen; done).
  rewrite Nat2N.id, decide_True by done. rewrite <- Hlen.
  apply (dec_elems_enc (fun b => enc_uint (Byte.to_N b))).
  apply Forall_forall. intros b _ rest'. apply dec_uint8_enc.
Qed.

Lemma dec_entry_enc kv rest :
  fits (String.length kv.1) = true -> fits (String.length kv.2) = true ->
  dec_entry (enc_entry kv ++ rest) = Some (kv, rest).
Proof.
  intros H1 H2. unfold dec_entry, enc_entry. destruct kv as [k v]. simpl in *.
  by rewrite <- app_assoc, !dec_string_enc.
Qed.

End wire_values.

Section wire_structs.
Context `{MapOrder}.

Local Arguments enc_uint : simpl never.
Local Arguments dec_uint : simpl never.
Local Arguments enc_string : simpl never.
Local Arguments dec_string : simpl never.
Local Arguments enc_int : simpl never.
Local Arguments dec_int : simpl never.
Local Arguments enc_bytes : simpl never.
Local Arguments dec_bytes : simpl never.
Local Arguments enc_slice : simpl never.
Local Arguments dec_slice : simpl never.
Local Arguments enc_array : simpl never.
Local Arguments dec_array : simpl never.
Local Arguments enc_map : simpl never.
Local Arguments dec_map : simpl never.

Lemma dec_struct_end {A} nfields (field : Z -> A -> parser A) fuel fieldnum acc rest :
  dec_struct nfields field (S fuel) fieldnum acc (enc_uint 0 ++ rest) = Some (acc, rest).
Proof. cbn [dec_struct]. by rewrite dec_uint_enc. Qed.

Lemma dec_struct_step {A} nfields (field : Z -> A -> parser A) fuel fieldnum delta
    acc acc' payload rest :
  (0 < delta < 2 ^ 64)%N ->
  fieldnum + Z.of_N delta < nfields ->
  field (fieldnum + Z.of_N delta) acc (payload ++ rest) = Some (acc', rest) ->
  dec_struct nfields field (S fuel) fieldnum acc (enc_uint delta ++ payload ++ rest) =
  dec_struct nfields field fuel (fieldnum + Z.of_N delta) acc' rest.
Proof.
  intros Hdelta Hnum Hfield. cbn [dec_struct].
  rewrite dec_uint_enc by lia.
  rewrite (proj2 (N.eqb_neq _ _)) by lia.
  rewrite (proj2 (Z.leb_gt _ _)) by lia.
  by rewrite Hfield.
Qed.

Lemma is_empty_string_true s : is_empty_string s = true -> s = ""%string.
Proof. by destruct s. Qed.

Lemma is_nil_true {A} (l : list A) : is_nil l = true -> l = [].
Proof. by destruct l. Qed.

Ltac case_empty s :=
  let E := fresh "E" in
  destruct (is_empty_string s) eqn:E;
  [apply is_empty_string_true in E; subst s|].

Ltac case_nil l :=
  let E := fresh "E" in
  destruct (is_nil l) eqn:E;
  [apply is_nil_true in E; subst l|].

Ltac struct_fields solve_field :=
  cbn [enc_field fst snd app]; rewrite <- ?app_assoc; cbn [app];
  repeat first
    [ rewrite dec_struct_end
    | erewrite dec_struct_step; [ | lia | lia | solve_field ] ].

Lemma dec_Event_enc e rest :
  Event_fits e = true -> dec_Event (enc_Event e ++ rest) = Some (e, rest).
Proof.
  destruct e as [a b c d]. unfold Event_fits, string_fits. simpl.
  intros [[[Ha Hb]%andb_prop Hc]%andb_prop Hd]%andb_prop.
  unfold dec_Event, enc_Event. cbn [Evtype OrigChecksum NewChecksum File].
  case_empty a; case_empty b; case_empty c; case_empty d;
  struct_fields ltac:(unfold Event_field; rewrite dec_string_enc by done; reflexivity);
  reflexivity.
Qed.

Lemma dec_Scan_enc sc rest :
  Scan_fits sc = true -> dec_Scan (enc_Scan sc ++ rest) = Some (sc, rest).
Proof.
  destruct sc as [t evs]. unfold Scan_fits, int64. simpl.
  intros [[[Hlo%Z.leb_le Hhi%Z.ltb_lt]%andb_prop Hlen]%andb_prop Hevs]%andb_prop.
  assert (Forall (fun e => forall rest, dec_Event (enc_Event e ++ rest) = Some (e, rest)) evs)
    as Hdec.
  { apply Forall_forall. intros e He rest'. apply dec_Event_enc.
    rewrite forallb_forall in Hevs. apply Hevs. by apply list_elem_of_In. }
  unfold dec_Scan, enc_Scan. cbn [Timestamp Events].
  destruct (Z.eqb_spec t 0) as [->|Ht]; case_nil evs;
  struct_fields ltac:(unfold Scan_field;
                      first [ rewrite dec_int_enc by lia
                            | rewrite dec_slice_enc by done ]; reflexivity);
  reflexivity.
Qed.

Lemma map_of_entries_insert (l : list (string * string)) :
  forall m : gmap string string,
  foldl (fun acc kv => <[kv.1 := kv.2]> acc) m l =
  foldl (fun acc kv => <[kv.1 := kv.2]> acc) ∅ l ∪ m.
Proof.
  induction l as [|[k v] l IH] using rev_ind; intros m.
  - simpl. by rewrite (left_id_L ∅ (∪)).
  - rewrite !foldl_app. simpl. rewrite IH. by rewrite insert_union_l.
Qed.

(** Storing the entries of a map in any order gives the map back. *)
Lemma map_of_entries_perm (m : gmap string string) l :
  l ≡ₚ map_to_list m -> map_of_entries l = m.
Proof.
  intros Hperm. unfold map_of_entries.
  assert (NoDup l.*1) as Hnd.
  { rewrite Hperm. apply NoDup_fst_map_to_list. }
  rewrite <- (list_to_map_to_list m).
  rewrite <- (list_to_map_proper l (map_to_list m) Hnd Hperm).
  clear Hperm. induction l as [|[k v] l IH]; [done|].
  apply NoDup_cons in Hnd as [Hk Hnd]. simpl.
  rewrite map_of_entries_insert, IH by done.
  rewrite <- insert_union_r by (by apply not_elem_of_list_to_map_1).
  by rewrite (right_id_L ∅ (∪)).
Qed.

Lemma dec_map_enc (m : gmap string string) rest :
  map_fits m = true -> dec_map (enc_map m ++ rest) = Some (m, rest).
Proof.
  unfold map_fits. intros [Hsize Hall%bool_decide_eq_true]%andb_prop.
  unfold dec_map, enc_map. pose proof (mapiter_perm m) as Hperm.
  rewrite dec_slice_enc.
  - by rewrite (map_of_entries_perm m).
  - by rewrite Hperm, length_map_to_list.
  - apply Forall_forall. intros [k v] Hin rest'.
    rewrite Hperm in Hin. apply elem_of_map_to_list in Hin.
    destruct (Hall k v Hin) as [Hk Hv]. by apply dec_entry_enc.
Qed.

(** Decoding the encoding of a sentinel gives the sentinel. *)
Lemma gob_Sentinel_roundtrip s :
  Sentinel_fits s = true -> gob_decode_Sentinel (enc_Sentinel s) = Ok s.
Proof.
  destruct s as [wfs known ps]. unfold Sentinel_fits. simpl.
  intros [[[[Hwl Hwfs]%andb_prop Hknown]%andb_prop Hpl]%andb_prop Hps]%andb_prop.
  assert (Forall (fun w => forall rest, dec_string (enc_string w ++ rest) = Some (w, rest)) wfs)
    as Hdw.
  { apply Forall_forall. intros w Hw rest'. apply dec_string_enc.
    rewrite forallb_forall in Hwfs. apply Hwfs. by apply list_elem_of_In. }
  assert (Forall (fun sc => forall rest, dec_Scan (enc_Scan sc ++ rest) = Some (sc, rest)) ps)
    as Hds.
  { apply Forall_forall. intros sc Hsc rest'. apply dec_Scan_enc.
    rewrite forallb_forall in Hps. apply Hps. by apply list_elem_of_In. }
  unfold gob_decode_Sentinel. rewrite <- (app_nil_r (enc_Sentinel _)).
  assert (dec_struct 3 Sentinel_field 4 (-1) zero_Sentinel
            (enc_Sentinel (mkSentinel wfs known ps) ++ [])
          = Some (mkSentinel wfs known ps, [])) as ->; [|done].
  unfold enc_Sentinel, zero_Sentinel. cbn [WatchFiles KnownObjects PriorScans].
  case_nil wfs; destruct known as [m|]; case_nil ps;
  struct_fields ltac:(unfold Sentinel_field;
                      first [ rewrite dec_slice_enc by done
                            | rewrite dec_map_enc by done ]; reflexivity);
  reflexivity.
Qed.

(** Decoding the encoding of a container gives the container. *)
Lemma gob_SentinelFile_roundtrip sf :
  fits (length (Data sf)) = true ->
  length (Nonce sf) = 24%nat -> length (Salt sf) = 24%nat ->
  gob_decode_SentinelFile (enc_SentinelFile sf) = Ok sf.
Proof.
  destruct sf as [data nonce salt]. simpl. intros Hd Hn Hs.
  unfold gob_decode_SentinelFile. rewrite <- (app_nil_r (enc_SentinelFile _)).
  assert (dec_struct 3 SentinelFile_field 4 (-1) zero_SentinelFile
            (enc_SentinelFile (mkSentinelFile data nonce salt) ++ [])
          = Some (mkSentinelFile data nonce salt, [])) as ->; [|done].
  unfold enc_SentinelFile, zero_SentinelFile. cbn [Data Nonce Salt].
  case_nil data;
  struct_fields ltac:(unfold SentinelFile_field;
                      first [ rewrite dec_bytes_enc by done
                            | rewrite dec_array_enc by done ]; reflexivity);
  reflexivity.
Qed.

End wire_structs.

(** * Save and Open *)

Section persistence_facts.
Context `{MapOrder} `{Crypto}.

Lemma copy_secret_length key : length (copy_secret key) = 32%nat.
Proof. unfold copy_secret. rewrite length_app, length_take, length_replicate. lia. Qed.

Lemma read_random_ok w w' bs :
  read_random w = (w', Ok bs) ->
  length bs = 24%nat /\ disk w' = disk w /\ refused w' = refused w.
Proof.
  unfold read_random. destruct (decide (24 ≤ length (entropy w))%nat) as [Hlen|Hlen];
    [|discriminate].
  intros [= <- <-]. simpl. rewrite length_take. split; [lia | done].
Qed.

(** What [Save] leaves on the disk when it succeeds. *)
Lemma Save_ok s path password w w' :
  Save s path password w = (w', Ok tt) ->
  exists nonce salt out,
    length nonce = 24%nat /\ length salt = 24%nat /\
    seal_container s password nonce salt = Ok out /\
    (path ∉ refused w) /\
    disk w' = <[path := enc_SentinelFile out]> (disk w).
Proof.
  unfold Save. destruct (read_random w) as [w1 [nonce|e|]] eqn:Hr1; try discriminate.
  destruct (read_random w1) as [w2 [salt|e|]] eqn:Hr2; try discriminate.
  apply read_random_ok in Hr1 as (Hn & Hd1 & Hf1).
  apply read_random_ok in Hr2 as (Hs & Hd2 & Hf2).
  destruct (seal_container s password nonce salt) as [out|e|] eqn:Hseal; try discriminate.
  destruct (decide (path ∈ refused w2)) as [Hin|Hnin]; [discriminate|].
  destruct (short_write w2 !! path) as [written|]; [discriminate|].
  intros [= <-]. exists nonce, salt, out. simpl.
  rewrite Hd2, Hd1. rewrite Hf2, Hf1 in Hnin. done.
Qed.

(** The container [Save] sealed opens, with the same password, to the
    sentinel that was saved. *)
Lemma open_sealed s password nonce salt out :
  Sentinel_fits s = true ->
  length nonce = 24%nat ->
  seal_container s password nonce salt = Ok out ->
  open_container out password = Ok s.
Proof.
  intros Hfits Hn. unfold seal_container, open_container.
  destruct (scrypt_Key _ salt _ _ _ _) as [key|e|] eqn:Hkey; try discriminate.
  intros [= <-]. simpl. rewrite Hkey.
  unfold secretbox_Seal, secretbox_Open.
  rewrite decide_True by (rewrite length_app; lia).
  rewrite drop_app_length.
  rewrite secretbox_open_seal by (done || apply copy_secret_length).
  simpl. by apply gob_Sentinel_roundtrip.
Qed.

Lemma sealed_container_shape s password nonce salt out :
  length nonce = 24%nat ->
  seal_container s password nonce salt = Ok out ->
  Nonce out = nonce /\ Salt out = salt /\ length (Data out) = sealed_size s.
Proof.
  intros Hn. unfold seal_container, sealed_size.
  destruct (scrypt_Key _ salt _ _ _ _) as [key|e|]; try discriminate.
  intros [= <-]. simpl. unfold secretbox_Seal.
  rewrite length_app, secretbox_seal_length by (done || apply copy_secret_length).
  rewrite Hn. repeat split. lia.
Qed.

Lemma Save_then_Open s path password w w' :
  Sentinel_fits s = true -> fits (sealed_size s) = true ->
  Save s path password w = (w', Ok tt) ->
  Open path password w' = Ok s.
Proof.
  intros Hfits Hsealed Hsave.
  apply Save_ok in Hsave as (nonce & salt & out & Hn & Hs & Hseal & _ & Hdisk).
  destruct (sealed_container_shape _ _ _ _ _ Hn Hseal) as (Hno & Hso & Hlen).
  unfold Open. rewrite Hdisk, lookup_insert_eq.
  rewrite gob_SentinelFile_roundtrip.
  - by apply (open_sealed s password nonce salt).
  - rewrite Hlen. exact Hsealed.
  - by rewrite Hno.
  - by rewrite Hso.
Qed.

(** [Open] does not read the first bytes of [Data], the copy of the nonce. *)
Lemma open_ignores_prefix sf password i b :
  (i < length (Nonce sf))%nat ->
  open_container (with_Data_byte i b sf) password = open_container sf password.
Proof.
  intros Hi. unfold open_container, with_Data_byte. simpl.
  by rewrite length_insert, drop_insert_lt.
Qed.

(** A scan on a state whose map was made never panics. *)
Lemma outcome_no_panic `{Hasher} l : forall m evs, (outcome l (Some m) evs).2 ≠ Panic.
Proof.
  induction l as [|[path [n|]] rest IH]; intros m evs; simpl; try done.
  destruct n as [content| |entries]; try done.
Qed.

(** On a nil map, the first file that is digested makes the scan panic. *)
Lemma nil_map_scan_panics `{Hasher} fs now wf wfs ps content :
  fs !! wf = Some (RegFile content) ->
  (Sentinel_Scan fs now (mkSentinel (wf :: wfs) None ps)).2 = Panic.
Proof.
  intros Hfs. rewrite Scan_outcome.
  unfold scan_visits, watch_visits. cbn [flat_map]. rewrite Hfs. reflexivity.
Qed.

Lemma Scan_no_panic `{Hasher} fs now s m :
  KnownObjects s = Some m -> (Sentinel_Scan fs now s).2 ≠ Panic.
Proof.
  destruct s as [wfs known ps]. simpl. intros ->. rewrite Scan_outcome.
  pose proof (outcome_no_panic (scan_visits fs wfs) m []) as Hnp.
  destruct (outcome (scan_visits fs wfs) (Some m) []) as [known' [evs|e|]]; done.
Qed.

End persistence_facts.

(** * The claims on failure, sealing and loading *)

Section failure_claims.
Context `{Hasher} `{MapOrder} `{Crypto}.

Lemma outcome_nil_map l : forall evs, (outcome l None evs).1 = None.
Proof.
  induction l as [|[path [n|]] rest IH]; intros evs; simpl; try done.
  by destruct n.
Qed.

(** C1. When a scan fails on some file, [Scan] returns the error, the
    watch set is unchanged and no record is appended; the known objects are
    not restored: they hold the digests of the files that the scan visited
    before the one it failed on, stored one after the other, so that every
    entry is what it was or the digest of such a file.  The scan command
    returns the error without saving, so the file of the database stays as
    it was. *)
Theorem C1_failed_scan_keeps_history fs now s s' e :
  Sentinel_Scan fs now s = (s', Err e) ->
  WatchFiles s' = WatchFiles s /\
  PriorScans s' = PriorScans s /\
  (exists visited failed rest,
     scan_visits fs (WatchFiles s) = visited ++ failed :: rest /\
     Forall (fun v => is_file v = true) visited /\
     visit_error failed = Some e /\
     KnownObjects s' = store_visits visited <$> KnownObjects s) /\
  (forall path,
     known_at s' path = known_at s path \/
     exists content, (path, Some (RegFile content)) ∈ scan_visits fs (WatchFiles s) /\
                     known_at s' path = Some (sha256_hex content)) /\
  (forall dbPath pass w,
     Open dbPath pass w = Ok s -> scanCmd dbPath pass fs now w = (w, Err e)).
Proof.
  intros Hscan. split; [|split; [|split; [|split]]].
  - by rewrite <- (Scan_WatchFiles fs now s), Hscan.
  - destruct s as [wfs known ps]. rewrite Scan_outcome in Hscan.
    destruct (outcome (scan_visits fs wfs) known []) as [known' [evs|e'|]];
      by injection Hscan as <- ?.
  - destruct s as [wfs known ps]. rewrite Scan_outcome in Hscan. simpl.
    destruct (outcome (scan_visits fs wfs) known []) as [known' [evs|e'|]] eqn:Hout;
      try discriminate.
    injection Hscan as <- <-. simpl.
    destruct (outcome_err (scan_visits fs wfs) known [] e')
      as (visited & failed & rest & Hsplit & Hfiles & Herr & Hknown);
      [by rewrite Hout|].
    rewrite Hout in Hknown. by exists visited, failed, rest.
  - intros path. destruct s as [wfs known ps]. rewrite Scan_outcome in Hscan.
    unfold known_at. simpl.
    destruct (outcome (scan_visits fs wfs) known []) as [known' [evs|e'|]] eqn:Hout;
      try discriminate.
    injection Hscan as <- <-. simpl.
    destruct known as [m|].
    + destruct (outcome_frame (scan_visits fs wfs) m []) as (m' & Hm' & _).
      rewrite Hout in Hm'. simpl in Hm'. subst known'.
      apply (outcome_lookup (scan_visits fs wfs) m []). by rewrite Hout.
    + pose proof (outcome_nil_map (scan_visits fs wfs) []) as Hnil.
      rewrite Hout in Hnil. simpl in Hnil. subst known'. by left.
  - intros dbPath pass w Hopen. unfold scanCmd. by rewrite Hopen, Hscan.
Qed.

(** Whatever makes secretbox reject the box, [Open] answers with the one
    error "could not decrypt sentinel" and returns no sentinel.  The box is
    what follows the first 24 bytes of [Data]; those bytes are not read. *)
Lemma rejected_box_one_error path password w content sf key :
  disk w !! path = Some content ->
  gob_decode_SentinelFile content = Ok sf ->
  scrypt_Key (String.list_byte_of_string password) (Salt sf)
    scryptN scryptR scryptP keyLen = Ok key ->
  (length (Nonce sf) ≤ length (Data sf))%nat ->
  (secretbox_open (drop (length (Nonce sf)) (Data sf)) (Nonce sf) (copy_secret key) = None ->
   Open path password w = Err ErrDecrypt) /\
  (forall i b w2 content2,
     (i < length (Nonce sf))%nat ->
     disk w2 !! path = Some content2 ->
     gob_decode_SentinelFile content2 = Ok (with_Data_byte i b sf) ->
     Open path password w2 = Open path password w).
Proof.
  intros Hdisk Hdec Hkey Hlen. split.
  - intros Hreject. unfold Open. rewrite Hdisk, Hdec.
    unfold open_container, secretbox_Open. rewrite Hkey.
    rewrite decide_True by done. by rewrite Hreject.
  - intros i b w2 content2 Hi Hdisk2 Hdec2. unfold Open.
    rewrite Hdisk, Hdec, Hdisk2, Hdec2. by apply open_ignores_prefix.
Qed.

(** C3. A sentinel saved under a password is what [Open] loads from the
    written file with the same password. *)
Theorem C3_save_open_roundtrip s path password w w' :
  Sentinel_fits s = true ->
  fits (sealed_size s) = true ->
  Save s path password w = (w', Ok tt) ->
  Open path password w' = Ok s.
Proof. apply Save_then_Open. Qed.

(** C4. Decoding the encoding of a sentinel gives the sentinel back: the
    watch set in order, the known objects whatever the order in which the
    map was ranged over, the records in order with their events, event
    types and both checksums, empty ones included. *)
Theorem C4_gob_roundtrip s :
  Sentinel_fits s = true -> gob_decode_Sentinel (enc_Sentinel s) = Ok s.
Proof. apply gob_Sentinel_roundtrip. Qed.

(** C10. A sentinel whose known objects are an empty map, as [New] makes
    it, is loaded back with an empty map that is not nil: it takes
    assignments, and no scan of the loaded sentinel panics. *)
Theorem C10_loaded_map_accepts_assignments s path password w w' :
  KnownObjects s = Some ∅ ->
  Sentinel_fits s = true ->
  fits (sealed_size s) = true ->
  Save s path password w = (w', Ok tt) ->
  exists s',
    Open path password w' = Ok s' /\
    KnownObjects s' = Some ∅ /\
    (forall key v, (map_set key v s').2 = Ok tt) /\
    (forall fs now, (Sentinel_Scan fs now s').2 ≠ Panic).
Proof.
  intros Hempty Hfits Hsealed Hsave. exists s.
  split; [by apply (Save_then_Open s path password w w')|].
  split; [done|]. split.
  - intros key v. unfold map_set. by rewrite Hempty.
  - intros fs now. by apply (Scan_no_panic fs now s ∅).
Qed.

End failure_claims.

(** * A database that was tampered with *)

Section tampering.
Context `{MapOrder} `{Crypto} `{!Authentic}.

Lemma Open_stored w path sf password :
  stored w path sf -> Open path password w = open_container sf password.
Proof. intros (content & Hdisk & Hdec). unfold Open. by rewrite Hdisk, Hdec. Qed.

(** The container that [Save] wrote. *)
Lemma Save_stored s path password w0 w out key :
  fits (sealed_size s) = true ->
  Save s path password w0 = (w, Ok tt) ->
  stored w path out ->
  scrypt_Key (String.list_byte_of_string password) (Salt out)
    scryptN scryptR scryptP keyLen = Ok key ->
  length (Nonce out) = 24%nat /\ length (Salt out) = 24%nat /\
  Data out = Nonce out ++ secretbox_seal (enc_Sentinel s) (Nonce out) (copy_secret key).
Proof.
  intros Hsealed Hsave (content & Hdisk & Hdec) Hkey.
  apply Save_ok in Hsave as (nonce & salt & out0 & Hn & Hs & Hseal & _ & Hdisk0).
  destruct (sealed_container_shape _ _ _ _ _ Hn Hseal) as (Hno & Hso & Hlen).
  rewrite Hdisk0, lookup_insert_eq in Hdisk. injection Hdisk as <-.
  rewrite gob_SentinelFile_roundtrip in Hdec;
    [| rewrite Hlen; exact Hsealed | by rewrite Hno | by rewrite Hso].
  injection Hdec as <-. rewrite Hno, Hso. split; [done|]. split; [done|].
  rewrite Hso in Hkey. unfold seal_container in Hseal. rewrite Hkey in Hseal.
  by injection Hseal as <-.
Qed.

(** C2. On the database that [Save] wrote, and with secretbox's
    authenticator taken as exact, [Open] answers with the one error "could
    not decrypt sentinel", and returns no sentinel, in each of these cases:
    a password whose derived key is not the one the box was sealed with; a
    changed byte of the box, which is what follows the first 24 bytes of
    [Data]; a changed byte of the nonce; a changed byte of the salt, the
    derived key being another one.  The first 24 bytes of [Data], a copy of
    the nonce, are not read: with one of them changed [Open] returns what
    it returned before. *)
Theorem C2_open_rejection s path password w0 w out key :
  fits (sealed_size s) = true ->
  Save s path password w0 = (w, Ok tt) ->
  stored w path out ->
  scrypt_Key (String.list_byte_of_string password) (Salt out)
    scryptN scryptR scryptP keyLen = Ok key ->
  (forall password' key',
     scrypt_Key (String.list_byte_of_string password') (Salt out)
       scryptN scryptR scryptP keyLen = Ok key' ->
     copy_secret key' ≠ copy_secret key ->
     Open path password' w = Err ErrDecrypt) /\
  (forall w' i b,
     (24 ≤ i < length (Data out))%nat -> Data out !! i ≠ Some b ->
     stored w' path (with_Data_byte i b out) ->
     Open path password w' = Err ErrDecrypt) /\
  (forall w' i b,
     (i < 24)%nat -> Nonce out !! i ≠ Some b ->
     stored w' path (with_Nonce_byte i b out) ->
     Open path password w' = Err ErrDecrypt) /\
  (forall w' i b key',
     stored w' path (with_Salt_byte i b out) ->
     scrypt_Key (String.list_byte_of_string password) (<[i := b]> (Salt out))
       scryptN scryptR scryptP keyLen = Ok key' ->
     copy_secret key' ≠ copy_secret key ->
     Open path password w' = Err ErrDecrypt) /\
  (forall w' i b,
     (i < 24)%nat ->
     stored w' path (with_Data_byte i b out) ->
     Open path password w' = Open path password w).
Proof.
  intros Hsealed Hsave Hstored Hkey.
  destruct (Save_stored s path password w0 w out key Hsealed Hsave Hstored Hkey)
    as (Hn & Hs & Hdata).
  destruct out as [data nonce salt]. cbn [Data Nonce Salt] in *. subst data.
  split; [|split; [|split; [|split]]].
  - intros password' key' Hkey' Hkeys.
    rewrite (Open_stored w path _ password' Hstored).
    unfold open_container. cbn [Data Nonce Salt]. rewrite Hkey'.
    rewrite decide_True by (rewrite length_app; lia).
    rewrite drop_app_length. unfold secretbox_Open.
    by rewrite (other_key_rejected _ _ _ _ _ _ _ _ Hn Hkey Hkey' Hkeys).
  - intros w' i b Hi Hbyte Hstored'.
    rewrite (Open_stored w' path _ password Hstored').
    unfold open_container, with_Data_byte. cbn [Data Nonce Salt]. rewrite Hkey.
    rewrite length_app in Hi.
    rewrite decide_True by (rewrite length_insert, length_app; lia).
    rewrite drop_insert_ge, drop_app_length by lia.
    rewrite lookup_app_r in Hbyte by lia.
    unfold secretbox_Open. rewrite Hn.
    rewrite changed_box_rejected;
      [done | done | apply copy_secret_length | lia | by rewrite <- Hn].
  - intros w' i b Hi Hbyte Hstored'.
    rewrite (Open_stored w' path _ password Hstored').
    unfold open_container, with_Nonce_byte. cbn [Data Nonce Salt]. rewrite Hkey.
    rewrite length_insert.
    rewrite decide_True by (rewrite length_app; lia).
    rewrite drop_app_length. unfold secretbox_Open.
    by rewrite changed_nonce_rejected by (done || apply copy_secret_length).
  - intros w' i b key' Hstored' Hkey' Hkeys.
    rewrite (Open_stored w' path _ password Hstored').
    unfold open_container, with_Salt_byte. cbn [Data Nonce Salt]. rewrite Hkey'.
    rewrite decide_True by (rewrite length_app; lia).
    rewrite drop_app_length. unfold secretbox_Open.
    by rewrite (other_key_rejected _ _ _ _ _ _ _ _ Hn Hkey Hkey' Hkeys).
  - intros w' i b Hi Hstored'.
    rewrite (Open_stored w' path _ password Hstored').
    rewrite (Open_stored w path _ password Hstored).
    apply open_ignores_prefix. cbn [Nonce]. lia.
Qed.

End tampering.

(** * The claims on sample data *)

Section runs.

(** C1 as first stated does not hold: the scan of two watched files, the
    second of which is missing, returns the error of [os.Stat] and has
    already stored the digest of the first. *)
Lemma C1_counterexample :
  Sentinel_Scan missing_fs 7 missing_state = (missing_after, Err (ErrStat "/w/b")) /\
  known_at missing_state "/w/a" = None /\
  known_at missing_after "/w/a" = Some "one"%string /\
  missing_after ≠ missing_state.
Proof.
  split; [vm_compute; reflexivity|]. split; [vm_compute; reflexivity|].
  split; [vm_compute; reflexivity|].
  intros Heq. apply (f_equal (fun s => known_at s "/w/a")) in Heq.
  vm_compute in Heq. discriminate.
Qed.

(** The failed scan above, and the scan command on the saved state. *)
Lemma C1_failed_scan_witness :
  Sentinel_Scan missing_fs 7 missing_state = (missing_after, Err (ErrStat "/w/b")) /\
  WatchFiles missing_after = WatchFiles missing_state /\
  PriorScans missing_after = PriorScans missing_state /\
  scanCmd "spid.db" "pw" missing_fs 7 missing_saved = (missing_saved, Err (ErrStat "/w/b")).
Proof.
  assert (Sentinel_Scan missing_fs 7 missing_state
          = (missing_after, Err (ErrStat "/w/b"))) as Hrun by (vm_compute; reflexivity).
  split; [exact Hrun|].
  destruct (C1_failed_scan_keeps_history missing_fs 7 missing_state missing_after _ Hrun)
    as (Hwatch & Hprior & _ & _ & Hcmd).
  split; [exact Hwatch|]. split; [exact Hprior|].
  apply Hcmd. vm_compute. reflexivity.
Defined.

(** C2 as first stated does not hold: [Save] puts a copy of the nonce in
    front of the box, and the saved file in which the first byte of that
    copy is changed loads as before, with the right password. *)
Lemma C2_counterexample :
  Save sample_scanned "spid.db" "pw" sample_world = (sample_saved, Ok tt) /\
  disk sample_saved !! "spid.db"%string = Some (enc_SentinelFile sample_container) /\
  enc_SentinelFile sample_container !! 4%nat = Some Byte.x01 /\
  disk sample_tampered !! "spid.db"%string
    = Some (<[4%nat := Byte.xff]> (enc_SentinelFile sample_container)) /\
  gob_decode_SentinelFile (<[4%nat := Byte.xff]> (enc_SentinelFile sample_container))
    = Ok (with_Data_byte 0 Byte.xff sample_container) /\
  Open "spid.db" "pw" sample_tampered = Ok sample_scanned.
Proof. repeat split; vm_compute; reflexivity. Qed.

(** The state after a first scan, saved and loaded. *)
Lemma C3_save_open_roundtrip_witness :
  Save sample_scanned "spid.db" "pw" sample_world = (sample_saved, Ok tt) /\
  Open "spid.db" "pw" sample_saved = Ok sample_scanned.
Proof.
  assert (Save sample_scanned "spid.db" "pw" sample_world = (sample_saved, Ok tt))
    as Hsave by (vm_compute; reflexivity).
  split; [exact Hsave|].
  apply (C3_save_open_roundtrip sample_scanned "spid.db" "pw" sample_world sample_saved).
  - vm_compute. reflexivity.
  - vm_compute. reflexivity.
  - exact Hsave.
Defined.

(** The state after a first scan, encoded and decoded. *)
Lemma C4_gob_roundtrip_witness :
  gob_decode_Sentinel (enc_Sentinel sample_scanned) = Ok sample_scanned.
Proof. apply C4_gob_roundtrip. vm_compute. reflexivity. Defined.

(** Three files, two of them nested: three creation events. *)
Lemma C5_first_scan_of_directory_witness :
  exists s' evs,
    Sentinel_Scan sample_fs 5 (New (mkConfig ["/w/dir"%string])) = (s', Ok evs) /\
    length evs = 3%nat /\
    evs = map created (files "/w/dir" sample_tree).
Proof.
  destruct (C5_first_scan_of_directory sample_fs 5 "/w/dir"
              [("a.txt"%string, RegFile (bytes_of "alpha"));
               ("sub"%string,
                Dir [("b.txt"%string, RegFile (bytes_of "beta"));
                     ("deep"%string, Dir [("c.txt"%string, RegFile (bytes_of "gamma"))])])])
    as (s' & evs & Hscan & Hlen & Hevs & _); [vm_compute; reflexivity..|].
  exists s', evs. split; [exact Hscan|]. split; [exact Hlen | exact Hevs].
Defined.

(** The second scan of the same files. *)
Lemma C7_second_scan_no_events_witness :
  Sentinel_Scan sample_fs 5 sample_state
    = (sample_scanned, Ok (map created (files "/w/dir" sample_tree
                                         ++ [("/w/one"%string, RegFile (bytes_of "1"))]))) /\
  exists s2, Sentinel_Scan sample_fs 6 sample_scanned = (s2, Ok []).
Proof.
  assert (Sentinel_Scan sample_fs 5 sample_state
          = (sample_scanned,
             Ok (map created (files "/w/dir" sample_tree
                              ++ [("/w/one"%string, RegFile (bytes_of "1"))]))))
    as Hfirst by (vm_compute; reflexivity).
  split; [exact Hfirst|].
  eapply (C7_second_scan_no_events sample_fs 5 6 sample_state sample_scanned);
    [|exact Hfirst].
  apply (bool_decide_eq_true_1 _). vm_compute. reflexivity.
Defined.

(** Three scans, three records. *)
Lemma C8_history_accumulates_witness :
  exists recs,
    PriorScans (run_scans sample_scans sample_state).1 = PriorScans sample_state ++ recs /\
    length recs = 3%nat /\
    map Timestamp recs = [5; 6; 9].
Proof.
  destruct (C8_history_accumulates sample_scans sample_state) as [_ Hall].
  destruct Hall as (recs & Hrecs & Hlen & Htimes & _).
  - vm_compute. repeat constructor.
  - exists recs. split; [exact Hrecs|]. split; [exact Hlen | exact Htimes].
Defined.

(** A fresh sentinel, saved, loaded and scanned. *)
Lemma C10_loaded_map_accepts_assignments_witness :
  exists s',
    Open "spid.db" "pw" fresh_saved = Ok s' /\
    KnownObjects s' = Some ∅ /\
    (Sentinel_Scan sample_fs 5 s').2 ≠ Panic.
Proof.
  destruct (C10_loaded_map_accepts_assignments sample_state "spid.db" "pw"
              sample_world fresh_saved)
    as (s' & Hopen & Hmap & _ & Hscan); [vm_compute; reflexivity..|].
  exists s'. split; [exact Hopen|]. split; [exact Hmap | apply Hscan].
Defined.

End runs.

(** * Further properties of the code *)

Section scan_results.
Context `{Hasher}.

Lemma outcome_ok_iff l : forall m evs,
  (exists evs', (outcome l (Some m) evs).2 = Ok evs') <->
  Forall (fun v => is_file v = true) l.
Proof.
  induction l as [|[path [n|]] rest IH]; intros m evs; simpl.
  - split; [constructor | eauto].
  - destruct n as [content| |entries]; simpl.
    + rewrite IH, Forall_cons. unfold is_file. simpl. tauto.
    + split; [by intros [? ?] | by intros [? _]%Forall_cons].
    + split; [by intros [? ?] | by intros [? _]%Forall_cons].
  - split; [by intros [? ?] | by intros [? _]%Forall_cons].
Qed.

(** X1. On a sentinel whose map was made, [Scan] returns events exactly
    when every path it reaches is a regular file that can be read: it
    succeeds on all such watch sets, and a watched path that is missing or
    a file that cannot be opened always makes it return an error. *)
Theorem X1_scan_succeeds_iff_all_readable fs now s m :
  KnownObjects s = Some m ->
  (exists evs, (Sentinel_Scan fs now s).2 = Ok evs) <->
  Forall (fun v => is_file v = true) (scan_visits fs (WatchFiles s)).
Proof.
  destruct s as [wfs known ps]. simpl. intros ->.
  rewrite <- (outcome_ok_iff (scan_visits fs wfs) m []). rewrite Scan_outcome.
  destruct (outcome (scan_visits fs wfs) (Some m) []) as [known' [evs|e|]]; simpl;
    split; intros [evs' Hevs]; try discriminate; eauto.
Qed.

Lemma outcome_panic_iff l : forall known evs,
  (outcome l known evs).2 = Panic <->
  known = None /\ exists v rest, l = v :: rest /\ is_file v = true.
Proof.
  intros known evs. destruct known as [m|].
  - split.
    + intros Hp. by destruct (outcome_no_panic l m evs).
    + by intros [? _].
  - destruct l as [|[path [[content| |entries]|]] rest]; simpl.
    + split; [done | by intros [_ (v & rest & ? & _)]].
    + split; [|done]. intros _. split; [done|]. by eexists _, _.
    + split; [done|]. by intros [_ (v & rest' & [= <- _] & ?)].
    + split; [done|]. by intros [_ (v & rest' & [= <- _] & ?)].
    + split; [done|]. by intros [_ (v & rest' & [= <- _] & ?)].
Qed.

(** X2. [Scan] panics in one case only: the map of known objects is nil,
    as in a sentinel that [New] did not make, and the first path the scan
    reaches is a regular file that can be read; the assignment to the map
    after the first digest is what panics. *)
Theorem X2_scan_panics_iff_nil_map fs now s :
  (Sentinel_Scan fs now s).2 = Panic <->
  KnownObjects s = None /\
  exists v rest, scan_visits fs (WatchFiles s) = v :: rest /\ is_file v = true.
Proof.
  destruct s as [wfs known ps]. simpl.
  rewrite <- (outcome_panic_iff (scan_visits fs wfs) known []). rewrite Scan_outcome.
  by destruct (outcome (scan_visits fs wfs) known []) as [known' [evs|e|]].
Qed.

Lemma firsts_subseteq l v : v ∈ firsts l -> v ∈ l.
Proof.
  revert v. induction l as [|u rest IH]; intros v Hv; simpl in Hv; [done|].
  apply elem_of_cons in Hv as [->|Hv]; [apply list_elem_of_here|].
  apply list_elem_of_further, IH. by apply list_elem_of_filter in Hv as [_ ?].
Qed.

(** Once the digest of a path is stored, the later visits of the path give
    no event, and the visits of other paths are classified as before. *)
Lemma classify_after_store m path sum (l : list (string * option node)) :
  (forall v, v ∈ l -> v.1 = path -> visit_digest v = sum) ->
  flat_map (fun v => classify (<[path := sum]> m) v.1 (visit_digest v)) l =
  flat_map (fun v => classify m v.1 (visit_digest v))
           (filter (fun u => u.1 ≠ path) l).
Proof.
  induction l as [|v rest IH]; intros Hsame; [done|].
  rewrite filter_cons. simpl.
  rewrite IH by (intros u Hu; apply Hsame; by apply list_elem_of_further).
  destruct (decide (v.1 ≠ path)) as [Hne|Heq].
  - simpl. f_equal. unfold classify. by rewrite lookup_insert_ne.
  - apply dec_stable in Heq.
    rewrite (Hsame v (list_elem_of_here _ _) Heq), Heq.
    unfold classify. rewrite lookup_insert_eq. by rewrite decide_True.
Qed.

Lemma outcome_events_exact l : forall m evs,
  consistent l ->
  Forall (fun v => is_file v = true) l ->
  outcome l (Some m) evs = (Some (store_visits l m), Ok (evs ++ scan_events m l)).
Proof.
  induction l as [|[path n] rest IH]; intros m evs Hcons Hfiles.
  - simpl. by rewrite app_nil_r.
  - apply Forall_cons in Hfiles as [Hfile Hfiles].
    destruct n as [[content| |entries]|]; try discriminate.
    assert (consistent rest) as Hcons'.
    { intros q n1 n2 H1 H2. apply (Hcons q); by apply list_elem_of_further. }
    cbn [outcome]. rewrite IH by done.
    unfold scan_events. cbn [firsts flat_map fst snd].
    change (visit_digest (path, Some (RegFile content))) with (sha256_hex content).
    rewrite classify_after_store; [by rewrite <- app_assoc|].
    intros v Hv Hpath. apply firsts_subseteq in Hv. destruct v as [q nv].
    simpl in Hpath. subst q.
    assert (nv = Some (RegFile content)) as ->; [|done].
    apply (Hcons path); [by apply list_elem_of_further | apply list_elem_of_here].
Qed.

(** X3. When every path a scan reaches is a readable regular file and each
    path names one file, the scan classifies every path once, at its first
    visit and against the known objects as they were before the scan: the
    events are those classifications in order, they are returned and
    recorded with the time of the scan, and the digests of all visited files
    are stored. *)
Theorem X3_scan_classifies_each_path_once fs now s m :
  KnownObjects s = Some m ->
  consistent (scan_visits fs (WatchFiles s)) ->
  Forall (fun v => is_file v = true) (scan_visits fs (WatchFiles s)) ->
  Sentinel_Scan fs now s =
  (mkSentinel (WatchFiles s)
     (Some (store_visits (scan_visits fs (WatchFiles s)) m))
     (PriorScans s ++ [mkScan now (scan_events m (scan_visits fs (WatchFiles s)))]),
   Ok (scan_events m (scan_visits fs (WatchFiles s)))).
Proof.
  destruct s as [wfs known ps]. simpl. intros -> Hcons Hfiles.
  rewrite Scan_outcome, outcome_events_exact by done. reflexivity.
Qed.

(** X4. Whatever a scan returns, it removes no entry from the known
    objects: every entry is what it was, or it is the digest of a file that
    the scan reaches; a path that was known stays known. *)
Theorem X4_scan_never_forgets fs now s path :
  (known_at (Sentinel_Scan fs now s).1 path = known_at s path \/
   exists content,
     (path, Some (RegFile content)) ∈ scan_visits fs (WatchFiles s) /\
     known_at (Sentinel_Scan fs now s).1 path = Some (sha256_hex content)) /\
  (is_Some (known_at s path) -> is_Some (known_at (Sentinel_Scan fs now s).1 path)).
Proof.
  assert (known_at (Sentinel_Scan fs now s).1 path = known_at s path \/
          exists content,
            (path, Some (RegFile content)) ∈ scan_visits fs (WatchFiles s) /\
            known_at (Sentinel_Scan fs now s).1 path = Some (sha256_hex content))
    as Hcases.
  { destruct s as [wfs known ps]. rewrite Scan_outcome. unfold known_at.
    destruct known as [m|].
    - destruct (outcome_frame (scan_visits fs wfs) m []) as (m' & Hm' & _).
      pose proof (outcome_lookup (scan_visits fs wfs) m [] m' Hm' path) as Hl.
      destruct (outcome (scan_visits fs wfs) (Some m) []) as [known' [evs|e|]];
        simpl in *; by subst known'.
    - pose proof (outcome_nil_map (scan_visits fs wfs) []) as Hnil.
      destruct (outcome (scan_visits fs wfs) None []) as [known' [evs|e|]];
        simpl in *; subst known'; by left. }
  split; [exact Hcases|].
  intros Hknown. destruct Hcases as [->|(c & _ & ->)]; [done | by eexists].
Qed.

(** After a successful scan the digests of the opened files are stored. *)
Lemma Scan_ok_stored fs now s s' evs path content :
  consistent (scan_visits fs (WatchFiles s)) ->
  Sentinel_Scan fs now s = (s', Ok evs) ->
  (path, Some (RegFile content)) ∈ scan_visits fs (WatchFiles s) ->
  known_at s' path = Some (sha256_hex content).
Proof.
  intros Hcons Hscan Hin. destruct s as [wfs known ps]. simpl in *.
  rewrite Scan_outcome in Hscan.
  destruct (outcome (scan_visits fs wfs) known []) as [known' [evs'|e|]] eqn:Hout;
    try discriminate.
  injection Hscan as <- <-. unfold known_at. simpl.
  destruct known as [m|].
  - destruct (outcome_frame (scan_visits fs wfs) m []) as (m' & Hm' & _).
    rewrite Hout in Hm'. simpl in Hm'. subst known'.
    by apply (outcome_ok_stored (scan_visits fs wfs) m [] evs').
  - destruct (scan_visits fs wfs) as [|[p [[c| |es]|]] rest]; try discriminate.
    by apply elem_of_nil in Hin.
Qed.

(** X5. After a scan that succeeds, each path naming one file, the known
    objects hold under the path of every file the scan opened the digest of
    that file as it is now. *)
Theorem X5_index_holds_current_digests fs now s s' evs path content :
  consistent (scan_visits fs (WatchFiles s)) ->
  Sentinel_Scan fs now s = (s', Ok evs) ->
  (path, Some (RegFile content)) ∈ scan_visits fs (WatchFiles s) ->
  known_at s' path = Some (sha256_hex content).
Proof. apply Scan_ok_stored. Qed.

(** X6. No sequence of scans changes the watch set. *)
Theorem X6_watch_set_never_changes (l : list (gmap string node * Z)) : forall s,
  WatchFiles (run_scans l s).1 = WatchFiles s.
Proof.
  induction l as [|[fs now] rest IH]; intros s; simpl; [done|].
  pose proof (Scan_WatchFiles fs now s) as Hw.
  destruct (Sentinel_Scan fs now s) as [s1 [evs|e|]]; simpl in *; [| |done].
  - specialize (IH s1). destruct (run_scans rest s1) as [s2 rs]. simpl in *. congruence.
  - specialize (IH s1). destruct (run_scans rest s1) as [s2 rs]. simpl in *. congruence.
Qed.

End scan_results.

Section earlier_scan.
Context `{Hasher}.

Lemma scan_loop_v1_eq fs wfs :
  no_directory fs wfs = true ->
  forall evs s, scan_loop_v1 fs wfs evs s = scan_loop fs wfs evs s.
Proof.
  induction wfs as [|wf rest IH]; intros Hnd evs s; [done|].
  simpl in Hnd. apply andb_true_iff in Hnd as [Hwf Hrest].
  simpl. apply bind_cong.
  - unfold scan_file_v1, process. by destruct (fs !! wf) as [[content| |entries]|].
  - intros ev s'. by apply IH.
Qed.

(** X7. On a watch set whose paths are all there and none of them a
    directory, the earlier [Scan], which digests the watched paths
    themselves, and the later [Scan], which goes through [process], do the
    same: same events or error, same state afterwards. *)
Theorem X7_earlier_scan_agrees_without_directories fs now s :
  no_directory fs (WatchFiles s) = true ->
  Sentinel_Scan_v1 fs now s = Sentinel_Scan fs now s.
Proof.
  intros Hnd. unfold Sentinel_Scan_v1, Sentinel_Scan.
  apply bind_cong; [by apply scan_loop_v1_eq | done].
Qed.

(** The loop of the earlier [Scan] as a run of visits of the watched paths
    themselves; a missing path fails in [os.Open] instead of [os.Stat]. *)
Lemma scan_loop_v1_outcome fs wfs : forall w known ps evs,
  scan_loop_v1 fs wfs evs (mkSentinel w known ps) =
  (mkSentinel w (outcome (map (fun wf => (wf, fs !! wf)) wfs) known evs).1 ps,
   match (outcome (map (fun wf => (wf, fs !! wf)) wfs) known evs).2 with
   | Err (ErrStat path) => Err (ErrOpen path)
   | r => r
   end).
Proof.
  induction wfs as [|wf rest IH]; intros w known ps evs; [done|].
  cbn [scan_loop_v1 map outcome]. unfold bind, scan_file_v1.
  destruct (fs !! wf) as [[content| |entries]|]; try reflexivity.
  destruct known as [m|].
  - rewrite process_file_spec. apply IH.
  - reflexivity.
Qed.

Lemma Scan_v1_outcome fs now wfs known ps :
  Sentinel_Scan_v1 fs now (mkSentinel wfs known ps) =
  match (outcome (map (fun wf => (wf, fs !! wf)) wfs) known []).2 with
  | Ok evs =>
      (mkSentinel wfs (outcome (map (fun wf => (wf, fs !! wf)) wfs) known []).1
                  (ps ++ [mkScan now evs]), Ok evs)
  | Err (ErrStat path) =>
      (mkSentinel wfs (outcome (map (fun wf => (wf, fs !! wf)) wfs) known []).1 ps,
       Err (ErrOpen path))
  | r => (mkSentinel wfs (outcome (map (fun wf => (wf, fs !! wf)) wfs) known []).1 ps, r)
  end.
Proof.
  unfold Sentinel_Scan_v1. cbn [WatchFiles]. unfold bind at 1.
  rewrite scan_loop_v1_outcome.
  destruct (outcome (map (fun wf => (wf, fs !! wf)) wfs) known []) as [known' [evs|e|]];
    [reflexivity | by destruct e | reflexivity].
Qed.

(** X8. The earlier [Scan] cannot watch a directory: when a watched path
    is a directory it never returns events, whatever else is watched, and
    it records no scan. *)
Theorem X8_earlier_scan_rejects_directories fs now s wf entries :
  wf ∈ WatchFiles s ->
  fs !! wf = Some (Dir entries) ->
  (forall evs, (Sentinel_Scan_v1 fs now s).2 ≠ Ok evs) /\
  PriorScans (Sentinel_Scan_v1 fs now s).1 = PriorScans s.
Proof.
  intros Hin Hdir. destruct s as [wfs known ps]. simpl in Hin.
  rewrite Scan_v1_outcome.
  destruct (outcome (map (fun wf => (wf, fs !! wf)) wfs) known []) as [known' r] eqn:Hout.
  cbn [fst snd].
  destruct r as [evs'|e|].
  - exfalso.
    destruct (outcome_ok_readable _ known [] evs' (f_equal snd Hout) wf (fs !! wf))
      as (content & Hc).
    + apply list_elem_of_fmap. by exists wf.
    + congruence.
  - destruct e; by split.
  - by split.
Qed.

End earlier_scan.

Section plain_file_scans.
Context `{Hasher}.

Lemma plain_files_visits fs wfs :
  plain_files fs wfs = true ->
  scan_visits fs wfs = map (fun wf => (wf, fs !! wf)) wfs.
Proof.
  induction wfs as [|wf rest IH]; intros Hplain; [done|].
  simpl in Hplain. apply andb_true_iff in Hplain as [Hwf Hrest].
  unfold scan_visits in *. cbn [flat_map map]. rewrite IH by done.
  unfold watch_visits. by destruct (fs !! wf) as [[content| |entries]|].
Qed.

Lemma plain_files_lookup fs wfs wf :
  plain_files fs wfs = true -> wf ∈ wfs ->
  exists content, fs !! wf = Some (RegFile content).
Proof.
  unfold plain_files. rewrite forallb_forall. intros Hplain Hin.
  specialize (Hplain wf). rewrite <- list_elem_of_In in Hplain.
  specialize (Hplain Hin).
  destruct (fs !! wf) as [[content| |entries]|]; try discriminate. by exists content.
Qed.

Lemma plain_files_consistent fs wfs :
  plain_files fs wfs = true -> consistent (scan_visits fs wfs).
Proof.
  intros Hplain. rewrite plain_files_visits by done.
  intros p n1 n2 H1 H2.
  apply list_elem_of_fmap in H1 as (wf1 & [= -> ->] & _).
  apply list_elem_of_fmap in H2 as (wf2 & [= -> ->] & _). done.
Qed.

Lemma outcome_fresh_files fs wfs : forall m evs,
  NoDup wfs ->
  plain_files fs wfs = true ->
  (forall wf, wf ∈ wfs -> m !! wf = None) ->
  (outcome (map (fun wf => (wf, fs !! wf)) wfs) (Some m) evs).2 =
  Ok (evs ++ map (created_at fs) wfs).
Proof.
  induction wfs as [|wf rest IH]; intros m evs Hnd Hplain Hfresh.
  - simpl. by rewrite app_nil_r.
  - apply NoDup_cons in Hnd as [Hwf Hnd].
    simpl in Hplain. apply andb_true_iff in Hplain as [Hfile Hplain].
    cbn [map outcome]. unfold created_at at 1, file_digest.
    destruct (fs !! wf) as [[content| |entries]|]; try discriminate.
    rewrite IH; [| done | done |].
    + unfold classify. rewrite (Hfresh wf) by apply list_elem_of_here.
      by rewrite <- app_assoc.
    + intros wf' Hin. rewrite lookup_insert_ne.
      * apply Hfresh. by apply list_elem_of_further.
      * intros ->. by apply Hwf.
Qed.

Lemma first_scan_plain_files fs now config :
  NoDup (cfgWatchFiles config) ->
  plain_files fs (cfgWatchFiles config) = true ->
  (Sentinel_Scan fs now (New config)).2 =
    Ok (map (created_at fs) (cfgWatchFiles config)) /\
  PriorScans (Sentinel_Scan fs now (New config)).1 =
    [mkScan now (map (created_at fs) (cfgWatchFiles config))].
Proof.
  intros Hnd Hplain. unfold New. rewrite Scan_outcome.
  rewrite plain_files_visits by done.
  rewrite (outcome_fresh_files fs _ ∅ []) by done.
  done.
Qed.

(** X9. The first scan of a new sentinel that watches regular files, each
    listed once, returns one creation event for each watched path, in the
    order of the watch set, with the digest of the file as new checksum and
    no original checksum, and records exactly that as its first scan. *)
Theorem X9_first_scan_of_plain_files fs now config :
  NoDup (cfgWatchFiles config) ->
  plain_files fs (cfgWatchFiles config) = true ->
  (Sentinel_Scan fs now (New config)).2 =
    Ok (map (created_at fs) (cfgWatchFiles config)) /\
  PriorScans (Sentinel_Scan fs now (New config)).1 =
    [mkScan now (map (created_at fs) (cfgWatchFiles config))].
Proof. apply first_scan_plain_files. Qed.

Lemma revisit_visits fs wfs path content :
  plain_files fs wfs = true ->
  scan_visits (<[path := RegFile content]> fs) wfs =
  map (revisit path content) (scan_visits fs wfs).
Proof.
  induction wfs as [|wf rest IH]; intros Hplain; [done|].
  simpl in Hplain. apply andb_true_iff in Hplain as [Hwf Hrest].
  unfold scan_visits in *. cbn [flat_map]. rewrite map_app, IH by done.
  f_equal. unfold watch_visits, revisit.
  destruct (decide (wf = path)) as [->|Hne].
  - rewrite lookup_insert_eq.
    destruct (fs !! path) as [[c| |entries]|]; try discriminate.
    simpl. by rewrite decide_True.
  - rewrite lookup_insert_ne by done.
    destruct (fs !! wf) as [[c| |entries]|]; try discriminate.
    simpl. by rewrite decide_False.
Qed.

(** Visits of files that are all known as they are, but for the file at
    [path], whose digest changed: one modification event, at the first visit
    of [path]. *)
Lemma outcome_one_change path c c' l : forall m evs,
  (forall q n, (q, n) ∈ l ->
     exists content, n = Some (RegFile content) /\ m !! q = Some (sha256_hex content)) ->
  (path, Some (RegFile c)) ∈ l ->
  sha256_hex c' ≠ sha256_hex c ->
  outcome (map (revisit path c') l) (Some m) evs =
  (Some (<[path := sha256_hex c']> m),
   Ok (evs ++ [mkEvent evModify (sha256_hex c) (sha256_hex c') path])).
Proof.
  induction l as [|[q n] rest IH]; intros m evs Hknown Hin Hne.
  - by apply elem_of_nil in Hin.
  - destruct (Hknown path _ Hin) as (c0 & [= <-] & Hpath).
    destruct (Hknown q n (list_elem_of_here _ _)) as (content & -> & Hq).
    cbn [map]. unfold revisit at 1. cbn [fst].
    destruct (decide (q = path)) as [->|Hqp].
    + cbn [outcome]. unfold classify. rewrite Hpath.
      rewrite decide_False by (intros Heq; by apply Hne).
      apply outcome_known. intros p n Hp.
      apply list_elem_of_fmap in Hp as ([p0 n0] & Hrev & Hp0).
      unfold revisit in Hrev. cbn [fst] in Hrev.
      destruct (decide (p0 = path)) as [->|Hp0ne].
      * injection Hrev as -> ->. exists c'. by rewrite lookup_insert_eq.
      * injection Hrev as -> ->.
        destruct (Hknown p0 n0) as (content0 & -> & Hm0);
          [by apply list_elem_of_further|].
        exists content0. by rewrite lookup_insert_ne.
    + cbn [outcome]. unfold classify. rewrite Hq. rewrite decide_True by done.
      rewrite insert_id by done. rewrite app_nil_r.
      apply IH; [| |done].
      * intros p n Hp. apply Hknown. by apply list_elem_of_further.
      * apply elem_of_cons in Hin as [[= -> _]|Hin]; [done|done].
Qed.

(** X10. After a successful scan of watched regular files, when the
    content of one of them changes to a content with another digest, the
    next scan returns exactly one event: the modification of that file,
    with the digest stored by the first scan as original checksum and the
    digest of the new content as new checksum; the new digest is stored. *)
Theorem X10_modified_file_detected fs now1 now2 s s1 evs1 path c c' :
  plain_files fs (WatchFiles s) = true ->
  Sentinel_Scan fs now1 s = (s1, Ok evs1) ->
  path ∈ WatchFiles s ->
  fs !! path = Some (RegFile c) ->
  sha256_hex c' ≠ sha256_hex c ->
  (Sentinel_Scan (<[path := RegFile c']> fs) now2 s1).2 =
    Ok [mkEvent evModify (sha256_hex c) (sha256_hex c') path] /\
  known_at (Sentinel_Scan (<[path := RegFile c']> fs) now2 s1).1 path =
    Some (sha256_hex c').
Proof.
  intros Hplain Hscan Hin Hfile Hne. destruct s as [wfs known ps]. simpl in *.
  assert ((path, Some (RegFile c)) ∈ scan_visits fs wfs) as Hvisit.
  { rewrite plain_files_visits by done. apply list_elem_of_fmap.
    exists path. by rewrite Hfile. }
  rewrite Scan_outcome in Hscan.
  destruct (outcome (scan_visits fs wfs) known []) as [known1 [evs'|e|]] eqn:Hout;
    try discriminate.
  injection Hscan as <- <-.
  destruct known as [m|]; cycle 1.
  { destruct (scan_visits fs wfs) as [|[p [[c0| |es]|]] rest]; try discriminate.
    by apply elem_of_nil in Hvisit. }
  destruct (outcome_frame (scan_visits fs wfs) m []) as (m1 & Hm1 & _).
  rewrite Hout in Hm1. simpl in Hm1. subst known1.
  rewrite Scan_outcome, revisit_visits by done.
  rewrite (outcome_one_change path c c' _ m1 []); [unfold known_at; simpl; by rewrite lookup_insert_eq | | done | done].
  intros q n Hq.
  destruct (outcome_ok_readable _ _ _ _ (f_equal snd Hout) q n Hq) as (content & ->).
  exists content. split; [done|].
  apply (outcome_ok_stored _ m [] evs' m1 (plain_files_consistent fs wfs Hplain) Hout q content Hq).
Qed.

End plain_file_scans.

Section repeated_digests.
Context `{Hasher}.

Lemma file_depths_Dir entries :
  file_depths (Dir entries) = flat_map (fun e => map S (file_depths e.2)) entries.
Proof.
  simpl. induction entries as [|[name child] rest IH]; simpl; [done|]. by rewrite IH.
Qed.

Lemma sum_list_append (l1 l2 : list nat) :
  sum_list (l1 ++ l2) = (sum_list l1 + sum_list l2)%nat.
Proof. induction l1 as [|a rest IH]; simpl; [done|]. rewrite IH. lia. Qed.

Lemma sum_list_flat_map {A} (f : A -> list nat) (l : list A) :
  sum_list (flat_map f l) = sum_list (map (fun a => sum_list (f a)) l).
Proof.
  induction l as [|a rest IH]; simpl; [done|]. by rewrite sum_list_append, IH.
Qed.

Lemma length_flat_map {A B} (f : A -> list B) (l : list A) :
  length (flat_map f l) = sum_list (map (fun a => length (f a)) l).
Proof.
  induction l as [|a rest IH]; simpl; [done|]. by rewrite length_app, IH.
Qed.

Lemma digests_below (l : list nat) :
  sum_list (map digests_at (map S (map S l))) = (2 * sum_list (map digests_at (map S l)))%nat.
Proof.
  induction l as [|d rest IH]; [done|].
  cbn [map sum_list]. rewrite IH. unfold digests_at. cbn [pred].
  rewrite Nat.pow_succ_r'. unfold id. lia.
Qed.

Lemma file_depths_below entries :
  exists l, file_depths (Dir entries) = map S l.
Proof.
  rewrite file_depths_Dir.
  induction entries as [|[name child] rest [l IH]]; simpl.
  - by exists [].
  - exists (file_depths child ++ l). by rewrite IH, map_app.
Qed.

Lemma files_depths_Dir path entries :
  files_depths path (Dir entries) =
  flat_map (fun e => map (fun vd => (vd.1, S vd.2)) (files_depths (Join path e.1) e.2))
           entries.
Proof.
  simpl. induction entries as [|[name child] rest IH]; simpl; [done|]. by rewrite IH.
Qed.

Lemma repeated_app l1 l2 : repeated (l1 ++ l2) = repeated l1 ++ repeated l2.
Proof. unfold repeated. apply flat_map_app. Qed.

Lemma files_depths_below path entries :
  exists l, files_depths path (Dir entries) = map (fun vd => (vd.1, S vd.2)) l.
Proof.
  rewrite files_depths_Dir.
  induction entries as [|[name child] rest [l IH]]; simpl.
  - by exists [].
  - exists (files_depths (Join path name) child ++ l). by rewrite IH, map_app.
Qed.

(** One level deeper, the files of a directory are digested twice as
    often. *)
Lemma repeated_deeper (l : list ((string * node) * nat)) :
  repeated (map (fun vd => (vd.1, S vd.2)) (map (fun vd => (vd.1, S vd.2)) l)) ≡ₚ
  repeated (map (fun vd => (vd.1, S vd.2)) l)
  ++ repeated (map (fun vd => (vd.1, S vd.2)) l).
Proof.
  induction l as [|[v d] rest IH]; [done|].
  cbn [map repeated flat_map fst snd]. fold (repeated (map (fun vd => (vd.1, S vd.2))
    (map (fun vd => (vd.1, S vd.2)) rest))).
  fold (repeated (map (fun vd : string * node * nat => (vd.1, S vd.2)) rest)).
  rewrite IH. unfold digests_at. cbn [pred].
  replace (2 ^ S d)%nat with (2 ^ d + 2 ^ d)%nat by (rewrite Nat.pow_succ_r'; lia).
  rewrite replicate_add.
  rewrite <- !app_assoc. apply Permutation_app_head.
  rewrite !app_assoc. apply Permutation_app_tail. apply Permutation_app_comm.
Qed.

(** The visits of a tree are its files, each as often as its depth says. *)
Lemma visits_repeated n : forall path,
  visits path n ≡ₚ repeated (files_depths path n).
Proof.
  induction n as [content| |entries IH] using node_nested_ind; intros path;
    [done | done |].
  rewrite visits_Dir, files_depths_Dir. unfold visits_entries.
  induction IH as [|[name child] rest Hchild _ IHrest]; [done|].
  cbn [flat_map fst snd]. rewrite repeated_app, IHrest.
  apply Permutation_app_tail.
  destruct child as [content| |sub]; [by rewrite app_nil_r..|].
  destruct (files_depths_below (Join path name) sub) as [l Hl].
  cbn [snd] in Hchild. rewrite (Hchild (Join path name)), Hl.
  symmetry. apply repeated_deeper.
Qed.

Lemma files_depths_files n : forall path, (files_depths path n).*1 = files path n.
Proof.
  induction n as [content| |entries IH] using node_nested_ind; intros path;
    [done | done |].
  rewrite files_Dir, files_depths_Dir. unfold files_entries.
  induction IH as [|[name child] rest Hchild _ IHrest]; [done|].
  cbn [flat_map fst snd] in *. rewrite fmap_app, IHrest, <- (Hchild (Join path name)).
  f_equal. rewrite <- list_fmap_compose. by apply list_fmap_ext.
Qed.

Lemma filter_replicate_eq (v : string * node) k :
  filter (fun u => u = v) (replicate k v) = replicate k v.
Proof.
  induction k as [|k IH]; [done|]. simpl. rewrite filter_cons_True by done.
  by rewrite IH.
Qed.

Lemma filter_replicate_ne (v v0 : string * node) k :
  v0 ≠ v -> filter (fun u => u = v) (replicate k v0) = [].
Proof.
  intros Hne. induction k as [|k IH]; [done|]. simpl.
  by rewrite filter_cons_False.
Qed.

Lemma filter_repeated_notin (v : string * node) l :
  v ∉ l.*1 -> filter (fun u => u = v) (repeated l) = [].
Proof.
  induction l as [|[v0 d0] rest IH]; intros Hnotin; [done|].
  cbn [repeated flat_map fst snd]. fold (repeated rest).
  simpl in Hnotin. apply not_elem_of_cons in Hnotin as [Hne Hrest].
  rewrite filter_app, IH by done. rewrite filter_replicate_ne by done. done.
Qed.

Lemma filter_repeated (v : string * node) d l :
  NoDup l.*1 -> (v, d) ∈ l ->
  length (filter (fun u => u = v) (repeated l)) = digests_at d.
Proof.
  induction l as [|[v0 d0] rest IH]; intros Hnd Hin; [by apply elem_of_nil in Hin|].
  simpl in Hnd. apply NoDup_cons in Hnd as [Hv0 Hnd].
  cbn [repeated flat_map fst snd]. fold (repeated rest).
  rewrite filter_app, length_app.
  apply elem_of_cons in Hin as [[= <- <-]|Hin].
  - rewrite filter_replicate_eq, filter_repeated_notin by done.
    rewrite length_replicate. simpl. lia.
  - assert (v0 ≠ v) as Hne.
    { intros ->. apply Hv0. apply list_elem_of_fmap. by exists (v, d). }
    rewrite filter_replicate_ne by done. by rewrite IH.
Qed.

Lemma length_visits n : forall path,
  length (visits path n) = digest_count n /\
  length (files path n) = length (file_depths n).
Proof.
  induction n as [content| |entries IH] using node_nested_ind; intros path;
    [done | done |].
  rewrite visits_Dir, files_Dir. unfold digest_count. rewrite file_depths_Dir.
  unfold visits_entries, files_entries.
  rewrite !length_flat_map.
  induction IH as [|[name child] rest Hchild _ IHrest]; [done|].
  cbn [map sum_list flat_map fst snd] in *.
  rewrite map_app, sum_list_append, length_app.
  destruct IHrest as [-> ->].
  destruct (Hchild (Join path name)) as [Hv Hf]. rewrite length_map, Hf.
  split; [|done]. f_equal.
  destruct child as [content| |sub]; [done | done |].
  rewrite Hv. unfold digest_count, id.
  destruct (file_depths_below sub) as [l ->]. rewrite digests_below.
  change (sum_list_with (fun x : nat => x)) with sum_list. lia.
Qed.

(** X11. A scan digests a file that lies [d] levels below a watched
    directory 2^(d-1) times, since [process] walks every directory that
    [filepath.Walk] then descends into again: in a tree whose names differ,
    the file [v] at depth [d] is opened by exactly that many of the visits.
    In any tree the visits are, in some order, the files of the tree, each
    repeated as often as its depth says, and their number is the sum of
    these numbers over the files. *)
Theorem X11_nested_files_digested_repeatedly n : forall path,
  (well_named n = true ->
   forall v d, (v, d) ∈ files_depths path n -> digests_of v path n = digests_at d) /\
  visits path n ≡ₚ repeated (files_depths path n) /\
  (files_depths path n).*1 = files path n /\
  length (visits path n) = digest_count n /\
  length (files path n) = length (file_depths n).
Proof.
  intros path. split; [|split; [apply visits_repeated|split;
    [apply files_depths_files | apply length_visits]]].
  intros Hnamed v d Hin. unfold digests_of. rewrite visits_repeated.
  apply filter_repeated; [|done].
  rewrite files_depths_files. eapply NoDup_fmap_1. by apply files_NoDup.
Qed.

End repeated_digests.

Section deleted_files.
Context `{Hasher}.

Definition prune_entries (target dir : string) (entries : list (string * node))
  : list (string * node) :=
  flat_map (fun e => if decide (Join dir e.1 = target) then []
                     else [(e.1, prune target (Join dir e.1) e.2)]) entries.

Lemma prune_Dir target dir entries :
  prune target dir (Dir entries) = Dir (prune_entries target dir entries).
Proof.
  unfold prune_entries. simpl. f_equal.
  induction entries as [|[name child] rest IH]; simpl; [done|].
  rewrite IH. by destruct (decide (Join dir name = target)).
Qed.

(** The files of the pruned tree are files of the tree, and none of them
    is the one removed. *)
Lemma prune_files target n : forall path v,
  v ∈ files path (prune target path n) ->
  v ∈ files path n /\ (v.1 ≠ target \/ n = v.2).
Proof.
  induction n as [content| |entries IH] using node_nested_ind; intros path v.
  - intros Hv. split; [done|]. right. by apply list_elem_of_singleton in Hv as ->.
  - intros Hv. split; [done|]. right. by apply list_elem_of_singleton in Hv as ->.
  - rewrite prune_Dir, !files_Dir. unfold files_entries, prune_entries.
    rewrite Forall_forall in IH.
    intros ([name' child'] & He' & Hv)%elem_of_flat_map.
    apply elem_of_flat_map in He' as ([name child] & He & Hkept).
    destruct (decide (Join path (name, child).1 = target)) as [Heq|Hne];
      [by apply elem_of_nil in Hkept|].
    apply list_elem_of_singleton in Hkept as [= -> ->]. cbn [fst snd] in *.
    destruct (IH _ He (Join path name) v Hv) as [Hin Hpath]. cbn [snd] in *.
    split.
    + apply elem_of_flat_map. by exists (name, child).
    + left. destruct Hpath as [Hpath|Hchild]; [done|].
      subst child. destruct v as [q nv]. cbn [fst snd] in *.
      destruct nv as [content| |sub].
      * apply list_elem_of_singleton in Hin as [= ->]. done.
      * apply list_elem_of_singleton in Hin as [= ->]. done.
      * exfalso. by apply (files_not_Dir _ _ _ _ Hin sub).
Qed.

Lemma prune_visits target dir entries q n :
  (q, n) ∈ found (visits dir (prune target dir (Dir entries))) ->
  (q, n) ∈ found (visits dir (Dir entries)) /\ q ≠ target.
Proof.
  intros (n' & -> & Hin)%elem_of_found. apply visits_files in Hin.
  destruct (prune_files target (Dir entries) dir (q, n') Hin) as [Hfile Hpath].
  split.
  - apply elem_of_found. exists n'. split; [done|]. by apply visits_files.
  - destruct Hpath as [Hpath|Hdir]; [done|]. cbn [snd] in Hdir. subst n'.
    exfalso. by apply (files_not_Dir _ _ _ _ Hfile entries).
Qed.

(** After a successful scan every file it reached is known as it is. *)
Lemma stored_after_scan fs now s m s1 evs :
  KnownObjects s = Some m ->
  consistent (scan_visits fs (WatchFiles s)) ->
  Sentinel_Scan fs now s = (s1, Ok evs) ->
  exists m1,
    s1 = mkSentinel (WatchFiles s) (Some m1) (PriorScans s ++ [mkScan now evs]) /\
    forall p n, (p, n) ∈ scan_visits fs (WatchFiles s) ->
      exists content, n = Some (RegFile content) /\ m1 !! p = Some (sha256_hex content).
Proof.
  destruct s as [wfs known ps]. cbn [KnownObjects WatchFiles PriorScans].
  intros -> Hcons Hscan. rewrite Scan_outcome in Hscan.
  destruct (outcome (scan_visits fs wfs) (Some m) []) as [known1 [evs'|e|]] eqn:Hout;
    try discriminate.
  injection Hscan as <- <-.
  destruct (outcome_frame (scan_visits fs wfs) m []) as (m1 & Hm1 & _).
  rewrite Hout in Hm1. simpl in Hm1. subst known1.
  exists m1. split; [done|]. intros p n Hin.
  destruct (outcome_ok_readable _ _ _ _ (f_equal snd Hout) p n Hin) as (content & ->).
  exists content. split; [done|].
  by apply (outcome_ok_stored _ m [] evs' m1 Hcons Hout p content).
Qed.

(** The visits of a watch set around a deleted watched path. *)
Lemma outcome_deleted_watch fs wf m1 wfs : forall evs,
  wf ∈ wfs ->
  (forall p n, (p, n) ∈ scan_visits fs wfs ->
     exists content, n = Some (RegFile content) /\ m1 !! p = Some (sha256_hex content)) ->
  outcome (scan_visits (delete wf fs) wfs) (Some m1) evs = (Some m1, Err (ErrStat wf)).
Proof.
  induction wfs as [|w0 rest IH]; intros evs Hin Hknown; [by apply elem_of_nil in Hin|].
  unfold scan_visits in *. cbn [flat_map] in *.
  destruct (decide (w0 = wf)) as [->|Hne].
  - unfold watch_visits at 1. rewrite lookup_delete_eq. reflexivity.
  - apply elem_of_cons in Hin as [->|Hin]; [done|].
    rewrite outcome_app.
    assert (watch_visits (delete wf fs) w0 = watch_visits fs w0) as ->.
    { unfold watch_visits. by rewrite lookup_delete_ne. }
    rewrite (outcome_known (watch_visits fs w0) m1 evs).
    + cbn [fst snd]. apply IH; [done|].
      intros p n Hp. apply Hknown. apply elem_of_app. by right.
    + intros p n Hp. apply Hknown. apply elem_of_app. by left.
Qed.

(** C9. A file that was scanned and is then deleted below a watched
    directory, nothing else being changed, is no longer reached by the
    walk: the next scan succeeds, returns no event, records that, and
    leaves the known objects as they were, the entry of the deleted file
    included.  A watched path that is itself deleted does not vanish:
    [os.Stat] fails on it and the scan returns that error, with no record.
    Whatever else changes, a path at which a scan opens no file keeps its
    entry and gets no event. *)
Theorem C9_deleted_file_ignored fs now1 now2 s m s1 evs1 :
  KnownObjects s = Some m ->
  consistent (scan_visits fs (WatchFiles s)) ->
  Sentinel_Scan fs now1 s = (s1, Ok evs1) ->
  (forall dir entries target,
     fs !! dir = Some (Dir entries) ->
     (forall v, v ∈ watch_visits (<[dir := prune target dir (Dir entries)]> fs) dir ->
                v.1 ≠ target) /\
     Sentinel_Scan (<[dir := prune target dir (Dir entries)]> fs) now2 s1 =
       (mkSentinel (WatchFiles s1) (KnownObjects s1) (PriorScans s1 ++ [mkScan now2 []]),
        Ok []) /\
     (forall content,
        (target, Some (RegFile content)) ∈ scan_visits fs (WatchFiles s) ->
        known_at s1 target = Some (sha256_hex content))) /\
  (forall wf,
     wf ∈ WatchFiles s ->
     Sentinel_Scan (delete wf fs) now2 s1 = (s1, Err (ErrStat wf))) /\
  (forall fs' path,
     ~ scanned fs' (WatchFiles s) path ->
     known_at (Sentinel_Scan fs' now2 s1).1 path = known_at s1 path /\
     forall evs e, (Sentinel_Scan fs' now2 s1).2 = Ok evs -> e ∈ evs -> File e ≠ path).
Proof.
  intros Hmap Hcons Hscan.
  destruct (stored_after_scan fs now1 s m s1 evs1 Hmap Hcons Hscan) as (m1 & -> & Hknown).
  cbn [WatchFiles KnownObjects PriorScans]. split; [|split].
  - intros dir entries target Hdir. split; [|split].
    + intros [q n]. unfold watch_visits. rewrite lookup_insert_eq.
      intros Hv. by apply prune_visits in Hv as [_ ?].
    + rewrite Scan_outcome. rewrite outcome_known; [done|].
      intros p n Hp. apply Hknown. unfold scan_visits in *.
      apply elem_of_flat_map in Hp as (wf & Hwf & Hp).
      apply elem_of_flat_map. exists wf. split; [done|].
      unfold watch_visits in *.
      destruct (decide (wf = dir)) as [->|Hne].
      * rewrite lookup_insert_eq in Hp. rewrite Hdir.
        by apply prune_visits in Hp as [? _].
      * by rewrite lookup_insert_ne in Hp.
    + intros content Hin. destruct (Hknown _ _ Hin) as (c & [= <-] & Hm1).
      unfold known_at. by cbn [KnownObjects].
  - intros wf Hwf. rewrite Scan_outcome.
    by rewrite (outcome_deleted_watch fs wf m1 (WatchFiles s) [] Hwf Hknown).
  - intros fs' path Hdel.
    apply (unreached_path_untouched fs' now2
             (mkSentinel (WatchFiles s) (Some m1) (PriorScans s ++ [mkScan now1 evs1]))
             path Hdel).
Qed.

End deleted_files.

Section sealing_results.
Context `{Hasher} `{MapOrder} `{Crypto}.

Lemma fits_small n : (n < 24)%nat -> fits n = true.
Proof.
  intros Hn. unfold fits. apply N.ltb_lt.
  apply N.lt_trans with 24%N; [lia|].
  change 24%N with (2 ^ 4 + 8)%N.
  apply N.lt_le_trans with (2 ^ 5)%N; [done|].
  apply N.pow_le_mono_r; lia.
Qed.

(** X12. The file a successful [Save] writes is the encoding of a
    container whose nonce is the next 24 random bytes and whose salt the 24
    after them; [Data] starts with a copy of the nonce, since the box is
    appended to [nonce[:]], and is 40 bytes longer than the encoded
    sentinel; the 48 random bytes are used up, so that two saves never use
    the same part of the random stream. *)
Theorem X12_saved_container_layout s path password w w' :
  Save s path password w = (w', Ok tt) ->
  exists out,
    disk w' !! path = Some (enc_SentinelFile out) /\
    Nonce out = take 24 (entropy w) /\
    Salt out = take 24 (drop 24 (entropy w)) /\
    take 24 (Data out) = Nonce out /\
    length (Data out) = sealed_size s /\
    entropy w' = drop 48 (entropy w).
Proof.
  unfold Save, read_random.
  destruct (decide (24 ≤ length (entropy w))%nat) as [Hn|Hn]; [|discriminate].
  cbn [entropy disk refused short_write].
  destruct (decide (24 ≤ length (drop 24 (entropy w)))%nat) as [Hs|Hs]; [|discriminate].
  cbn [entropy disk refused short_write].
  assert (length (take 24 (entropy w)) = 24%nat) as Hlen
    by (rewrite length_take; lia).
  destruct (seal_container s password (take 24 (entropy w))
              (take 24 (drop 24 (entropy w)))) as [out|e|] eqn:Hseal; try discriminate.
  destruct (decide (path ∈ refused w)); [discriminate|].
  destruct (short_write w !! path) as [written|]; [discriminate|].
  intros [= <-]. exists out. cbn [entropy disk refused short_write].
  destruct (sealed_container_shape _ _ _ _ _ Hlen Hseal) as (Hno & Hso & Hsize).
  split; [by rewrite lookup_insert_eq|]. split; [done|]. split; [done|].
  split; [|split; [done | by rewrite drop_drop]].
  unfold seal_container in Hseal.
  destruct (scrypt_Key _ _ _ _ _ _) as [key|e|]; try discriminate.
  injection Hseal as <-. cbn [Data Nonce]. unfold secretbox_Seal.
  by rewrite take_app_length'.
Qed.

Lemma Save_frame s path password w :
  refused (Save s path password w).1 = refused w /\
  (forall q, q ≠ path -> disk (Save s path password w).1 !! q = disk w !! q) /\
  ((Save s path password w).2 ≠ Ok tt ->
   (Save s path password w).2 ≠ Err (ErrWrite path) ->
   disk (Save s path password w).1 = disk w) /\
  (disk (Save s path password w).1 = disk w \/
   exists nonce salt out written,
     seal_container s password nonce salt = Ok out /\
     disk (Save s path password w).1
       = <[path := take written (enc_SentinelFile out)]> (disk w) /\
     ((Save s path password w).2 = Ok tt -> take written (enc_SentinelFile out)
                                            = enc_SentinelFile out)).
Proof.
  unfold Save, read_random.
  destruct (decide (24 ≤ length (entropy w))%nat); [|by repeat split; try left].
  cbn [entropy disk refused short_write].
  destruct (decide (24 ≤ length (drop 24 (entropy w)))%nat); [|by repeat split; try left].
  cbn [entropy disk refused short_write].
  destruct (seal_container s password _ _) as [out|e|] eqn:Hseal;
    [| by repeat split; try left | by repeat split; try left].
  destruct (decide (path ∈ refused w)); [by repeat split; try left|].
  destruct (short_write w !! path) as [written|]; cbn [fst snd disk refused].
  - split; [done|]. split; [intros q Hq; by rewrite lookup_insert_ne|].
    split; [done|]. right. by eexists _, _, out, written.
  - split; [done|]. split; [intros q Hq; by rewrite lookup_insert_ne|].
    split; [done|]. right.
    eexists _, _, out, (length (enc_SentinelFile out)).
    split; [exact Hseal|]. by rewrite firstn_all.
Qed.


(** X14. [Open] on a database file whose container holds fewer than 24
    bytes of [Data] does not return an error: once the key is derived, the
    slice expression [in.Data[len(in.Nonce):]] is out of range and the
    program panics. *)
Theorem X14_open_short_data_panics path password w data nonce salt key :
  length nonce = 24%nat ->
  length salt = 24%nat ->
  (length data < 24)%nat ->
  disk w !! path = Some (enc_SentinelFile (mkSentinelFile data nonce salt)) ->
  scrypt_Key (String.list_byte_of_string password) salt
    scryptN scryptR scryptP keyLen = Ok key ->
  Open path password w = Panic.
Proof.
  intros Hn Hs Hd Hdisk Hkey. unfold Open. rewrite Hdisk.
  rewrite gob_SentinelFile_roundtrip; [| by apply fits_small | done | done].
  unfold open_container. cbn [Data Nonce Salt]. rewrite Hkey.
  rewrite decide_False; [done | lia].
Qed.

(** X15. When the scan command succeeds, the database file holds the state
    after the scan: opening it again with the same password gives the
    scanned sentinel, whose history is the loaded one with the record of
    this scan appended. *)
Theorem X15_scan_command_persists dbPath pass fs now w w' s s' evs :
  Open dbPath pass w = Ok s ->
  Sentinel_Scan fs now s = (s', Ok evs) ->
  Sentinel_fits s' = true ->
  fits (sealed_size s') = true ->
  scanCmd dbPath pass fs now w = (w', Ok tt) ->
  Open dbPath pass w' = Ok s' /\
  PriorScans s' = PriorScans s ++ [mkScan now evs].
Proof.
  intros Hopen Hscan Hfits Hsealed Hcmd. unfold scanCmd in Hcmd.
  rewrite Hopen, Hscan in Hcmd. split.
  - by apply (Save_then_Open s' dbPath pass w w').
  - destruct s as [wfs known ps]. rewrite Scan_outcome in Hscan.
    destruct (outcome (scan_visits fs wfs) known []) as [known' [evs'|e|]];
      try discriminate.
    by injection Hscan as <- <-.
Qed.

(** X16. The init command leaves the disk as it was unless the
    configuration was read, every watched path could be opened and both
    passwords were read and are the same.  When the disk has changed, the
    command returned what [Save] returned, which is nil or the error of
    the failed write, and the only file changed is the database. *)
Theorem X16_init_writes_only_when_checked config fs pass pass2 dbPath w :
  disk (initCmd config fs pass pass2 dbPath w).1 ≠ disk w ->
  exists cfg password,
    config = Ok cfg /\ pass = Ok password /\ pass2 = Ok password /\
    Forall (fun wf => can_open fs wf = true) (cfgWatchFiles cfg) /\
    initCmd config fs pass pass2 dbPath w =
      ((Save (New cfg) dbPath password w).1,
       Returned (Save (New cfg) dbPath password w).2) /\
    ((Save (New cfg) dbPath password w).2 = Ok tt \/
     (Save (New cfg) dbPath password w).2 = Err (ErrWrite dbPath)) /\
    (forall q, q ≠ dbPath ->
       disk (initCmd config fs pass pass2 dbPath w).1 !! q = disk w !! q).
Proof.
  unfold initCmd.
  destruct config as [cfg|e|]; [|done|done].
  destruct (forallb (can_open fs) (cfgWatchFiles cfg)) eqn:Hopen; [|done].
  destruct pass as [password|e|]; [|done|done].
  destruct pass2 as [password2|e|]; [|done|done].
  destruct (bool_decide (password ≠ password2)) eqn:Hsame; [done|].
  apply bool_decide_eq_false_1, dec_stable in Hsame. subst password2.
  destruct (Save_frame (New cfg) dbPath password w) as (_ & Hother & Hfail & _).
  destruct (Save (New cfg) dbPath password w) as [w' r] eqn:Hsave.
  cbn [fst snd] in *. intros Hdisk.
  exists cfg, password. repeat split; try done.
  - apply Forall_forall. intros wf Hwf.
    rewrite forallb_forall in Hopen. apply Hopen. by apply list_elem_of_In.
  - rewrite Hsave. reflexivity.
  - rewrite Hsave. cbn [snd].
    destruct r as [[]|e|]; [by left | | exfalso; apply Hdisk; by apply Hfail].
    assert (e = ErrWrite dbPath \/ e ≠ ErrWrite dbPath) as [->|Hwrite].
    { destruct e as [q|q|q|q|q| | | | ]; try (right; discriminate).
      destruct (decide (q = dbPath)) as [->|Hq]; [by left | right; congruence]. }
    + by right.
    + exfalso. apply Hdisk. apply Hfail; congruence.
Qed.

(** A successful [Save] has read 48 random bytes. *)
Lemma Save_ok_entropy s path password w w' :
  Save s path password w = (w', Ok tt) ->
  (48 ≤ length (entropy w))%nat /\ entropy w' = drop 48 (entropy w).
Proof.
  unfold Save, read_random.
  destruct (decide (24 ≤ length (entropy w))%nat) as [Hn|Hn]; [|discriminate].
  cbn [entropy disk refused short_write].
  destruct (decide (24 ≤ length (drop 24 (entropy w)))%nat) as [Hs|Hs]; [|discriminate].
  cbn [entropy disk refused short_write].
  destruct (seal_container s password _ _) as [out|e|]; try discriminate.
  destruct (decide (path ∈ refused w)); [discriminate|].
  destruct (short_write w !! path) as [written|]; [discriminate|].
  intros [= <-]. cbn [entropy]. rewrite length_drop in Hs.
  split; [lia | by rewrite drop_drop].
Qed.

(** X17. With a configuration that was read and watched paths that can
    all be opened, the init command returns nil and leaves everything as it
    was exactly when the two passwords typed differ: the [err] it returns
    then is the nil left by reading the second password, and no database is
    written; with equal passwords it either fails or has saved. *)
Theorem X17_init_password_mismatch_returns_nil cfg fs password password2 dbPath w :
  forallb (can_open fs) (cfgWatchFiles cfg) = true ->
  initCmd (Ok cfg) fs (Ok password) (Ok password2) dbPath w = (w, Returned (Ok tt)) <->
  password ≠ password2.
Proof.
  intros Hopen. unfold initCmd. rewrite Hopen.
  destruct (decide (password = password2)) as [<-|Hne].
  - rewrite bool_decide_eq_false_2 by (intros Hne; by apply Hne).
    split; [|done].
    destruct (Save (New cfg) dbPath password w) as [w' r] eqn:Hsave.
    intros [= -> ->]. exfalso.
    apply Save_ok_entropy in Hsave as [Hlen Hdrop].
    apply (f_equal length) in Hdrop. rewrite length_drop in Hdrop. lia.
  - by rewrite bool_decide_eq_true_2.
Qed.

(** X18. After an init command that wrote the database, the first scan
    command with the same password, on watched regular files each listed
    once, succeeds when [Save] does, and the database then holds the
    digests of the watched files and one record: the creation of each
    watched file, in the order of the watch set. *)
Theorem X18_init_then_first_scan cfg fs fs' password dbPath now w w1 w2 :
  Sentinel_fits (New cfg) = true ->
  fits (sealed_size (New cfg)) = true ->
  Sentinel_fits (Sentinel_Scan fs' now (New cfg)).1 = true ->
  fits (sealed_size (Sentinel_Scan fs' now (New cfg)).1) = true ->
  NoDup (cfgWatchFiles cfg) ->
  plain_files fs' (cfgWatchFiles cfg) = true ->
  initCmd (Ok cfg) fs (Ok password) (Ok password) dbPath w = (w1, Returned (Ok tt)) ->
  scanCmd dbPath password fs' now w1 = (w2, Ok tt) ->
  exists s,
    Open dbPath password w2 = Ok s /\
    WatchFiles s = cfgWatchFiles cfg /\
    PriorScans s = [mkScan now (map (created_at fs') (cfgWatchFiles cfg))] /\
    forall wf, wf ∈ cfgWatchFiles cfg -> known_at s wf = Some (file_digest fs' wf).
Proof.
  intros Hfits0 Hsealed0 Hfits1 Hsealed1 Hnd Hplain Hinit Hcmd.
  unfold initCmd in Hinit.
  destruct (forallb (can_open fs) (cfgWatchFiles cfg)); [|discriminate].
  rewrite bool_decide_eq_false_2 in Hinit by (intros Hne; by apply Hne).
  destruct (Save (New cfg) dbPath password w) as [w1' r] eqn:Hsave.
  injection Hinit as -> ->.
  pose proof (Save_then_Open _ _ _ _ _ Hfits0 Hsealed0 Hsave) as Hopen.
  destruct (first_scan_plain_files fs' now cfg Hnd Hplain) as [Hevs Hps].
  destruct (Sentinel_Scan fs' now (New cfg)) as [s' r] eqn:Hscan.
  cbn [fst snd] in *. subst r.
  unfold scanCmd in Hcmd. rewrite Hopen, Hscan in Hcmd.
  exists s'. split; [by apply (Save_then_Open s' dbPath password w1 w2)|].
  split.
  { pose proof (Scan_WatchFiles fs' now (New cfg)) as Hw. by rewrite Hscan in Hw. }
  split; [done|].
  intros wf Hwf.
  destruct (plain_files_lookup fs' _ wf Hplain Hwf) as (content & Hcontent).
  unfold file_digest. rewrite Hcontent.
  eapply (Scan_ok_stored fs' now (New cfg) s').
  - by apply plain_files_consistent.
  - exact Hscan.
  - cbn [New WatchFiles]. rewrite plain_files_visits by done.
    apply list_elem_of_fmap. exists wf. by rewrite Hcontent.
Qed.

End sealing_results.

(** * The further properties on sample data *)

Section more_runs.

(** The first scan of the sample files succeeds: all it reaches are
    readable files. *)
Lemma X1_scan_succeeds_witness :
  Forall (fun v => is_file v = true) (scan_visits sample_fs (WatchFiles sample_state)).
Proof.
  apply (X1_scan_succeeds_iff_all_readable sample_fs 5 sample_state ∅).
  - reflexivity.
  - eexists. vm_compute. reflexivity.
Defined.

(** A scan with a nil map panics at its first file. *)
Lemma X2_scan_panics_witness :
  (Sentinel_Scan sample_fs 5 unmade_state).2 = Panic.
Proof.
  apply (X2_scan_panics_iff_nil_map sample_fs 5 unmade_state).
  split; [reflexivity|].
  exists ("/w/one"%string, Some (RegFile (bytes_of "1"))), [].
  split; vm_compute; reflexivity.
Defined.

(** The first scan of the sample files, by its first visits. *)
Lemma X3_scan_classifies_witness :
  Sentinel_Scan sample_fs 5 sample_state =
  (mkSentinel (WatchFiles sample_state)
     (Some (store_visits (scan_visits sample_fs (WatchFiles sample_state)) ∅))
     (PriorScans sample_state
      ++ [mkScan 5 (scan_events ∅ (scan_visits sample_fs (WatchFiles sample_state)))]),
   Ok (scan_events ∅ (scan_visits sample_fs (WatchFiles sample_state)))) /\
  length (scan_events ∅ (scan_visits sample_fs (WatchFiles sample_state))) = 4%nat.
Proof.
  split; [|vm_compute; reflexivity].
  apply (X3_scan_classifies_each_path_once sample_fs 5 sample_state ∅).
  - reflexivity.
  - apply (bool_decide_eq_true_1 _). vm_compute. reflexivity.
  - apply (bool_decide_eq_true_1 _). vm_compute. reflexivity.
Defined.

(** The failed scan of two files, the second of which is missing. *)
Lemma X4_scan_never_forgets_witness :
  (known_at (Sentinel_Scan missing_fs 7 missing_state).1 "/w/a"
     = known_at missing_state "/w/a" \/
   exists content,
     ("/w/a"%string, Some (RegFile content))
       ∈ scan_visits missing_fs (WatchFiles missing_state) /\
     known_at (Sentinel_Scan missing_fs 7 missing_state).1 "/w/a"
       = Some (sha256_hex content)) /\
  (is_Some (known_at missing_state "/w/a") ->
   is_Some (known_at (Sentinel_Scan missing_fs 7 missing_state).1 "/w/a")).
Proof. exact (X4_scan_never_forgets missing_fs 7 missing_state "/w/a"). Defined.

(** The digest of a watched file after the first scan. *)
Lemma X5_index_holds_current_digests_witness :
  known_at sample_scanned "/w/one" = Some (sha256_hex (bytes_of "1")).
Proof.
  apply (X5_index_holds_current_digests sample_fs 5 sample_state sample_scanned
           (map created (files "/w/dir" sample_tree
                         ++ [("/w/one"%string, RegFile (bytes_of "1"))]))).
  - apply (bool_decide_eq_true_1 _). vm_compute. reflexivity.
  - vm_compute. reflexivity.
  - apply (bool_decide_eq_true_1 _). vm_compute. reflexivity.
Defined.

(** Two regular files: the earlier and the later [Scan] agree. *)
Lemma X7_earlier_scan_agrees_witness :
  Sentinel_Scan_v1 plain_fs 5 (New plain_config) = Sentinel_Scan plain_fs 5 (New plain_config).
Proof.
  apply (X7_earlier_scan_agrees_without_directories plain_fs 5 (New plain_config)).
  vm_compute. reflexivity.
Defined.

(** The earlier [Scan] on the sample directory. *)
Lemma X8_earlier_scan_rejects_directories_witness :
  (forall evs, (Sentinel_Scan_v1 sample_fs 5 sample_state).2 ≠ Ok evs) /\
  PriorScans (Sentinel_Scan_v1 sample_fs 5 sample_state).1 = PriorScans sample_state.
Proof.
  apply (X8_earlier_scan_rejects_directories sample_fs 5 sample_state "/w/dir"
           sample_entries).
  - apply (bool_decide_eq_true_1 _). vm_compute. reflexivity.
  - vm_compute. reflexivity.
Defined.

(** Two regular files: two creation events. *)
Lemma X9_first_scan_of_plain_files_witness :
  (Sentinel_Scan plain_fs 5 (New plain_config)).2 =
    Ok (map (created_at plain_fs) (cfgWatchFiles plain_config)) /\
  PriorScans (Sentinel_Scan plain_fs 5 (New plain_config)).1 =
    [mkScan 5 (map (created_at plain_fs) (cfgWatchFiles plain_config))].
Proof.
  apply (X9_first_scan_of_plain_files plain_fs 5 plain_config).
  - apply (bool_decide_eq_true_1 _). vm_compute. reflexivity.
  - vm_compute. reflexivity.
Defined.

(** The second file rewritten between two scans. *)
Lemma X10_modified_file_detected_witness :
  (Sentinel_Scan (<[ "/w/b"%string := RegFile (bytes_of "TWO") ]> plain_fs) 6 plain_scanned).2 =
    Ok [mkEvent evModify (sha256_hex (bytes_of "two")) (sha256_hex (bytes_of "TWO")) "/w/b"] /\
  known_at (Sentinel_Scan (<[ "/w/b"%string := RegFile (bytes_of "TWO") ]> plain_fs)
              6 plain_scanned).1 "/w/b" =
    Some (sha256_hex (bytes_of "TWO")).
Proof.
  apply (X10_modified_file_detected plain_fs 5 6 (New plain_config) plain_scanned
           (map (created_at plain_fs) (cfgWatchFiles plain_config))).
  - vm_compute. reflexivity.
  - vm_compute. reflexivity.
  - apply (bool_decide_eq_true_1 _). vm_compute. reflexivity.
  - vm_compute. reflexivity.
  - apply (bool_decide_eq_true_1 _). vm_compute. reflexivity.
Defined.

(** The container of the saved sample state. *)
Lemma X12_saved_container_layout_witness :
  exists out,
    disk sample_saved !! "spid.db"%string = Some (enc_SentinelFile out) /\
    Nonce out = take 24 (entropy sample_world) /\
    Salt out = take 24 (drop 24 (entropy sample_world)) /\
    take 24 (Data out) = Nonce out /\
    length (Data out) = sealed_size sample_scanned /\
    entropy sample_saved = drop 48 (entropy sample_world).
Proof.
  apply (X12_saved_container_layout sample_scanned "spid.db" "pw" sample_world sample_saved).
  vm_compute. reflexivity.
Defined.


(** A database whose container holds no data. *)
Lemma X14_open_short_data_panics_witness :
  Open "spid.db" "pw" truncated_world = Panic.
Proof.
  apply (X14_open_short_data_panics "spid.db" "pw" truncated_world []
           (replicate 24 Byte.x01) (replicate 24 Byte.x02)
           (take 32 (bytes_of "pw" ++ replicate 24 Byte.x02))).
  - vm_compute. reflexivity.
  - vm_compute. reflexivity.
  - vm_compute. lia.
  - vm_compute. reflexivity.
  - vm_compute. reflexivity.
Defined.

(** The scan command after the init command. *)
Lemma X15_scan_command_persists_witness :
  Open "spid.db" "pw" scan_world = Ok plain_scanned /\
  PriorScans plain_scanned =
    PriorScans (New plain_config)
    ++ [mkScan 5 (map (created_at plain_fs) (cfgWatchFiles plain_config))].
Proof.
  apply (X15_scan_command_persists "spid.db" "pw" plain_fs 5 init_world scan_world
           (New plain_config) plain_scanned).
  - vm_compute. reflexivity.
  - vm_compute. reflexivity.
  - vm_compute. reflexivity.
  - vm_compute. reflexivity.
  - vm_compute. reflexivity.
Defined.

(** The init command that wrote the database. *)
Lemma X16_init_writes_only_when_checked_witness :
  exists cfg password,
    Ok plain_config = Ok cfg /\ Ok "pw"%string = Ok password /\
    Ok "pw"%string = Ok password /\
    Forall (fun wf => can_open plain_fs wf = true) (cfgWatchFiles cfg) /\
    initCmd (Ok plain_config) plain_fs (Ok "pw"%string) (Ok "pw"%string) "spid.db" long_world =
      ((Save (New cfg) "spid.db" password long_world).1,
       Returned (Save (New cfg) "spid.db" password long_world).2) /\
    ((Save (New cfg) "spid.db" password long_world).2 = Ok tt \/
     (Save (New cfg) "spid.db" password long_world).2 = Err (ErrWrite "spid.db")) /\
    (forall q, q ≠ "spid.db"%string ->
       disk (initCmd (Ok plain_config) plain_fs (Ok "pw"%string) (Ok "pw"%string)
               "spid.db" long_world).1 !! q = disk long_world !! q).
Proof.
  apply (X16_init_writes_only_when_checked (Ok plain_config) plain_fs
           (Ok "pw"%string) (Ok "pw"%string) "spid.db" long_world).
  apply (bool_decide_eq_true_1 _). vm_compute. reflexivity.
Defined.

(** Two passwords that differ. *)
Lemma X17_init_password_mismatch_witness :
  initCmd (Ok plain_config) plain_fs (Ok "pw"%string) (Ok "pq"%string) "spid.db" long_world
  = (long_world, Returned (Ok tt)).
Proof.
  apply (X17_init_password_mismatch_returns_nil plain_config plain_fs "pw" "pq"
           "spid.db" long_world).
  - vm_compute. reflexivity.
  - apply (bool_decide_eq_true_1 _). vm_compute. reflexivity.
Defined.

(** The init command and the first scan command. *)
Lemma X18_init_then_first_scan_witness :
  exists s,
    Open "spid.db" "pw" scan_world = Ok s /\
    WatchFiles s = cfgWatchFiles plain_config /\
    PriorScans s = [mkScan 5 (map (created_at plain_fs) (cfgWatchFiles plain_config))] /\
    forall wf, wf ∈ cfgWatchFiles plain_config ->
               known_at s wf = Some (file_digest plain_fs wf).
Proof.
  apply (X18_init_then_first_scan plain_config plain_fs plain_fs "pw" "spid.db" 5
           long_world init_world scan_world).
  - vm_compute. reflexivity.
  - vm_compute. reflexivity.
  - vm_compute. reflexivity.
  - vm_compute. reflexivity.
  - apply (bool_decide_eq_true_1 _). vm_compute. reflexivity.
  - vm_compute. reflexivity.
  - vm_compute. reflexivity.
  - vm_compute. reflexivity.
Defined.

(** The file three levels down is opened four times, the one at the top
    once. *)
Lemma X11_nested_files_digested_witness :
  digests_of ("/w/dir/sub/deep/c.txt"%string, RegFile (bytes_of "gamma"))
             "/w/dir" sample_tree = 4%nat /\
  digests_of ("/w/dir/a.txt"%string, RegFile (bytes_of "alpha"))
             "/w/dir" sample_tree = 1%nat.
Proof.
  destruct (X11_nested_files_digested_repeatedly sample_tree "/w/dir") as (Hcount & _).
  split.
  - apply (Hcount ltac:(vm_compute; reflexivity) _ 3%nat).
    apply (bool_decide_eq_true_1 _). vm_compute. reflexivity.
  - apply (Hcount ltac:(vm_compute; reflexivity) _ 1%nat).
    apply (bool_decide_eq_true_1 _). vm_compute. reflexivity.
Defined.

(** C9 as first stated does not hold for a watched path itself: once
    /w/b, which is watched and was scanned, is deleted, every scan returns
    the error of [os.Stat], and nothing is recorded. *)
Lemma C9_counterexample :
  Sentinel_Scan plain_fs 5 (New plain_config)
    = (plain_scanned, Ok (map (created_at plain_fs) (cfgWatchFiles plain_config))) /\
  known_at plain_scanned "/w/b" = Some "two"%string /\
  Sentinel_Scan (delete "/w/b"%string plain_fs) 6 plain_scanned
    = (plain_scanned, Err (ErrStat "/w/b")) /\
  Sentinel_Scan (delete "/w/b"%string plain_fs) 7 plain_scanned
    = (plain_scanned, Err (ErrStat "/w/b")).
Proof. repeat split; vm_compute; reflexivity. Qed.

(** c.txt was scanned and is deleted from the directory three levels
    down: the next scan succeeds with no event and c.txt keeps its digest;
    with the watched file /w/one deleted instead, the scan fails. *)
Lemma C9_deleted_file_ignored_witness :
  prune "/w/dir/sub/deep/c.txt" "/w/dir" (Dir sample_entries) =
    Dir [("a.txt"%string, RegFile (bytes_of "alpha"));
         ("sub"%string,
          Dir [("b.txt"%string, RegFile (bytes_of "beta")); ("deep"%string, Dir [])])] /\
  Sentinel_Scan (<[ "/w/dir"%string :=
                      prune "/w/dir/sub/deep/c.txt" "/w/dir" (Dir sample_entries) ]> sample_fs)
                9 sample_scanned =
    (mkSentinel (WatchFiles sample_scanned) (KnownObjects sample_scanned)
                (PriorScans sample_scanned ++ [mkScan 9 []]), Ok []) /\
  known_at sample_scanned "/w/dir/sub/deep/c.txt" = Some (sha256_hex (bytes_of "gamma")) /\
  Sentinel_Scan (delete "/w/one"%string sample_fs) 9 sample_scanned
    = (sample_scanned, Err (ErrStat "/w/one")).
Proof.
  split; [vm_compute; reflexivity|].
  destruct (C9_deleted_file_ignored sample_fs 5 9 sample_state ∅ sample_scanned
              (map created (files "/w/dir" sample_tree
                            ++ [("/w/one"%string, RegFile (bytes_of "1"))])))
    as (Hbelow & Hwatched & _).
  - reflexivity.
  - apply (bool_decide_eq_true_1 _). vm_compute. reflexivity.
  - vm_compute. reflexivity.
  - destruct (Hbelow "/w/dir"%string sample_entries "/w/dir/sub/deep/c.txt"%string)
      as (_ & Hscan & Hkept); [vm_compute; reflexivity|].
    split; [exact Hscan|]. split.
    + apply Hkept. apply (bool_decide_eq_true_1 _). vm_compute. reflexivity.
    + apply Hwatched. apply (bool_decide_eq_true_1 _). vm_compute. reflexivity.
Defined.

(** The sample state saved under the checksum implementation: a wrong
    password, and a changed byte of the box, of the nonce or of the salt,
    give the one error; a changed byte of the copy of the nonce gives the
    saved state. *)
Lemma C2_open_rejection_witness :
  @Open checked_crypto "spid.db" "wrong" checked_saved = Err ErrDecrypt /\
  @Open checked_crypto "spid.db" "pw"
    (holding (with_Data_byte 30 Byte.xff checked_container)) = Err ErrDecrypt /\
  @Open checked_crypto "spid.db" "pw"
    (holding (with_Nonce_byte 3 Byte.xff checked_container)) = Err ErrDecrypt /\
  @Open checked_crypto "spid.db" "pw"
    (holding (with_Salt_byte 5 Byte.xff checked_container)) = Err ErrDecrypt /\
  @Open checked_crypto "spid.db" "pw"
    (holding (with_Data_byte 0 Byte.xff checked_container))
    = @Open checked_crypto "spid.db" "pw" checked_saved /\
  @Open checked_crypto "spid.db" "pw" checked_saved = Ok sample_scanned.
Proof.
  destruct (@C2_open_rejection sample_order checked_crypto checked_authentic
              sample_scanned "spid.db" "pw" sample_world checked_saved
              checked_container (checked_key "pw" (replicate 24 Byte.x02)))
    as (Hpassword & Hbox & Hnonce & Hsalt & Hcopy).
  - vm_compute. reflexivity.
  - vm_compute. reflexivity.
  - exists (enc_SentinelFile checked_container). split; vm_compute; reflexivity.
  - vm_compute. reflexivity.
  - split; [|split; [|split; [|split; [|split]]]].
    + apply (Hpassword "wrong"%string (checked_key "wrong" (replicate 24 Byte.x02))).
      * vm_compute. reflexivity.
      * apply (bool_decide_eq_true_1 _). vm_compute. reflexivity.
    + apply (Hbox _ 30%nat Byte.xff).
      * vm_compute. lia.
      * apply (bool_decide_eq_true_1 _). vm_compute. reflexivity.
      * eexists. split; vm_compute; reflexivity.
    + apply (Hnonce _ 3%nat Byte.xff).
      * lia.
      * apply (bool_decide_eq_true_1 _). vm_compute. reflexivity.
      * eexists. split; vm_compute; reflexivity.
    + apply (Hsalt _ 5%nat Byte.xff
               (checked_key "pw" (<[5%nat := Byte.xff]> (replicate 24 Byte.x02)))).
      * eexists. split; vm_compute; reflexivity.
      * vm_compute. reflexivity.
      * apply (bool_decide_eq_true_1 _). vm_compute. reflexivity.
    + apply (Hcopy _ 0%nat Byte.xff).
      * lia.
      * eexists. split; vm_compute; reflexivity.
    + vm_compute. reflexivity.
Defined.

End more_runs.
